(** * while.js: the parser, the interpreter and the programs-as-data display

    A shallow embedding of the WHILE toolchain of while.js:
    - [Syntax]: binary trees, positions, tokens, error records and the AST;
    - [Parser]: the recursive-descent parser with error recovery
      (the parser source file, [StateManager] and the [_read*] functions);
    - [Interp]: the explicit-stack interpreter ([src/run/Interpreter.ts]);
    - [Shared]: the expression evaluator again, over a store of argument
      arrays, where the copies made by [_copyExpr] are visible;
    - [Pad]: the textual display of programs-as-data. *)

From Stdlib Require Import String Ascii List Arith Lia Bool DecimalString.
From stdpp Require Import base option list gmap strings.

Local Open Scope string_scope.
Local Open Scope list_scope.
Local Open Scope stdpp_scope.
Set Warnings "-register-all".
Set Default Proof Using "Type".

Module Syntax.

(** ** Binary trees ([types/Trees]): [null] or a pair of trees. *)
Inductive BinaryTree : Type :=
| null : BinaryTree
| Tree (left right : BinaryTree) : BinaryTree.

#[global] Instance BinaryTree_eq_dec : EqDecision BinaryTree.
Proof. solve_decision. Defined.

(** [_numToTree]: one more layer [{left: null, right: tree}] per unit. *)
Fixpoint _numToTree_loop (n : nat) (tree : BinaryTree) : BinaryTree :=
  match n with
  | O => tree
  | S n' => _numToTree_loop n' (Tree null tree)
  end.

Definition _numToTree (n : nat) : BinaryTree := _numToTree_loop n null.

(** ** Positions and error records *)
Record Position : Type := mkPosition { row : nat; col : nat }.

#[global] Instance Position_eq_dec : EqDecision Position.
Proof. solve_decision. Defined.

(** The double quote character, for the messages. *)
Definition dq : string := String (Ascii.ascii_of_nat 34) EmptyString.
Definition newline : string := String (Ascii.ascii_of_nat 10) EmptyString.

(** Modelled from the spec: [incrementPos] of [types/position], which is not
    among the sources.  Advancing past a token adds the token's printed width
    to the column; a newline starts the next row at column 0. *)
Definition incrementPos (p : Position) (tok : string) : Position :=
  if String.eqb tok newline then {| row := S (row p); col := 0 |}
  else {| row := row p; col := col p + String.length tok |}.

Record ErrorType : Type := mkError { position : Position; message : string }.

#[global] Instance ErrorType_eq_dec : EqDecision ErrorType.
Proof. solve_decision. Defined.

(** ** Tokens *)
Inductive TokenType : Type :=
| identifier | operation | symbol | expression | number.

#[global] Instance TokenType_eq_dec : EqDecision TokenType.
Proof. solve_decision. Defined.

(** The value of a token is a string, or a number for a [number] token. *)
Inductive TokenValue : Type :=
| VStr (s : string)
| VNum (n : nat).

#[global] Instance TokenValue_eq_dec : EqDecision TokenValue.
Proof. solve_decision. Defined.

Inductive TokenData : Type :=
| TkIdentifier (v : string)
| TkOperation (v : string)
| TkSymbol (v : string)
| TkExpression (v : string)
| TkNumber (n : nat).

#[global] Instance TokenData_eq_dec : EqDecision TokenData.
Proof. solve_decision. Defined.

Record WHILE_TOKEN_EXTD : Type := mkToken { data : TokenData; pos : Position }.

#[global] Instance WHILE_TOKEN_EXTD_eq_dec : EqDecision WHILE_TOKEN_EXTD.
Proof. solve_decision. Defined.

Definition type (t : WHILE_TOKEN_EXTD) : TokenType :=
  match data t with
  | TkIdentifier _ => identifier
  | TkOperation _ => operation
  | TkSymbol _ => symbol
  | TkExpression _ => expression
  | TkNumber _ => number
  end.

Definition value (t : WHILE_TOKEN_EXTD) : TokenValue :=
  match data t with
  | TkIdentifier v | TkOperation v | TkSymbol v | TkExpression v => VStr v
  | TkNumber n => VNum n
  end.

(** [first.value === exp] for a string [exp]: a number is never equal. *)
Definition value_is (t : WHILE_TOKEN_EXTD) (exp : string) : bool :=
  match value t with
  | VStr v => String.eqb v exp
  | VNum _ => false
  end.

Definition nat_toString (n : nat) : string :=
  DecimalString.NilZero.string_of_uint (Nat.to_uint n).

(** [value.toString()] where the value is a number, the string otherwise. *)
Definition value_toString (v : TokenValue) : string :=
  match v with
  | VStr s => s
  | VNum n => nat_toString n
  end.

(** Modelled from the spec: the token constants of [types/tokens] and
    [types/extendedTokens], which are not among the sources; these are the
    lexemes the spec lists. *)
Definition TKN_ASSGN := ":=".
Definition TKN_BLOCK_CLS := "}".
Definition TKN_BLOCK_OPN := "{".
Definition TKN_ELSE := "else".
Definition TKN_HD := "hd".
Definition TKN_IF := "if".
Definition TKN_PREN_CLS := ")".
Definition TKN_PREN_OPN := "(".
Definition TKN_READ := "read".
Definition TKN_SEP := ";".
Definition TKN_TL := "tl".
Definition TKN_WHILE := "while".
Definition TKN_WRITE := "write".
Definition TKN_CASE := "case".
Definition TKN_COLON := ":".
Definition TKN_DEFAULT := "default".
Definition TKN_SWITCH := "switch".

(** ** The AST ([types/ast]).  A slot typed [option] may hold [None] where the
    parser could not read the child (JavaScript [null]).  The [equal]
    expression of the AST type is never built by the parser nor run by the
    interpreter and has no constructor here. *)
Record IDENT_TYPE : Type := mkIdent { ident_value : string; ident_pos : Position }.

#[global] Instance IDENT_TYPE_eq_dec : EqDecision IDENT_TYPE.
Proof. solve_decision. Defined.

Record OP_TYPE : Type := mkOp { op_value : string; op_pos : Position }.

#[global] Instance OP_TYPE_eq_dec : EqDecision OP_TYPE.
Proof. solve_decision. Defined.

Inductive AST_EXPR : Type :=
| AST_IDENT (ident : IDENT_TYPE)
| AST_TREE (tree : BinaryTree)
| AST_OP (complete : bool) (op : OP_TYPE) (args : list (option AST_EXPR)).

Inductive AST_CMD : Type :=
| AST_ASGN (complete : bool) (ident : IDENT_TYPE) (arg : option AST_EXPR)
| AST_IF (complete : bool) (condition : option AST_EXPR)
         (if_ else_ : list (option AST_CMD))
| AST_WHILE (complete : bool) (condition : option AST_EXPR)
            (body : list (option AST_CMD))
| AST_SWITCH (complete : bool) (condition : option AST_EXPR)
             (cases : list (bool * AST_EXPR * list (option AST_CMD)))
             (default : bool * list (option AST_CMD)).

(** A [switch_case] node is [(complete, cond, body)] and a [switch_default]
    node is [(complete, body)]. *)
Definition AST_SWITCH_CASE : Type := bool * AST_EXPR * list (option AST_CMD).
Definition AST_SWITCH_DEFAULT : Type := bool * list (option AST_CMD).

Record AST_PROG : Type := mkProg {
  prog_complete : bool;
  prog_name : option IDENT_TYPE;
  prog_input : option IDENT_TYPE;
  prog_output : option IDENT_TYPE;
  prog_body : list (option AST_CMD)
}.

(** The identifier node a token is, when its type is [identifier]. *)
Definition as_ident (t : WHILE_TOKEN_EXTD) : option IDENT_TYPE :=
  match data t with
  | TkIdentifier v => Some {| ident_value := v; ident_pos := pos t |}
  | _ => None
  end.

(** ** Completeness of every node *)

(** The [complete] flag an expression node carries; identifiers and tree
    literals carry none and count as complete. *)
Definition expr_flag (e : AST_EXPR) : bool :=
  match e with
  | AST_IDENT _ | AST_TREE _ => true
  | AST_OP c _ _ => c
  end.

(** Every node of the expression has [complete = true].  With [strict], a
    missing child ([None]) is refused as well. *)
Fixpoint expr_all_complete (strict : bool) (e : AST_EXPR) : bool :=
  match e with
  | AST_IDENT _ | AST_TREE _ => true
  | AST_OP c _ args =>
      c && forallb (fun a => match a with
                             | None => negb strict
                             | Some a' => expr_all_complete strict a'
                             end) args
  end.

Definition present {A} (o : option A) : bool :=
  match o with Some _ => true | None => false end.

Definition slot_all_complete {A} (f : A -> bool) (strict : bool) (o : option A) : bool :=
  match o with
  | None => negb strict
  | Some a => f a
  end.

Fixpoint cmd_all_complete (strict : bool) (c : AST_CMD) : bool :=
  let block := forallb (fun o => match o with
                                 | None => negb strict
                                 | Some c' => cmd_all_complete strict c'
                                 end) in
  match c with
  | AST_ASGN f _ arg => f && slot_all_complete (expr_all_complete strict) strict arg
  | AST_IF f cond i e =>
      f && slot_all_complete (expr_all_complete strict) strict cond
        && block i && block e
  | AST_WHILE f cond b =>
      f && slot_all_complete (expr_all_complete strict) strict cond && block b
  | AST_SWITCH f cond cases dflt =>
      f && slot_all_complete (expr_all_complete strict) strict cond
        && forallb (fun cs => match cs with
                              | (fc, ec, bc) =>
                                  fc && expr_all_complete strict ec && block bc
                              end) cases
        && (match dflt with (fd, bd) => fd && block bd end)
  end.

Definition block_all_complete (strict : bool) (b : list (option AST_CMD)) : bool :=
  forallb (slot_all_complete (cmd_all_complete strict) strict) b.

Definition prog_all_complete (strict : bool) (p : AST_PROG) : bool :=
  prog_complete p
  && (negb strict || (present (prog_name p) && present (prog_input p)
                      && present (prog_output p)))
  && block_all_complete strict (prog_body p).

End Syntax.

(** * The parser *)
Module Parser.
Import Syntax.

(** [let? p := e in k]: [e] may run out of fuel. *)
Notation "'let?' p := e 'in' k" :=
  (match e with Some p => k | None => None end)
  (at level 10, p pattern, e at level 200, k at level 200).

Record ParserOpts : Type := mkParserOpts { props_pureOnly : option bool }.
Record IntParserOpts : Type := mkIntParserOpts { pureOnly : bool }.

(** Internal representation for the result status of an operation. *)
Inductive ParseStatus : Type := OK | ERROR | EOI.

#[global] Instance ParseStatus_eq_dec : EqDecision ParseStatus.
Proof. solve_decision. Defined.

Definition is_OK (s : ParseStatus) : bool :=
  match s with OK => true | _ => false end.
Definition is_EOI (s : ParseStatus) : bool :=
  match s with EOI => true | _ => false end.

(** ** [ErrorManager] *)

(** Modelled from the spec: [addError] of the base [ErrorManager]
    ([utils/errorManager]), which is not among the sources.  Records are kept
    in insertion order and never de-duplicated; the position is stored by
    value. *)
Definition addError_at (errs : list ErrorType) (p : Position) (msg : string)
  : list ErrorType :=
  errs ++ [mkError p msg].

(** [if (actual)]: [undefined] and the empty string are falsy. *)
Definition truthy (actual : option string) : bool :=
  match actual with
  | Some a => negb (String.eqb a "")
  | None => false
  end.

Definition shown (actual : option string) : string :=
  match actual with Some a => a | None => "undefined" end.

Definition em_unexpectedValue (errs : list ErrorType) (p : Position)
    (type : string) (actual : option string) (expected : list string)
  : list ErrorType :=
  let msg := "Unexpected " +:+ type in
  let msg :=
    match expected with
    | [] => if truthy actual then msg +:+ ": " +:+ dq +:+ shown actual +:+ dq
            else msg
    | e :: more =>
        let msg := if truthy actual then msg +:+ " " +:+ dq +:+ shown actual +:+ dq
                   else msg in
        match more with
        | [] => msg +:+ ": Expected " +:+ dq +:+ e +:+ dq
        | _ => msg +:+ ": Expected one of " +:+ dq
                   +:+ String.concat (dq +:+ ", " +:+ dq) expected +:+ dq
        end
    end in
  addError_at errs p msg.

Definition em_unexpectedToken (errs : list ErrorType) (p : Position)
    (actual : option string) (expected : list string) : list ErrorType :=
  em_unexpectedValue errs p "token" actual expected.

Definition em_unexpectedEOI (errs : list ErrorType) (p : Position)
    (expected : list string) : list ErrorType :=
  em_unexpectedValue errs p "end of input" None expected.

(** ** [StateManager]: a queue wrapper around the program token list.
    [_tokens] is the array the caller passed: the constructor keeps the
    reference and [_next] shifts tokens out of that very array. *)
Record StateManager : Type := mkState {
  errors : list ErrorType;
  _tokens : list WHILE_TOKEN_EXTD;
  _pos : Position;
  _lastToken : option WHILE_TOKEN_EXTD
}.

Definition new_StateManager (tokens : list WHILE_TOKEN_EXTD) : StateManager :=
  {| errors := []; _tokens := tokens;
     _lastToken := None; _pos := {| col := 0; row := 0 |} |}.

Definition set_errors (errs : list ErrorType) (s : StateManager) : StateManager :=
  {| errors := errs; _tokens := _tokens s; _pos := _pos s;
     _lastToken := _lastToken s |}.

(** Pop and return the next token from the queue, and update the position
    counter. *)
Definition _next (s : StateManager) : option WHILE_TOKEN_EXTD * StateManager :=
  match _tokens s with
  | first :: rest =>
      (Some first,
       {| errors := errors s; _tokens := rest;
          _pos := pos first; _lastToken := Some first |})
  | [] =>
      let width := match _lastToken s with
                   | None => ""
                   | Some last => value_toString (value last)
                   end in
      (None,
       {| errors := errors s; _tokens := [];
          _pos := incrementPos (_pos s) width; _lastToken := _lastToken s |})
  end.

Definition next := _next.

Definition peek (s : StateManager) : option WHILE_TOKEN_EXTD :=
  match _tokens s with
  | [] => None
  | t :: _ => Some t
  end.

Definition addError (msg : string) (s : StateManager) : StateManager :=
  set_errors (addError_at (errors s) (_pos s) msg) s.

Definition unexpectedValue (type : string) (actual : option string)
    (expected : list string) (s : StateManager) : StateManager :=
  set_errors (em_unexpectedValue (errors s) (_pos s) type actual expected) s.

Definition unexpectedToken (actual : option string) (expected : list string)
    (s : StateManager) : StateManager :=
  set_errors (em_unexpectedToken (errors s) (_pos s) actual expected) s.

Definition unexpectedEOI (expected : list string) (s : StateManager)
  : StateManager :=
  set_errors (em_unexpectedEOI (errors s) (_pos s) expected) s.

Definition unexpectedEOICustom (msg : string) (s : StateManager) : StateManager :=
  set_errors (addError_at (errors s) (_pos s)
                ("Unexpected end of input: " +:+ msg)) s.

Definition unexpectedTokenCustom (actual : option string) (msg : string)
    (s : StateManager) : StateManager :=
  set_errors
    (addError_at (errors s) (_pos s)
       (if truthy actual
        then "Unexpected token " +:+ dq +:+ shown actual +:+ dq +:+ ": " +:+ msg
        else "Unexpected token: " +:+ msg)) s.

(** The [value] of a token as the error functions receive it. *)
Definition actual_of (t : WHILE_TOKEN_EXTD) : option string :=
  Some (value_toString (value t)).

(** Pop a token and expect it to match one of [expected] (any token when
    [expected] is empty). *)
Definition expect (expected : list string) (s : StateManager)
  : (ParseStatus * option WHILE_TOKEN_EXTD) * StateManager :=
  let '(first, s) := _next s in
  match first with
  | None => ((EOI, None), unexpectedEOI expected s)
  | Some first =>
      match expected with
      | [] => ((OK, Some first), s)
      | _ =>
          if existsb (value_is first) expected then ((OK, Some first), s)
          else ((ERROR, Some first), unexpectedToken (actual_of first) expected s)
      end
  end.

(** Read from the token list until one of the expected tokens (or the end of
    the list) is reached; the terminating token is not popped. *)
Fixpoint consumeUntil_loop (expected : list string)
    (toks : list WHILE_TOKEN_EXTD) (res : list WHILE_TOKEN_EXTD)
    (s : StateManager) : list WHILE_TOKEN_EXTD * StateManager :=
  match toks with
  | [] => (res, s)
  | nxt :: toks' =>
      if existsb (value_is nxt) expected then (res, s)
      else consumeUntil_loop expected toks' (res ++ [nxt]) (snd (next s))
  end.

Definition consumeUntil (expected : list string) (s : StateManager)
  : list WHILE_TOKEN_EXTD * StateManager :=
  consumeUntil_loop expected (_tokens s) [] s.

(** ** Expressions *)
Definition type_name (t : TokenType) : string :=
  match t with
  | identifier => "identifier"
  | operation => "operation"
  | symbol => "symbol"
  | expression => "expression"
  | number => "number"
  end.

(** Read an expression (hd/tl/cons) from the token list.  The tests
    [arg.type === 'identifier' || arg.type === 'tree' || arg.complete] and
    [(x.type === 'operation' || x.type === 'equal') && !x.complete] of the
    source are [expr_flag] and its negation. *)
Fixpoint _readExpr (fuel : nat) (opts : IntParserOpts) (state : StateManager)
  : option (option AST_EXPR * StateManager) :=
  match fuel with
  | O => None
  | S fuel =>
    let '(first, state) := next state in
    match first with
    | None => Some (None, state)
    | Some first =>
      if value_is first TKN_PREN_OPN then
        let? (expr, state) := _readExpr fuel opts state in
        let '(close, state) := next state in
        let state :=
          match close with
          | None => unexpectedEOI [TKN_PREN_CLS] state
          | Some close =>
              if value_is close TKN_PREN_CLS then state
              else unexpectedToken (actual_of close) [TKN_PREN_CLS] state
          end in
        Some (expr, state)
      else
        match data first with
        | TkOperation v =>
            let op := {| op_value := v; op_pos := pos first |} in
            if value_is first TKN_HD || value_is first TKN_TL then
              let? (arg, state) := _readExpr fuel opts state in
              match arg with
              | None => Some (Some (AST_OP false op [arg]), state)
              | Some a =>
                  if expr_flag a then Some (Some (AST_OP true op [arg]), state)
                  else Some (Some (AST_OP false op [arg]), state)
              end
            else
              let? (left_, state) := _readExpr fuel opts state in
              let? (right_, state) := _readExpr fuel opts state in
              match left_, right_ with
              | Some l, Some r =>
                  if negb (expr_flag l) || negb (expr_flag r)
                  then Some (Some (AST_OP false op [left_; right_]), state)
                  else Some (Some (AST_OP true op [left_; right_]), state)
              | _, _ => Some (Some (AST_OP false op [left_; right_]), state)
              end
        | TkIdentifier v =>
            Some (Some (AST_IDENT {| ident_value := v; ident_pos := pos first |}),
                  state)
        | TkNumber n =>
            if negb (pureOnly opts) then Some (Some (AST_TREE (_numToTree n)), state)
            else Some (None,
                       unexpectedTokenCustom (actual_of first)
                         "Expected an expression or an identifier" state)
        | _ =>
            Some (None,
                  unexpectedTokenCustom (actual_of first)
                    "Expected an expression or an identifier" state)
        end
    end
  end.

(** ** Statements *)

(** What [_readCase] returns as its node: a case, a default, or nothing. *)
Inductive CaseNode : Type :=
| switch_case (c : AST_SWITCH_CASE)
| switch_default (d : AST_SWITCH_DEFAULT).

Definition status_list : Type := ParseStatus * list (option AST_CMD).

(** The functions below call each other; each call spends one unit of
    [fuel], and so does each round of the two [while] loops
    ([_readStatementList_loop], [_readSwitch_loop]). *)
Fixpoint _readElse (fuel : nat) (opts : IntParserOpts) (state : StateManager)
    {struct fuel} : option (status_list * StateManager) :=
  match fuel with
  | O => None
  | S fuel =>
    match peek state with
    | None => Some ((EOI, []), unexpectedEOI [TKN_BLOCK_CLS] state)
    | Some pk =>
        if value_is pk TKN_ELSE then
          let '(_, state) := next state in
          _readBlock fuel opts state
        else Some ((OK, []), state)
    end
  end

with _readStatementList_loop (fuel : nat) (opts : IntParserOpts)
    (status : ParseStatus) (res : list (option AST_CMD)) (state : StateManager)
    {struct fuel} : option (status_list * StateManager) :=
  match fuel with
  | O => None
  | S fuel =>
    let? ((statementStatus, statement), state) := _readStmt fuel opts state in
    let res := res ++ [statement] in
    match statementStatus with
    | EOI => Some ((EOI, res), state)
    | _ =>
      let '(status, state) :=
        match statementStatus with
        | ERROR => (ERROR, snd (consumeUntil [TKN_BLOCK_CLS; TKN_SEP] state))
        | _ => (status, state)
        end in
      match peek state with
      | None =>
          let '(_, state) := next state in
          Some ((EOI, res), unexpectedEOI [TKN_SEP; TKN_BLOCK_CLS] state)
      | Some nxt =>
          if value_is nxt TKN_SEP then
            let '(_, state) := next state in
            _readStatementList_loop fuel opts status res state
          else Some ((status, res), state)
      end
    end
  end

with _readStatementList (fuel : nat) (opts : IntParserOpts)
    (state : StateManager) {struct fuel}
  : option (status_list * StateManager) :=
  match fuel with
  | O => None
  | S fuel => _readStatementList_loop fuel opts OK [] state
  end

with _readCase (fuel : nat) (opts : IntParserOpts) (state : StateManager)
    {struct fuel} : option ((ParseStatus * option CaseNode) * StateManager) :=
  match fuel with
  | O => None
  | S fuel =>
    let '(caseTkn, state) := next state in
    match caseTkn with
    | None => Some ((EOI, None), state)
    | Some caseTkn =>
      if value_is caseTkn TKN_DEFAULT then
        let '(_, state) := expect [TKN_COLON] state in
        let? ((bodyStatus, body), state) := _readStatementList fuel opts state in
        if negb (is_OK bodyStatus)
        then Some ((bodyStatus, Some (switch_default (false, body))), state)
        else Some ((bodyStatus, Some (switch_default (true, body))), state)
      else if value_is caseTkn TKN_CASE then
        let? (expr, state) := _readExpr fuel opts state in
        match expr with
        | None => Some ((EOI, None), state)
        | Some expr =>
          let status := if negb (expr_flag expr) then ERROR else OK in
          let '(_, state) := expect [TKN_COLON] state in
          let? ((bodyStatus, body), state) := _readStatementList fuel opts state in
          if is_OK bodyStatus && is_OK status
          then Some ((bodyStatus, Some (switch_case (true, expr, body))), state)
          else Some ((bodyStatus, Some (switch_case (false, expr, body))), state)
        end
      else
        Some ((ERROR, None),
              unexpectedToken (actual_of caseTkn) [TKN_CASE; TKN_DEFAULT] state)
    end
  end

with _readSwitch_loop (fuel : nat) (opts : IntParserOpts)
    (status : ParseStatus) (cases : list AST_SWITCH_CASE)
    (dflt : option AST_SWITCH_DEFAULT) (state : StateManager) {struct fuel}
  : option ((ParseStatus * list AST_SWITCH_CASE * option AST_SWITCH_DEFAULT)
            * StateManager) :=
  match fuel with
  | O => None
  | S fuel =>
    match peek state with
    | None => Some ((status, cases, dflt), state)
    | Some nxt =>
      if negb (value_is nxt TKN_DEFAULT) && negb (value_is nxt TKN_CASE)
      then Some ((status, cases, dflt), state)
      else
        let state :=
          match dflt with
          | Some _ => unexpectedToken (actual_of nxt) [TKN_BLOCK_CLS] state
          | None => state
          end in
        let? ((caseStatus, body), state) := _readCase fuel opts state in
        let status := if negb (is_OK status) then caseStatus else status in
        match body with
        | None => Some ((status, cases, dflt), state)
        | Some body =>
          if is_EOI status then Some ((status, cases, dflt), state)
          else
            match body with
            | switch_case c =>
                _readSwitch_loop fuel opts status (cases ++ [c]) dflt state
            | switch_default d =>
                _readSwitch_loop fuel opts status cases (Some d) state
            end
        end
    end
  end

with _readSwitch (fuel : nat) (opts : IntParserOpts) (state : StateManager)
    {struct fuel} : option ((ParseStatus * option AST_CMD) * StateManager) :=
  match fuel with
  | O => None
  | S fuel =>
    let? (inpExpr, state) := _readExpr fuel opts state in
    let '((status, _), state) := expect [TKN_BLOCK_OPN] state in
    if is_EOI status then Some ((EOI, None), state)
    else
      let? ((status, cases, dflt), state) :=
        _readSwitch_loop fuel opts status [] None state in
      let dflt := match dflt with
                  | Some d => d
                  | None => (true, [])
                  end in
      let '((s, _), state) := expect [TKN_BLOCK_CLS] state in
      let status := if negb (is_OK s) then s else status in
      if is_OK status
      then Some ((status, Some (AST_SWITCH true inpExpr cases dflt)), state)
      else Some ((status, Some (AST_SWITCH false inpExpr cases dflt)), state)
  end

with _readStmt (fuel : nat) (opts : IntParserOpts) (state : StateManager)
    {struct fuel} : option ((ParseStatus * option AST_CMD) * StateManager) :=
  match fuel with
  | O => None
  | S fuel =>
    let '(first, state) := next state in
    match first with
    | None => Some ((EOI, None), state)
    | Some first =>
      if value_is first TKN_IF then
        let? (cond, state) := _readExpr fuel opts state in
        let? ((ifState, ifBlock), state) := _readBlock fuel opts state in
        let? ((elseState, elseBlock), state) := _readElse fuel opts state in
        if slot_all_complete expr_flag true cond
           && is_OK ifState && is_OK elseState
        then Some ((OK, Some (AST_IF true cond ifBlock elseBlock)), state)
        else Some ((ERROR, Some (AST_IF false cond ifBlock elseBlock)), state)
      else if value_is first TKN_WHILE then
        let? (cond, state) := _readExpr fuel opts state in
        let? ((bodyState, body), state) := _readBlock fuel opts state in
        if is_OK bodyState && present cond
        then Some ((OK, Some (AST_WHILE true cond body)), state)
        else Some ((if is_EOI bodyState then EOI else ERROR,
                    Some (AST_WHILE false cond body)), state)
      else
        match as_ident first with
        | Some ident =>
            let '(_, state) := expect [TKN_ASSGN] state in
            let? (val, state) := _readExpr fuel opts state in
            if slot_all_complete expr_flag true val
            then Some ((OK, Some (AST_ASGN true ident val)), state)
            else Some ((ERROR, Some (AST_ASGN false ident val)), state)
        | None =>
            if negb (pureOnly opts) && value_is first TKN_SWITCH
            then _readSwitch fuel opts state
            else
              Some ((ERROR, None),
                    unexpectedTokenCustom None
                      ("Expected " +:+ TKN_IF +:+ " " +:+ TKN_WHILE
                       +:+ " or an assignment statement") state)
        end
    end
  end

with _readBlock (fuel : nat) (opts : IntParserOpts) (state : StateManager)
    {struct fuel} : option (status_list * StateManager) :=
  match fuel with
  | O => None
  | S fuel =>
    let '(_, state) := expect [TKN_BLOCK_OPN] state in
    match peek state with
    | None =>
        let '(_, state) := next state in
        Some ((EOI, []), unexpectedEOI [TKN_BLOCK_CLS] state)
    | Some first =>
      if value_is first TKN_BLOCK_CLS then
        let '(_, state) := next state in
        Some ((OK, []), state)
      else
        let? ((status, res), state) := _readStatementList fuel opts state in
        if is_EOI status then Some ((status, res), state)
        else
          let '((clsStat, _), state) := expect [TKN_BLOCK_CLS] state in
          if is_EOI clsStat then Some ((clsStat, res), state)
          else if is_OK status && is_OK clsStat then Some ((OK, res), state)
          else Some ((ERROR, res), state)
    end
  end.

(** ** The program frame *)
Definition _readInput (state : StateManager)
  : (ParseStatus * option IDENT_TYPE) * StateManager :=
  match peek state with
  | None =>
      let '(_, state) := next state in
      ((EOI, None), unexpectedEOICustom "Missing input variable" state)
  | Some input =>
      if value_is input TKN_BLOCK_OPN then
        ((ERROR, None),
         set_errors
           (addError_at (errors state) (pos input)
              ("Unexpected token " +:+ dq +:+ value_toString (value input)
               +:+ dq +:+ ": Missing input variable")) state)
      else
        match as_ident input with
        | Some ident => let '(_, state) := next state in ((OK, Some ident), state)
        | None => let '(_, state) := next state in ((ERROR, None), state)
        end
  end.

Definition _readRead (state : StateManager)
  : (ParseStatus * option IDENT_TYPE) * StateManager :=
  match peek state with
  | None =>
      let '(_, state) := next state in
      ((EOI, None), unexpectedEOI [TKN_READ] state)
  | Some read =>
      if value_is read TKN_READ then
        let '(_, state) := next state in
        _readInput state
      else if value_is read TKN_BLOCK_OPN then
        ((ERROR, None),
         set_errors (em_unexpectedToken (errors state) (pos read) None [TKN_READ])
           state)
      else
        let '(_, state) := next state in
        ((ERROR, as_ident read), unexpectedToken (actual_of read) [TKN_READ] state)
  end.

Definition _readProgramIntro (state : StateManager)
  : (ParseStatus * option IDENT_TYPE * option IDENT_TYPE) * StateManager :=
  match peek state with
  | None =>
      let '(_, state) := next state in
      ((EOI, None, None), unexpectedEOICustom "Missing program name" state)
  | Some name =>
      if value_is name TKN_READ then
        let '(_, state) := next state in
        let state :=
          set_errors (addError_at (errors state) (pos name)
                        "Unexpected token: Missing program name") state in
        let '((inputStatus, input), state) := _readInput state in
        if is_OK inputStatus then ((OK, None, input), state)
        else ((ERROR, None, input), state)
      else if value_is name TKN_BLOCK_OPN then
        let state :=
          set_errors (addError_at (errors state) (pos name)
                        "Unexpected token: Missing program name") state in
        let state :=
          set_errors (em_unexpectedToken (errors state) (pos name) None [TKN_READ])
            state in
        ((ERROR, None, None), state)
      else
        let '(_, state) := next state in
        let '((inputStatus, inputVar), state) := _readRead state in
        match as_ident name with
        | None => ((ERROR, None, inputVar), state)
        | Some nameIdent =>
            if is_OK inputStatus then ((OK, Some nameIdent, inputVar), state)
            else ((inputStatus, Some nameIdent, inputVar), state)
        end
  end.

Definition _readProgramOutro (state : StateManager)
  : (ParseStatus * option IDENT_TYPE) * StateManager :=
  let '(write, state) := next state in
  match write with
  | None => ((EOI, None), unexpectedEOI [TKN_WRITE] state)
  | Some write =>
      let '(err, output, state) :=
        if value_is write TKN_WRITE then (OK, None, state)
        else
          match as_ident write with
          | Some ident =>
              (ERROR, Some ident, unexpectedToken (actual_of write) [TKN_WRITE] state)
          | None =>
              (ERROR, None,
               unexpectedValue (type_name (type write)) (actual_of write)
                 [TKN_WRITE] state)
          end in
      let '(outputVar, state) := next state in
      match outputVar with
      | None => ((EOI, output), unexpectedEOI ["identifier"] state)
      | Some outputVar =>
          match as_ident outputVar with
          | Some ident => ((err, Some ident), state)
          | None =>
              ((ERROR, output),
               unexpectedTokenCustom (actual_of outputVar)
                 " Expected an identifier" state)
          end
      end
  end.

(** Read the root structure of a program:
    [<prog> read <in> { ... } write <out>]. *)
Definition _readProgram (fuel : nat) (opts : IntParserOpts) (state : StateManager)
  : option (AST_PROG * StateManager) :=
  let '((progInStatus, name, input), state) := _readProgramIntro state in
  let? ((bodyStatus, body, outputStatus, output), state) :=
    if negb (is_EOI progInStatus) then
      let? ((bodyStatus, body), state) := _readBlock fuel opts state in
      if negb (is_EOI bodyStatus) then
        let '((outputStatus, output), state) := _readProgramOutro state in
        let '(final, state) := next state in
        let state :=
          match final with
          | Some final =>
              unexpectedTokenCustom (actual_of final) "Expected end of input" state
          | None => state
          end in
        Some ((bodyStatus, body, outputStatus, output), state)
      else Some ((bodyStatus, body, OK, None), state)
    else Some ((OK, [], OK, None), state) in
  if present name && present input && present output
     && is_OK bodyStatus && is_OK progInStatus && is_OK outputStatus
  then Some ({| prog_complete := true; prog_input := input;
                prog_output := output; prog_name := name;
                prog_body := body |}, state)
  else Some ({| prog_complete := false; prog_input := input;
                prog_output := output; prog_name := name;
                prog_body := body |}, state).

(** Fuel that is enough for a token list (see [parser_total]). *)
Definition parser_fuel (tokens : list WHILE_TOKEN_EXTD) : nat :=
  4 * length tokens + 4.

(** Parse a token list to an abstract syntax tree.  Returns the program and
    the discovered errors and, third, what is left in the caller's token
    array, which the state manager has been shifting tokens out of. *)
Definition parser (tokens : list WHILE_TOKEN_EXTD) (props : option ParserOpts)
  : option (AST_PROG * list ErrorType * list WHILE_TOKEN_EXTD) :=
  let opts :=
    {| pureOnly := match props with
                   | Some p => default false (props_pureOnly p)
                   | None => false
                   end |} in
  let stateManager := new_StateManager tokens in
  let? (prog, stateManager) :=
    _readProgram (parser_fuel tokens) opts stateManager in
  Some (prog, errors stateManager, _tokens stateManager).

(** Two invocations on the same token array: the second one finds in it
    what the first one left. *)
Definition parser_twice (tokens : list WHILE_TOKEN_EXTD) (props : option ParserOpts)
  : option ((AST_PROG * list ErrorType) * (AST_PROG * list ErrorType)) :=
  let? (prog1, errors1, tokens1) := parser tokens props in
  let? (prog2, errors2, _) := parser tokens1 props in
  Some ((prog1, errors1), (prog2, errors2)).

(** ** What the parsing functions do to the state, for the proofs *)

(** From [s] to [s']: tokens are only taken off the front, errors only
    added. *)
Definition shrink (s s' : StateManager) : Prop :=
  suffix (_tokens s') (_tokens s)
  /\ length (_tokens s') <= length (_tokens s)
  /\ length (errors s) <= length (errors s').

(** [shrink], and a token is taken when there is one. *)
Definition consume (s s' : StateManager) : Prop :=
  shrink s s'
  /\ (0 < length (_tokens s) -> length (_tokens s') < length (_tokens s)).

(** No error was recorded from [s] to [s']. *)
Definition quiet (s s' : StateManager) : Prop :=
  length (errors s') = length (errors s).

(** The token list has been read to its end. *)
Definition exhausted (s : StateManager) : Prop := length (_tokens s) = 0.

(** A result whose nodes are all complete, with no slot missing, and whose
    status is [OK]. *)
Definition expr_ok (r : option AST_EXPR) : bool :=
  slot_all_complete (expr_all_complete true) true r.
Definition block_ok (r : status_list) : bool :=
  is_OK (fst r) && block_all_complete true (snd r).
Definition stmt_ok (r : ParseStatus * option AST_CMD) : bool :=
  is_OK (fst r) && slot_all_complete (cmd_all_complete true) true (snd r).
Definition switch_case_ok (c : AST_SWITCH_CASE) : bool :=
  match c with
  | (f, e, b) => f && expr_all_complete true e && block_all_complete true b
  end.
Definition switch_default_ok (d : AST_SWITCH_DEFAULT) : bool :=
  match d with (f, b) => f && block_all_complete true b end.
Definition case_ok (r : ParseStatus * option CaseNode) : bool :=
  match snd r with
  | Some (switch_case c) => switch_case_ok c
  | Some (switch_default d) => switch_default_ok d
  | None => false
  end.
Definition switch_acc_ok
    (r : ParseStatus * list AST_SWITCH_CASE * option AST_SWITCH_DEFAULT) : bool :=
  match r with
  | (st, cases, dflt) =>
      is_OK st && forallb switch_case_ok cases
      && match dflt with Some d => switch_default_ok d | None => true end
  end.

(** The three statements proved of all the statement functions at once, by
    induction on the fuel. *)
Definition stmt_shrink_at (fuel : nat) : Prop :=
  (forall opts s r s', _readElse fuel opts s = Some (r, s') -> shrink s s') /\
  (forall opts st res s r s',
     _readStatementList_loop fuel opts st res s = Some (r, s') -> shrink s s') /\
  (forall opts s r s', _readStatementList fuel opts s = Some (r, s') -> shrink s s') /\
  (forall opts s r s', _readCase fuel opts s = Some (r, s') -> consume s s') /\
  (forall opts st cs d s r s',
     _readSwitch_loop fuel opts st cs d s = Some (r, s') -> shrink s s') /\
  (forall opts s r s', _readSwitch fuel opts s = Some (r, s') -> shrink s s') /\
  (forall opts s r s', _readStmt fuel opts s = Some (r, s') -> consume s s') /\
  (forall opts s r s', _readBlock fuel opts s = Some (r, s') -> shrink s s').

Definition stmt_total_at (fuel : nat) : Prop :=
  (forall opts s, 4 * length (_tokens s) + 1 <= fuel ->
     exists r s', _readElse fuel opts s = Some (r, s')) /\
  (forall opts st res s, 4 * length (_tokens s) + 2 <= fuel ->
     exists r s', _readStatementList_loop fuel opts st res s = Some (r, s')) /\
  (forall opts s, 4 * length (_tokens s) + 3 <= fuel ->
     exists r s', _readStatementList fuel opts s = Some (r, s')) /\
  (forall opts s, 4 * length (_tokens s) + 1 <= fuel ->
     exists r s', _readCase fuel opts s = Some (r, s')) /\
  (forall opts st cs d s, 4 * length (_tokens s) + 2 <= fuel ->
     exists r s', _readSwitch_loop fuel opts st cs d s = Some (r, s')) /\
  (forall opts s, 4 * length (_tokens s) + 3 <= fuel ->
     exists r s', _readSwitch fuel opts s = Some (r, s')) /\
  (forall opts s, 4 * length (_tokens s) + 1 <= fuel ->
     exists r s', _readStmt fuel opts s = Some (r, s')) /\
  (forall opts s, 4 * length (_tokens s) + 1 <= fuel ->
     exists r s', _readBlock fuel opts s = Some (r, s')).

Definition stmt_inv_at (fuel : nat) : Prop :=
  (forall opts s r s', _readElse fuel opts s = Some (r, s') ->
     quiet s s' -> block_ok r = true \/ exhausted s') /\
  (forall opts st res s r s',
     _readStatementList_loop fuel opts st res s = Some (r, s') ->
     quiet s s' -> block_ok (st, res) = true -> block_ok r = true \/ exhausted s') /\
  (forall opts s r s', _readStatementList fuel opts s = Some (r, s') ->
     quiet s s' -> block_ok r = true \/ exhausted s') /\
  (forall opts s r s', _readCase fuel opts s = Some (r, s') ->
     quiet s s' -> case_ok r = true \/ exhausted s') /\
  (forall opts st cs d s r s',
     _readSwitch_loop fuel opts st cs d s = Some (r, s') ->
     quiet s s' -> switch_acc_ok (st, cs, d) = true ->
     switch_acc_ok r = true \/ exhausted s') /\
  (forall opts s r s', _readSwitch fuel opts s = Some (r, s') ->
     quiet s s' -> stmt_ok r = true \/ exhausted s') /\
  (forall opts s r s', _readStmt fuel opts s = Some (r, s') ->
     quiet s s' -> stmt_ok r = true \/ exhausted s') /\
  (forall opts s r s', _readBlock fuel opts s = Some (r, s') ->
     quiet s s' -> block_ok r = true \/ exhausted s').

End Parser.


(** * The interpreter ([src/run/Interpreter.ts]) *)
Module Interp.
Import Syntax.

(** What a JavaScript [throw] (or a property read on [null]/[undefined])
    ends the run with. *)
Inductive Exception : Type :=
| UnexpectedOperationType
| UnknownOperationToken
| UnknownExpressionToken
| TypeError.

Inductive Completion (A : Type) : Type :=
| Return (a : A)
| Throw (e : Exception).
Arguments Return {A} a.
Arguments Throw {A} e.

(** ** Expression evaluation, on its own stack *)

(** An argument slot of a frame: an AST expression still to evaluate (or a
    missing one), or the literal that replaced it. *)
Inductive EXEC_ARG : Type :=
| Literal (tree : BinaryTree)
| Expr (e : option AST_EXPR).

(** A partially evaluated expression in the expression stack.  [ExOther] is
    the copy of a node that is neither an operation nor an identifier (a tree
    literal) and [ExEmpty] the copy [{...null}] of a missing node: the loop
    throws on both. *)
Inductive EXEC_AST_EXPR : Type :=
| ExRoot (args : list EXEC_ARG)
| ExOperation (op : OP_TYPE) (args : list EXEC_ARG)
| ExIdentifier (value : string)
| ExOther
| ExEmpty.

(** [_copyExpr]: the node with a fresh argument list. *)
Definition _copyExpr (expr : option AST_EXPR) : EXEC_AST_EXPR :=
  match expr with
  | Some (AST_OP _ op args) => ExOperation op (map Expr args)
  | Some (AST_IDENT i) => ExIdentifier (ident_value i)
  | Some (AST_TREE _) => ExOther
  | None => ExEmpty
  end.

Definition is_literal (a : EXEC_ARG) : bool :=
  match a with Literal _ => true | Expr _ => false end.

(** Replace the first non-literal argument with a literal value; reading
    [.type] of a missing argument on the way is a [TypeError]. *)
Fixpoint replace_first (val : BinaryTree) (args : list EXEC_ARG)
  : Completion (list EXEC_ARG) :=
  match args with
  | [] => Return []
  | Literal t :: args' =>
      match replace_first val args' with
      | Return args'' => Return (Literal t :: args'')
      | Throw e => Throw e
      end
  | Expr (Some _) :: args' => Return (Literal val :: args')
  | Expr None :: _ => Throw TypeError
  end.

(** The stacks are lists with the top first. *)
Definition _replaceArgWithLiteral (val : BinaryTree) (exprStack : list EXEC_AST_EXPR)
  : Completion (list EXEC_AST_EXPR) :=
  match exprStack with
  | ExRoot args :: rest =>
      match replace_first val args with
      | Return args' => Return (ExRoot args' :: rest)
      | Throw e => Throw e
      end
  | ExOperation op args :: rest =>
      match replace_first val args with
      | Return args' => Return (ExOperation op args' :: rest)
      | Throw e => Throw e
      end
  | _ => Throw TypeError
  end.

(** The first argument that is not a literal yet. *)
Fixpoint first_unevaluated (args : list EXEC_ARG) : option (option AST_EXPR) :=
  match args with
  | [] => None
  | Literal _ :: args' => first_unevaluated args'
  | Expr e :: _ => Some e
  end.

(** [args[i].tree] of an argument list whose members are all literals. *)
Definition literal_at (args : list EXEC_ARG) (i : nat) : Completion BinaryTree :=
  match args !! i with
  | Some (Literal t) => Return t
  | _ => Throw TypeError
  end.

(** The value of an operation whose arguments have all been evaluated. *)
Definition apply_op (op : OP_TYPE) (args : list EXEC_ARG) : Completion BinaryTree :=
  if String.eqb (op_value op) "cons" then
    match literal_at args 0, literal_at args 1 with
    | Return l, Return r => Return (Tree l r)
    | Throw e, _ | _, Throw e => Throw e
    end
  else if String.eqb (op_value op) "hd" then
    match literal_at args 0 with
    | Return (Tree l _) => Return l
    | Return null => Return null
    | Throw e => Throw e
    end
  else if String.eqb (op_value op) "tl" then
    match literal_at args 0 with
    | Return (Tree _ r) => Return r
    | Return null => Return null
    | Throw e => Throw e
    end
  else Throw UnknownOperationToken.

(** [this._store.get(name) || null] *)
Definition store_get (store : gmap string BinaryTree) (name : string) : BinaryTree :=
  default null (store !! name).

(** One round of the [while (exprStack.length > 1)] loop: [curr] has been
    popped, [exprStack] is the rest. *)
Definition expr_round (store : gmap string BinaryTree) (curr : EXEC_AST_EXPR)
    (exprStack : list EXEC_AST_EXPR) : Completion (list EXEC_AST_EXPR) :=
  match curr with
  | ExOperation op args =>
      match first_unevaluated args with
      | Some None => Throw TypeError
      | Some (Some arg) => Return (_copyExpr (Some arg) :: curr :: exprStack)
      | None =>
          match apply_op op args with
          | Return val => _replaceArgWithLiteral val exprStack
          | Throw e => Throw e
          end
      end
  | ExIdentifier value =>
      if String.eqb value "nil" then _replaceArgWithLiteral null exprStack
      else _replaceArgWithLiteral (store_get store value) exprStack
  | ExEmpty => Throw TypeError
  | ExRoot _ | ExOther => Throw UnknownExpressionToken
  end.

(** The loop, and the read of the root's argument that follows it; the root
    is the only frame left then, and its argument is a literal
    ([expr_loop_denote]). *)
Fixpoint expr_loop (fuel : nat) (store : gmap string BinaryTree)
    (exprStack : list EXEC_AST_EXPR) : option (Completion BinaryTree) :=
  match fuel with
  | O => None
  | S fuel =>
      match exprStack with
      | curr :: (_ :: _) as rest =>
          match expr_round store curr rest with
          | Return exprStack' => expr_loop fuel store exprStack'
          | Throw e => Some (Throw e)
          end
      | [ExRoot args] => Some (literal_at args 0)
      | _ => Some (Throw TypeError)
      end
  end.

(** The rounds the evaluation of an expression takes: an operation is popped
    once per argument and once more to be computed. *)
Fixpoint expr_rounds (e : AST_EXPR) : nat :=
  match e with
  | AST_IDENT _ | AST_TREE _ => 1
  | AST_OP _ _ args =>
      S (list_sum (map (fun a => match a with
                                 | Some a' => S (expr_rounds a')
                                 | None => 2
                                 end) args))
  end.

Definition slot_rounds (e : option AST_EXPR) : nat :=
  match e with Some e' => expr_rounds e' | None => 1 end.

(** Evaluate an expression.  The fuel is enough for every expression (see
    [_evalExpr_total]). *)
Definition _evalExpr (store : gmap string BinaryTree) (expr : option AST_EXPR)
  : option (Completion BinaryTree) :=
  expr_loop (S (slot_rounds expr)) store [_copyExpr expr; ExRoot [Expr expr]].

(** ** Commands *)
Record Interpreter : Type := mkInterpreter {
  _program : AST_PROG;
  _input : BinaryTree;
  _store : gmap string BinaryTree
}.

(** The constructor: the store holds the input binding and nothing else. *)
Definition new_Interpreter (ast : AST_PROG) (input : BinaryTree)
  : Completion Interpreter :=
  match prog_input ast with
  | Some i =>
      Return {| _program := ast; _input := input;
                _store := <[ident_value i := input]> ∅ |}
  | None => Throw TypeError
  end.

(** A member of the command stack: a node of the AST (possibly a missing
    one), or a block made by the interpreter. *)
Inductive EXEC_AST_CMD : Type :=
| ExCmd (c : option AST_CMD)
| ExBlock (body : list (option AST_CMD)).

Definition is_null (t : BinaryTree) : bool :=
  match t with null => true | Tree _ _ => false end.

(** One round of the [while (commandStack.length > 0)] loop: [op] has been
    popped.  [None] when the evaluation of an expression runs out of fuel,
    which does not happen ([_evalExpr_total]). *)
Definition cmd_round (store : gmap string BinaryTree) (op : EXEC_AST_CMD)
    (commandStack : list EXEC_AST_CMD)
  : option (Completion (gmap string BinaryTree * list EXEC_AST_CMD)) :=
  match op with
  | ExCmd (Some (AST_ASGN _ ident arg)) =>
      match _evalExpr store arg with
      | None => None
      | Some (Throw e) => Some (Throw e)
      | Some (Return val) =>
          Some (Return (<[ident_value ident := val]> store, commandStack))
      end
  | ExCmd (Some (AST_IF _ condition if_ else_)) =>
      match _evalExpr store condition with
      | None => None
      | Some (Throw e) => Some (Throw e)
      | Some (Return c) =>
          if negb (is_null c)
          then Some (Return (store, ExBlock if_ :: commandStack))
          else Some (Return (store, ExBlock else_ :: commandStack))
      end
  | ExCmd (Some (AST_WHILE _ condition body)) =>
      match _evalExpr store condition with
      | None => None
      | Some (Throw e) => Some (Throw e)
      | Some (Return c) =>
          if negb (is_null c)
          then Some (Return (store, ExBlock body :: op :: commandStack))
          else Some (Return (store, commandStack))
      end
  | ExBlock body =>
      match body with
      | [] => Some (Return (store, commandStack))
      | first :: [] => Some (Return (store, ExCmd first :: commandStack))
      | first :: rest =>
          Some (Return (store, ExCmd first :: ExBlock rest :: commandStack))
      end
  | ExCmd (Some (AST_SWITCH _ _ _ _)) => Some (Throw UnexpectedOperationType)
  | ExCmd None => Some (Throw TypeError)
  end.

Fixpoint cmd_loop (fuel : nat) (store : gmap string BinaryTree)
    (commandStack : list EXEC_AST_CMD)
  : option (Completion unit * gmap string BinaryTree) :=
  match fuel with
  | O => None
  | S fuel =>
      match commandStack with
      | [] => Some (Return (), store)
      | op :: rest =>
          match cmd_round store op rest with
          | None => None
          | Some (Throw e) => Some (Throw e, store)
          | Some (Return (store', commandStack')) =>
              cmd_loop fuel store' commandStack'
          end
      end
  end.

Definition with_store (i : Interpreter) (store : gmap string BinaryTree)
  : Interpreter :=
  {| _program := _program i; _input := _input i; _store := store |}.

(** Run the program from start to end: the command stack starts as the one
    block of the program body, the store is the interpreter's field as it
    stands.  Returns the outcome and the interpreter after the run; [None]
    when [fuel] rounds were not enough (a WHILE program may loop for ever). *)
Definition run (fuel : nat) (i : Interpreter)
  : option (Completion BinaryTree * Interpreter) :=
  match cmd_loop fuel (_store i) [ExBlock (prog_body (_program i))] with
  | None => None
  | Some (Throw e, store) => Some (Throw e, with_store i store)
  | Some (Return _, store) =>
      match prog_output (_program i) with
      | Some out => Some (Return (store_get store (ident_value out)), with_store i store)
      | None => Some (Throw TypeError, with_store i store)
      end
  end.

(** ** The value of an expression, by recursion on it.  This is what the
    stack machine computes ([_evalExpr_value]); the machine's order is kept:
    the arguments from left to right, then the operation. *)
Fixpoint expr_value (store : gmap string BinaryTree) (e : AST_EXPR)
  : Completion BinaryTree :=
  match e with
  | AST_IDENT i =>
      if String.eqb (ident_value i) "nil" then Return null
      else Return (store_get store (ident_value i))
  | AST_TREE _ => Throw UnknownExpressionToken
  | AST_OP _ op args =>
      let fix args_value (args : list (option AST_EXPR))
        : Completion (list BinaryTree) :=
        match args with
        | [] => Return []
        | None :: _ => Throw TypeError
        | Some a :: args' =>
            match expr_value store a with
            | Throw x => Throw x
            | Return v =>
                match args_value args' with
                | Throw x => Throw x
                | Return vs => Return (v :: vs)
                end
            end
        end in
      match args_value args with
      | Throw x => Throw x
      | Return vs => apply_op op (map Literal vs)
      end
  end.

Fixpoint args_value (store : gmap string BinaryTree)
    (args : list (option AST_EXPR)) : Completion (list BinaryTree) :=
  match args with
  | [] => Return []
  | None :: _ => Throw TypeError
  | Some a :: args' =>
      match expr_value store a with
      | Throw x => Throw x
      | Return v =>
          match args_value store args' with
          | Throw x => Throw x
          | Return vs => Return (v :: vs)
          end
      end
  end.

Definition slot_value (store : gmap string BinaryTree) (e : option AST_EXPR)
  : Completion BinaryTree :=
  match e with
  | Some e' => expr_value store e'
  | None => Throw TypeError
  end.

(** The rounds one argument costs its operation. *)
Definition arg_cost (a : option AST_EXPR) : nat :=
  match a with Some a' => S (expr_rounds a') | None => 2 end.

(** What the machine does with the value of the frame on top: it goes into
    the first free slot of the parent, and the loop goes on. *)
Definition deliver (store : gmap string BinaryTree) (n : nat)
    (r : Completion BinaryTree) (stack : list EXEC_AST_EXPR)
  : option (Completion BinaryTree) :=
  match r with
  | Throw x => Some (Throw x)
  | Return v =>
      match _replaceArgWithLiteral v stack with
      | Return stack' => expr_loop n store stack'
      | Throw x => Some (Throw x)
      end
  end.

Definition evaluates (store : gmap string BinaryTree) (e : AST_EXPR) : Prop :=
  forall n par below,
    expr_loop (expr_rounds e + n) store (_copyExpr (Some e) :: par :: below)
    = deliver store n (expr_value store e) (par :: below).

(** The expressions [hd e], [tl e] and [cons a b] as the parser builds
    them. *)
Definition hd_of (c : bool) (p : Position) (e : AST_EXPR) : AST_EXPR :=
  AST_OP c {| op_value := "hd"; op_pos := p |} [Some e].
Definition tl_of (c : bool) (p : Position) (e : AST_EXPR) : AST_EXPR :=
  AST_OP c {| op_value := "tl"; op_pos := p |} [Some e].
Definition cons_of (c : bool) (p : Position) (a b : AST_EXPR) : AST_EXPR :=
  AST_OP c {| op_value := "cons"; op_pos := p |} [Some a; Some b].

(** ** The identifiers a command assigns *)
Fixpoint cmd_assigns (x : string) (c : AST_CMD) : bool :=
  let block := existsb (fun o => match o with
                                 | Some c' => cmd_assigns x c'
                                 | None => false
                                 end) in
  match c with
  | AST_ASGN _ i _ => String.eqb (ident_value i) x
  | AST_IF _ _ i e => block i || block e
  | AST_WHILE _ _ b => block b
  | AST_SWITCH _ _ cases d =>
      existsb (fun cs => match cs with (_, _, b) => block b end) cases
      || block (snd d)
  end.

Definition slot_assigns (x : string) (o : option AST_CMD) : bool :=
  match o with Some c => cmd_assigns x c | None => false end.

Definition block_assigns (x : string) (b : list (option AST_CMD)) : bool :=
  existsb (slot_assigns x) b.

Definition frame_assigns (x : string) (f : EXEC_AST_CMD) : bool :=
  match f with
  | ExCmd o => slot_assigns x o
  | ExBlock b => block_assigns x b
  end.

End Interp.

(** * The expression evaluator over shared argument arrays *)
Module Shared.
Import Syntax Interp.

(** A node as the evaluator sees it.  The fields of a node are never
    assigned once the node is built, but the argument array of an operation
    is a JavaScript array, shared by reference: [args] is its index in the
    store of arrays. *)
Inductive NODE : Type :=
| NIdentifier (value : string) (pos : Position)
| NTree (tree : BinaryTree)
| NOperation (complete : bool) (op : OP_TYPE) (args : nat)
| NLiteral (tree : BinaryTree)
| NRoot (args : nat)
| NEmpty.

(** The argument arrays; a member is a node or [null]. *)
Abbreviation Arrays := (list (list (option NODE))).

(** [_copyExpr]: [{...expr}], and for a root or an operation a new array
    [[...copy.args]] with the same members. *)
Definition _copyExpr (h : Arrays) (expr : option NODE) : Completion (NODE * Arrays) :=
  match expr with
  | None => Return (NEmpty, h)
  | Some (NOperation c op a) =>
      match h !! a with
      | Some slots => Return (NOperation c op (length h), h ++ [slots])
      | None => Throw TypeError
      end
  | Some (NRoot a) =>
      match h !! a with
      | Some slots => Return (NRoot (length h), h ++ [slots])
      | None => Throw TypeError
      end
  | Some n => Return (n, h)
  end.

Fixpoint replace_first (val : BinaryTree) (slots : list (option NODE))
  : Completion (list (option NODE)) :=
  match slots with
  | [] => Return []
  | Some (NLiteral t) :: slots' =>
      match replace_first val slots' with
      | Return slots'' => Return (Some (NLiteral t) :: slots'')
      | Throw e => Throw e
      end
  | Some _ :: slots' => Return (Some (NLiteral val) :: slots')
  | None :: _ => Throw TypeError
  end.

(** [par.args[i] = {type: 'literal', tree: val}] writes into the array the
    parent frame refers to. *)
Definition _replaceArgWithLiteral (val : BinaryTree) (h : Arrays)
    (exprStack : list NODE) : Completion (Arrays * list NODE) :=
  match exprStack with
  | (NOperation _ _ a | NRoot a) as par :: rest =>
      match h !! a with
      | Some slots =>
          match replace_first val slots with
          | Return slots' => Return (<[a := slots']> h, par :: rest)
          | Throw e => Throw e
          end
      | None => Throw TypeError
      end
  | _ => Throw TypeError
  end.

Fixpoint first_unevaluated (slots : list (option NODE)) : option (option NODE) :=
  match slots with
  | [] => None
  | Some (NLiteral _) :: slots' => first_unevaluated slots'
  | o :: _ => Some o
  end.

Definition literal_at (slots : list (option NODE)) (i : nat) : Completion BinaryTree :=
  match slots !! i with
  | Some (Some (NLiteral t)) => Return t
  | _ => Throw TypeError
  end.

Definition apply_op (op : OP_TYPE) (slots : list (option NODE))
  : Completion BinaryTree :=
  if String.eqb (op_value op) "cons" then
    match literal_at slots 0, literal_at slots 1 with
    | Return l, Return r => Return (Tree l r)
    | Throw e, _ | _, Throw e => Throw e
    end
  else if String.eqb (op_value op) "hd" then
    match literal_at slots 0 with
    | Return (Tree l _) => Return l
    | Return null => Return null
    | Throw e => Throw e
    end
  else if String.eqb (op_value op) "tl" then
    match literal_at slots 0 with
    | Return (Tree _ r) => Return r
    | Return null => Return null
    | Throw e => Throw e
    end
  else Throw UnknownOperationToken.

Definition expr_round (store : gmap string BinaryTree) (h : Arrays)
    (curr : NODE) (exprStack : list NODE) : Completion (Arrays * list NODE) :=
  match curr with
  | NOperation _ op a =>
      match h !! a with
      | None => Throw TypeError
      | Some slots =>
          match first_unevaluated slots with
          | Some None => Throw TypeError
          | Some (Some arg) =>
              match _copyExpr h (Some arg) with
              | Return (copy, h') => Return (h', copy :: curr :: exprStack)
              | Throw e => Throw e
              end
          | None =>
              match apply_op op slots with
              | Return val => _replaceArgWithLiteral val h exprStack
              | Throw e => Throw e
              end
          end
      end
  | NIdentifier value _ =>
      if String.eqb value "nil" then _replaceArgWithLiteral null h exprStack
      else _replaceArgWithLiteral (store_get store value) h exprStack
  | NEmpty => Throw TypeError
  | NTree _ | NLiteral _ | NRoot _ => Throw UnknownExpressionToken
  end.

(** The loop; the arrays as they are when it stops come with the result. *)
Fixpoint expr_loop (fuel : nat) (store : gmap string BinaryTree) (h : Arrays)
    (exprStack : list NODE) : option (Completion BinaryTree) * Arrays :=
  match fuel with
  | O => (None, h)
  | S fuel =>
      match exprStack with
      | curr :: (_ :: _) as rest =>
          match expr_round store h curr rest with
          | Return (h', exprStack') => expr_loop fuel store h' exprStack'
          | Throw e => (Some (Throw e), h)
          end
      | [NRoot a] =>
          (Some (match h !! a with
                 | Some slots => literal_at slots 0
                 | None => Throw TypeError
                 end), h)
      | _ => (Some (Throw TypeError), h)
      end
  end.

Definition _evalExpr (fuel : nat) (store : gmap string BinaryTree) (h : Arrays)
    (expr : option NODE) : option (Completion BinaryTree) * Arrays :=
  let root := NRoot (length h) in
  let h := h ++ [[expr]] in
  match _copyExpr h expr with
  | Return (copy, h') => expr_loop fuel store h' [copy; root]
  | Throw e => (Some (Throw e), h)
  end.

(** The frames the evaluator made: their arrays are not among the first
    [base] ones. *)
Definition own_array (base : nat) (n : NODE) : Prop :=
  match n with
  | NOperation _ _ a | NRoot a => base <= a
  | _ => True
  end.

Definition kept (base : nat) (h0 h : Arrays) : Prop :=
  base <= length h /\ forall a, a < base -> h !! a = h0 !! a.

(** ** The arrays of an AST *)

(** The node [n] stands for the expression [e] in the arrays [h]: the
    argument arrays of [e] are among the first [base] arrays. *)
Fixpoint repr (h : list (list (option NODE))) (base : nat) (e : AST_EXPR)
    (n : NODE) {struct e} : Prop :=
  match e with
  | AST_IDENT i => n = NIdentifier (ident_value i) (ident_pos i)
  | AST_TREE t => n = NTree t
  | AST_OP c op args =>
      exists a slots,
        n = NOperation c op a /\ a < base /\ h !! a = Some slots
        /\ (fix all2 (args : list (option AST_EXPR)) (slots : list (option NODE))
              {struct args} : Prop :=
              match args, slots with
              | [], [] => True
              | None :: args', None :: slots' => all2 args' slots'
              | Some e' :: args', Some n' :: slots' =>
                  repr h base e' n' /\ all2 args' slots'
              | _, _ => False
              end) args slots
  end.

Fixpoint slots_repr (h : list (list (option NODE))) (base : nat)
    (args : list (option AST_EXPR)) (slots : list (option NODE)) : Prop :=
  match args, slots with
  | [], [] => True
  | None :: args', None :: slots' => slots_repr h base args' slots'
  | Some e' :: args', Some n' :: slots' =>
      repr h base e' n' /\ slots_repr h base args' slots'
  | _, _ => False
  end.

(** The image of an expression in the arrays: one new array for each
    argument list. *)
Fixpoint alloc_expr (e : AST_EXPR) (h : list (list (option NODE)))
  : NODE * list (list (option NODE)) :=
  match e with
  | AST_IDENT i => (NIdentifier (ident_value i) (ident_pos i), h)
  | AST_TREE t => (NTree t, h)
  | AST_OP c op args =>
      let '(slots, h1) :=
        (fix alloc_args (args : list (option AST_EXPR)) (h : list (list (option NODE)))
           : list (option NODE) * list (list (option NODE)) :=
           match args with
           | [] => ([], h)
           | None :: args' =>
               let '(s, h') := alloc_args args' h in (None :: s, h')
           | Some e' :: args' =>
               let '(n, h1) := alloc_expr e' h in
               let '(s, h2) := alloc_args args' h1 in (Some n :: s, h2)
           end) args h in
      (NOperation c op (length h1), h1 ++ [slots])
  end.

Fixpoint alloc_args (args : list (option AST_EXPR)) (h : list (list (option NODE)))
  : list (option NODE) * list (list (option NODE)) :=
  match args with
  | [] => ([], h)
  | None :: args' => let '(s, h') := alloc_args args' h in (None :: s, h')
  | Some e' :: args' =>
      let '(n, h1) := alloc_expr e' h in
      let '(s, h2) := alloc_args args' h1 in (Some n :: s, h2)
  end.

(** What the frame on top does with its value, the arrays being [h]. *)
Definition deliver_shared (store : gmap string BinaryTree) (n : nat)
    (r : Completion BinaryTree) (h : list (list (option NODE)))
    (stack : list NODE) : option (Completion BinaryTree) * list (list (option NODE)) :=
  match r with
  | Throw x => (Some (Throw x), h)
  | Return v =>
      match _replaceArgWithLiteral v h stack with
      | Return (h', stack') => expr_loop n store h' stack'
      | Throw x => (Some (Throw x), h)
      end
  end.

Definition literals (lits : list BinaryTree) : list (option NODE) :=
  map (fun t => Some (NLiteral t)) lits.

(** The machine evaluates [e] from any stack, and leaves the arrays made
    before the copy as they were. *)
Definition evaluates_shared (store : gmap string BinaryTree) (e : AST_EXPR) : Prop :=
  forall base h n copy h' k par below,
    repr h base e n -> base <= length h ->
    _copyExpr h (Some n) = Return (copy, h') ->
    exists h1, kept (length h) h h1
      /\ expr_loop (expr_rounds e + k) store h' (copy :: par :: below)
         = deliver_shared store k (expr_value store e) h1 (par :: below).

End Shared.

(** * Programs as data: the display *)
Module Pad.
Import Syntax.

(** Modelled from the spec: the programs-as-data value ([ProgDataType] of
    [tools/progAsData], which is not among the sources; only its tests are).
    A program is [[input_index, body, output_index]]; a command is
    [[':=', idx, expr]], [['if', cond, then, else]] or
    [['while', cond, body]]; an expression is [['var', idx]],
    [['quote', 'nil']], [['hd', e]], [['tl', e]] or [['cons', l, r]]. *)
Inductive PAD_EXPR : Type :=
| PadVar (index : nat)
| PadQuoteNil
| PadHd (e : PAD_EXPR)
| PadTl (e : PAD_EXPR)
| PadCons (l r : PAD_EXPR).

Inductive PAD_CMD : Type :=
| PadAssign (index : nat) (e : PAD_EXPR)
| PadIf (cond : PAD_EXPR) (then_ else_ : list PAD_CMD)
| PadWhile (cond : PAD_EXPR) (body : list PAD_CMD).

Definition ProgDataType : Type := nat * list PAD_CMD * nat.

(** Modelled from the spec: the display format, a configuration value with
    the field [token_prefix]; [HWHILE] prefixes the symbolic tokens with
    [@], [PURE] with nothing. *)
Record PadDisplayFormat : Type := mkFormat { token_prefix : string }.

Definition HWHILE_DISPLAY_FORMAT : PadDisplayFormat := {| token_prefix := "@" |}.
Definition PURE_DISPLAY_FORMAT : PadDisplayFormat := {| token_prefix := "" |}.

(** Modelled from the spec: [displayPad] of [tools/progAsData], which is not
    among the sources.  Bracketed, comma-separated tokens; the lists in block
    positions (the body of a program, of a [while], the branches of an [if])
    take one line per member, indented by 4 spaces per nesting level; the
    lists in expression positions are inline; numbers and [nil] carry no
    prefix.  The spec does not say how an empty block is shown: it is [[]]
    here. *)
Section Display.
Variable format : PadDisplayFormat.

Definition token (name : string) : string := token_prefix format +:+ name.

Fixpoint display_expr (e : PAD_EXPR) : string :=
  match e with
  | PadVar i => "[" +:+ token "var" +:+ ", " +:+ nat_toString i +:+ "]"
  | PadQuoteNil => "[" +:+ token "quote" +:+ ", nil]"
  | PadHd a => "[" +:+ token "hd" +:+ ", " +:+ display_expr a +:+ "]"
  | PadTl a => "[" +:+ token "tl" +:+ ", " +:+ display_expr a +:+ "]"
  | PadCons l r =>
      "[" +:+ token "cons" +:+ ", " +:+ display_expr l +:+ ", "
      +:+ display_expr r +:+ "]"
  end.

Fixpoint indent (depth : nat) : string :=
  match depth with
  | O => ""
  | S d => "    " +:+ indent d
  end.

Definition display_lines (depth : nat) (lines : list string) : string :=
  match lines with
  | [] => "[]"
  | _ =>
      "[" +:+ newline
      +:+ String.concat ("," +:+ newline)
            (map (fun l => indent (S depth) +:+ l) lines)
      +:+ newline +:+ indent depth +:+ "]"
  end.

Fixpoint display_cmd (depth : nat) (c : PAD_CMD) : string :=
  match c with
  | PadAssign i e =>
      "[" +:+ token ":=" +:+ ", " +:+ nat_toString i +:+ ", "
      +:+ display_expr e +:+ "]"
  | PadIf cond t e =>
      "[" +:+ token "if" +:+ ", " +:+ display_expr cond +:+ ", "
      +:+ display_lines depth (map (display_cmd (S depth)) t) +:+ ", "
      +:+ display_lines depth (map (display_cmd (S depth)) e) +:+ "]"
  | PadWhile cond b =>
      "[" +:+ token "while" +:+ ", " +:+ display_expr cond +:+ ", "
      +:+ display_lines depth (map (display_cmd (S depth)) b) +:+ "]"
  end.

Definition displayPad (data : ProgDataType) : string :=
  match data with
  | (input, body, output) =>
      "[" +:+ nat_toString input +:+ ", "
      +:+ display_lines 0 (map (display_cmd 1) body) +:+ ", "
      +:+ nat_toString output +:+ "]" +:+ newline
  end.
End Display.

(** The text made of the given lines, each ended by a newline. *)
Definition lines (l : list string) : string :=
  String.concat "" (map (fun s => s +:+ newline) l).

End Pad.

(** * Token lists for the examples.  The lexer is not among the sources: a
    token list is written as the data of its tokens, which are given the
    positions they have on one line, one space apart. *)
Module Fixtures.
Import Syntax.

Fixpoint lex_from (c : nat) (l : list TokenData) : list WHILE_TOKEN_EXTD :=
  match l with
  | [] => []
  | d :: l' =>
      let t := {| data := d; pos := {| row := 0; col := c |} |} in
      t :: lex_from (c + String.length (value_toString (value t)) + 1) l'
  end.

Definition id := TkIdentifier.
Definition kw := TkExpression.
Definition sym := TkSymbol.
Definition op := TkOperation.

(** [add read XY { X := hd XY; Y := tl XY;
     while X { Y := cons nil Y; X := tl X } } write Y] *)
Definition add_program : list WHILE_TOKEN_EXTD :=
  lex_from 0
    [id "add"; kw "read"; id "XY"; sym "{";
     id "X"; sym ":="; op "hd"; id "XY"; sym ";";
     id "Y"; sym ":="; op "tl"; id "XY"; sym ";";
     kw "while"; id "X"; sym "{";
     id "Y"; sym ":="; op "cons"; id "nil"; id "Y"; sym ";";
     id "X"; sym ":="; op "tl"; id "X"; sym "}"; sym "}";
     kw "write"; id "Y"].

(** [ident read X { } write X] *)
Definition identity_program : list WHILE_TOKEN_EXTD :=
  lex_from 0 [id "ident"; kw "read"; id "X"; sym "{"; sym "}"; kw "write"; id "X"].

(** [prog read X { } write X foo]: a token after the output variable. *)
Definition stray_token_program : list WHILE_TOKEN_EXTD :=
  lex_from 0 [id "prog"; kw "read"; id "X"; sym "{"; sym "}"; kw "write"; id "X";
              id "foo"].

(** [prog read X { Y := X; } write Y]: a separator before the closing
    brace. *)
Definition trailing_separator_program : list WHILE_TOKEN_EXTD :=
  lex_from 0 [id "prog"; kw "read"; id "X"; sym "{";
              id "Y"; sym ":="; id "X"; sym ";"; sym "}"; kw "write"; id "Y"].

(** [Y := X; } write Y]: what is left of it when the block has been
    opened. *)
Definition trailing_separator_block : list WHILE_TOKEN_EXTD :=
  lex_from 14 [id "Y"; sym ":="; id "X"; sym ";"; sym "}"; kw "write"; id "Y"].



Definition here : Position := {| row := 0; col := 0 |}.
Definition var (x : string) : AST_EXPR :=
  AST_IDENT {| ident_value := x; ident_pos := here |}.
Definition name (x : string) : IDENT_TYPE :=
  {| ident_value := x; ident_pos := here |}.

(** [p read X { Y := cons nil Y } write Y] as an AST. *)
Definition grow_program : AST_PROG :=
  {| prog_complete := true; prog_name := Some (name "p");
     prog_input := Some (name "X"); prog_output := Some (name "Y");
     prog_body :=
       [Some (AST_ASGN true (name "Y")
                (Some (AST_OP true {| op_value := "cons"; op_pos := here |}
                         [Some (var "nil"); Some (var "Y")])))] |}.

(** [p read X { Y := Z } write Y] as an AST. *)
Definition copy_unset_program : AST_PROG :=
  {| prog_complete := true; prog_name := Some (name "p");
     prog_input := Some (name "X"); prog_output := Some (name "Y");
     prog_body := [Some (AST_ASGN true (name "Y") (Some (var "Z")))] |}.

End Fixtures.

(** * Shapes of AST nodes, for the statements about the parser and the
    interpreter *)
Module Wellformed.
Import Syntax Parser Interp.

(** An operation node has one argument slot when its operator is [hd] or
    [tl], and two otherwise; so have the operations below it. *)
Fixpoint expr_arity_ok (e : AST_EXPR) : bool :=
  match e with
  | AST_IDENT _ | AST_TREE _ => true
  | AST_OP _ op args =>
      (if String.eqb (op_value op) TKN_HD || String.eqb (op_value op) TKN_TL
       then Nat.eqb (length args) 1 else Nat.eqb (length args) 2)
      && forallb (fun a => match a with
                           | None => true
                           | Some a' => expr_arity_ok a'
                           end) args
  end.

(** The [complete] flag a command node carries. *)
Definition cmd_flag (c : AST_CMD) : bool :=
  match c with
  | AST_ASGN f _ _ | AST_IF f _ _ _ | AST_WHILE f _ _ | AST_SWITCH f _ _ _ => f
  end.

(** A statement slot holds a node whose [complete] flag is set. *)
Definition stmt_flagged (o : option AST_CMD) : bool :=
  match o with Some c => cmd_flag c | None => false end.

(** No tree literal in the expression. *)
Fixpoint expr_pure (e : AST_EXPR) : bool :=
  match e with
  | AST_IDENT _ => true
  | AST_TREE _ => false
  | AST_OP _ _ args =>
      forallb (fun a => match a with
                        | None => true
                        | Some a' => expr_pure a'
                        end) args
  end.

Definition slot_pure {A} (f : A -> bool) (o : option A) : bool :=
  match o with Some a => f a | None => true end.

(** No [switch] and no tree literal in the command. *)
Fixpoint cmd_pure (c : AST_CMD) : bool :=
  let block := forallb (fun o => match o with
                                 | None => true
                                 | Some c' => cmd_pure c'
                                 end) in
  match c with
  | AST_ASGN _ _ arg => slot_pure expr_pure arg
  | AST_IF _ cond i e => slot_pure expr_pure cond && block i && block e
  | AST_WHILE _ cond b => slot_pure expr_pure cond && block b
  | AST_SWITCH _ _ _ _ => false
  end.

Definition block_pure (b : list (option AST_CMD)) : bool :=
  forallb (fun o => match o with
                    | None => true
                    | Some c' => cmd_pure c'
                    end) b.

(** With [pureOnly], the statement functions return pure nodes only; proved
    of all of them at once, by induction on the fuel. *)
Definition stmt_pure_at (fuel : nat) : Prop :=
  (forall opts s r s', pureOnly opts = true ->
     _readElse fuel opts s = Some (r, s') -> block_pure (snd r) = true) /\
  (forall opts st res s r s', pureOnly opts = true ->
     _readStatementList_loop fuel opts st res s = Some (r, s') ->
     block_pure res = true -> block_pure (snd r) = true) /\
  (forall opts s r s', pureOnly opts = true ->
     _readStatementList fuel opts s = Some (r, s') -> block_pure (snd r) = true) /\
  (forall opts s r s', pureOnly opts = true ->
     _readStmt fuel opts s = Some (r, s') -> slot_pure cmd_pure (snd r) = true) /\
  (forall opts s r s', pureOnly opts = true ->
     _readBlock fuel opts s = Some (r, s') -> block_pure (snd r) = true).

(** From [s] to [s'], the tokens [taken] were removed from the front of the
    queue; none of them is an opening brace. *)
Definition took (taken : list WHILE_TOKEN_EXTD) (s s' : StateManager) : Prop :=
  _tokens s = taken ++ _tokens s'
  /\ forallb (fun t => negb (value_is t TKN_BLOCK_OPN)) taken = true.

(** With [pureOnly], the statement functions return [EOI] on an empty queue
    only; proved of all of them at once, by induction on the fuel. *)
Definition stmt_EOI_at (fuel : nat) : Prop :=
  (forall opts s r s', pureOnly opts = true ->
     _readElse fuel opts s = Some (r, s') -> fst r = EOI -> _tokens s' = []) /\
  (forall opts st res s r s', pureOnly opts = true -> st <> EOI ->
     _readStatementList_loop fuel opts st res s = Some (r, s') ->
     fst r = EOI -> _tokens s' = []) /\
  (forall opts s r s', pureOnly opts = true ->
     _readStatementList fuel opts s = Some (r, s') -> fst r = EOI ->
     _tokens s' = []) /\
  (forall opts s r s', pureOnly opts = true ->
     _readStmt fuel opts s = Some (r, s') -> fst r = EOI -> _tokens s' = []) /\
  (forall opts s r s', pureOnly opts = true ->
     _readBlock fuel opts s = Some (r, s') -> fst r = EOI -> _tokens s' = []).

(** [s] starts with [p]. *)
Fixpoint starts_with (p s : string) : bool :=
  match p, s with
  | EmptyString, _ => true
  | String a p', String b s' => Ascii.eqb a b && starts_with p' s'
  | String _ _, EmptyString => false
  end.

(** The messages of the parser all start the same way. *)
Definition unexpected_msg (e : ErrorType) : bool :=
  starts_with "Unexpected " (message e).

(** From [s] to [s'] the error list was only appended to, with such
    messages. *)
Definition appends (s s' : StateManager) : Prop :=
  exists new, errors s' = errors s ++ new /\ forallb unexpected_msg new = true.

Definition stmt_appends_at (fuel : nat) : Prop :=
  (forall opts s1 r s2, _readElse fuel opts s1 = Some (r, s2) ->
     forall s, appends s s1 -> appends s s2) /\
  (forall opts st res s1 r s2,
     _readStatementList_loop fuel opts st res s1 = Some (r, s2) ->
     forall s, appends s s1 -> appends s s2) /\
  (forall opts s1 r s2, _readStatementList fuel opts s1 = Some (r, s2) ->
     forall s, appends s s1 -> appends s s2) /\
  (forall opts s1 r s2, _readCase fuel opts s1 = Some (r, s2) ->
     forall s, appends s s1 -> appends s s2) /\
  (forall opts st cs d s1 r s2,
     _readSwitch_loop fuel opts st cs d s1 = Some (r, s2) ->
     forall s, appends s s1 -> appends s s2) /\
  (forall opts s1 r s2, _readSwitch fuel opts s1 = Some (r, s2) ->
     forall s, appends s s1 -> appends s s2) /\
  (forall opts s1 r s2, _readStmt fuel opts s1 = Some (r, s2) ->
     forall s, appends s s1 -> appends s s2) /\
  (forall opts s1 r s2, _readBlock fuel opts s1 = Some (r, s2) ->
     forall s, appends s s1 -> appends s s2).

(** The expressions the evaluator returns a tree for: identifiers, [hd] and
    [tl] with at least one argument, [cons] with at least two, all the
    arguments being such expressions themselves. *)
Fixpoint expr_evaluable (e : AST_EXPR) : bool :=
  match e with
  | AST_IDENT _ => true
  | AST_TREE _ => false
  | AST_OP _ op args =>
      forallb (fun a => match a with
                        | Some a' => expr_evaluable a'
                        | None => false
                        end) args
      && (if String.eqb (op_value op) "cons" then Nat.leb 2 (length args)
          else if String.eqb (op_value op) "hd" || String.eqb (op_value op) "tl"
               then Nat.leb 1 (length args)
               else false)
  end.

(** The commands the interpreter has a case for, with their expressions in
    place and evaluable; no [switch], no missing statement. *)
Fixpoint cmd_runnable (c : AST_CMD) : bool :=
  let block := forallb (fun o => match o with
                                 | Some c' => cmd_runnable c'
                                 | None => false
                                 end) in
  let expr o := match o with Some e => expr_evaluable e | None => false end in
  match c with
  | AST_ASGN _ _ arg => expr arg
  | AST_IF _ cond i e => expr cond && block i && block e
  | AST_WHILE _ cond b => expr cond && block b
  | AST_SWITCH _ _ _ _ => false
  end.

Definition block_runnable (b : list (option AST_CMD)) : bool :=
  forallb (fun o => match o with
                    | Some c' => cmd_runnable c'
                    | None => false
                    end) b.

Definition frame_runnable (f : EXEC_AST_CMD) : bool :=
  match f with
  | ExCmd (Some c) => cmd_runnable c
  | ExCmd None => false
  | ExBlock b => block_runnable b
  end.

Definition prog_runnable (p : AST_PROG) : bool :=
  present (prog_input p) && present (prog_output p)
  && block_runnable (prog_body p).

(** What the parser has tested of a node when it marks the node complete:
    every node below it is complete and no slot is missing, except that the
    condition of a loop need only be there ([_readStmt] does not look at its
    [complete] flag) and that nothing is known of what a [switch] holds
    ([_readSwitch] does not look at its condition and drops the status of
    its cases). *)
Fixpoint cmd_complete_outside (c : AST_CMD) : bool :=
  let block := forallb (fun o => match o with
                                 | None => false
                                 | Some c' => cmd_complete_outside c'
                                 end) in
  match c with
  | AST_ASGN f _ arg => f && slot_all_complete (expr_all_complete true) true arg
  | AST_IF f cond i e =>
      f && slot_all_complete (expr_all_complete true) true cond
        && block i && block e
  | AST_WHILE f cond b => f && present cond && block b
  | AST_SWITCH f _ _ _ => f
  end.

Definition block_complete_outside (b : list (option AST_CMD)) : bool :=
  forallb (fun o => match o with
                    | None => false
                    | Some c' => cmd_complete_outside c'
                    end) b.

Definition prog_complete_outside (p : AST_PROG) : bool :=
  prog_complete p
  && (present (prog_name p) && present (prog_input p) && present (prog_output p))
  && block_complete_outside (prog_body p).

(** The two exceptions do not arise: the conditions of the loops are
    complete at every depth and there is no [switch]. *)
Fixpoint cmd_conditions_complete (c : AST_CMD) : bool :=
  let block := forallb (fun o => match o with
                                 | None => true
                                 | Some c' => cmd_conditions_complete c'
                                 end) in
  match c with
  | AST_ASGN _ _ _ => true
  | AST_IF _ _ i e => block i && block e
  | AST_WHILE _ cond b =>
      slot_all_complete (expr_all_complete true) true cond && block b
  | AST_SWITCH _ _ _ _ => false
  end.

Definition block_conditions_complete (b : list (option AST_CMD)) : bool :=
  forallb (fun o => match o with
                    | None => true
                    | Some c' => cmd_conditions_complete c'
                    end) b.

(** A status [OK] comes with nodes that are complete in the sense of
    [cmd_complete_outside]; proved of the statement functions at once, by
    induction on the fuel. *)
Definition stmt_outside_at (fuel : nat) : Prop :=
  (forall opts s l s', _readElse fuel opts s = Some ((OK, l), s') ->
     block_complete_outside l = true) /\
  (forall opts st res s l s',
     _readStatementList_loop fuel opts st res s = Some ((OK, l), s') ->
     block_complete_outside res = true -> block_complete_outside l = true) /\
  (forall opts s l s', _readStatementList fuel opts s = Some ((OK, l), s') ->
     block_complete_outside l = true) /\
  (forall opts s c s', _readStmt fuel opts s = Some ((OK, c), s') ->
     block_complete_outside [c] = true) /\
  (forall opts s l s', _readBlock fuel opts s = Some ((OK, l), s') ->
     block_complete_outside l = true).

(** The statement lists a conditional or a loop holds. *)
Definition cmd_lists (c : AST_CMD) : list (list (option AST_CMD)) :=
  match c with
  | AST_IF _ _ i e => [i; e]
  | AST_WHILE _ _ b => [b]
  | AST_ASGN _ _ _ | AST_SWITCH _ _ _ _ => []
  end.

(** The [complete] flag and the body of a [switch_case] or [switch_default]
    node. *)
Definition case_flag (n : CaseNode) : bool :=
  match n with
  | switch_case (f, _, _) => f
  | switch_default (f, _) => f
  end.

Definition case_body (n : CaseNode) : list (option AST_CMD) :=
  match n with
  | switch_case (_, _, b) => b
  | switch_default (_, b) => b
  end.

End Wellformed.

(** * From an AST back to tokens *)
Module Printer.
Import Syntax Parser.

(** The token an identifier node was read from, and the one of an
    operator. *)
Definition ident_token (i : IDENT_TYPE) : WHILE_TOKEN_EXTD :=
  {| data := TkIdentifier (ident_value i); pos := ident_pos i |}.
Definition op_token (o : OP_TYPE) : WHILE_TOKEN_EXTD :=
  {| data := TkOperation (op_value o); pos := op_pos o |}.
(** Keywords and punctuation; the parser looks at their value only. *)
Definition word (v : string) : WHILE_TOKEN_EXTD :=
  {| data := TkExpression v; pos := {| row := 0; col := 0 |} |}.
Definition mark (v : string) : WHILE_TOKEN_EXTD :=
  {| data := TkSymbol v; pos := {| row := 0; col := 0 |} |}.

(** The tokens that spell an expression: the operator, then its
    arguments. *)
Fixpoint unparse_expr (e : AST_EXPR) : list WHILE_TOKEN_EXTD :=
  match e with
  | AST_IDENT i => [ident_token i]
  | AST_TREE _ => []
  | AST_OP _ o args =>
      op_token o ::
      (fix unparse_args (args : list (option AST_EXPR)) : list WHILE_TOKEN_EXTD :=
         match args with
         | [] => []
         | Some a :: args' => unparse_expr a ++ unparse_args args'
         | None :: args' => unparse_args args'
         end) args
  end.

Fixpoint unparse_args (args : list (option AST_EXPR)) : list WHILE_TOKEN_EXTD :=
  match args with
  | [] => []
  | Some a :: args' => unparse_expr a ++ unparse_args args'
  | None :: args' => unparse_args args'
  end.

(** The expressions the tokens above are read back from: complete
    operations with all their arguments ([hd] and [tl] have one, any other
    operator two), no tree literal, and no identifier or operator spelled
    as an opening parenthesis. *)
Fixpoint expr_printable (e : AST_EXPR) : bool :=
  match e with
  | AST_IDENT i => negb (String.eqb (ident_value i) TKN_PREN_OPN)
  | AST_TREE _ => false
  | AST_OP c o args =>
      c && negb (String.eqb (op_value o) TKN_PREN_OPN)
      && (if String.eqb (op_value o) TKN_HD || String.eqb (op_value o) TKN_TL
          then Nat.eqb (length args) 1 else Nat.eqb (length args) 2)
      && forallb (fun a => match a with
                           | Some a' => expr_printable a'
                           | None => false
                           end) args
  end.

(** The tokens that spell a command; a block is written with its braces and
    a conditional always with its [else]. *)
Fixpoint unparse_cmd (c : AST_CMD) : list WHILE_TOKEN_EXTD :=
  let stmts :=
    fix stmts (l : list (option AST_CMD)) : list WHILE_TOKEN_EXTD :=
      match l with
      | [] => []
      | o :: l' =>
          match o with Some c' => unparse_cmd c' | None => [] end
          ++ match l' with
             | [] => []
             | _ :: _ => mark TKN_SEP :: stmts l'
             end
      end in
  let block b := mark TKN_BLOCK_OPN :: stmts b ++ [mark TKN_BLOCK_CLS] in
  let slot o := match o with Some e => unparse_expr e | None => [] end in
  match c with
  | AST_ASGN _ i arg => ident_token i :: mark TKN_ASSGN :: slot arg
  | AST_IF _ cond i e =>
      word TKN_IF :: slot cond ++ block i ++ word TKN_ELSE :: block e
  | AST_WHILE _ cond b => word TKN_WHILE :: slot cond ++ block b
  | AST_SWITCH _ _ _ _ => []
  end.

Fixpoint unparse_stmts (l : list (option AST_CMD)) : list WHILE_TOKEN_EXTD :=
  match l with
  | [] => []
  | o :: l' =>
      match o with Some c' => unparse_cmd c' | None => [] end
      ++ match l' with
         | [] => []
         | _ :: _ => mark TKN_SEP :: unparse_stmts l'
         end
  end.

Definition unparse_block (b : list (option AST_CMD)) : list WHILE_TOKEN_EXTD :=
  mark TKN_BLOCK_OPN :: unparse_stmts b ++ [mark TKN_BLOCK_CLS].

Definition slot_printable {A} (f : A -> bool) (o : option A) : bool :=
  match o with Some a => f a | None => false end.

(** The commands the tokens above are read back from: complete
    assignments, conditionals and loops.  The variable of an assignment is
    not spelled as [if], [while] or a closing brace. *)
Fixpoint cmd_printable (c : AST_CMD) : bool :=
  let block := forallb (fun o => match o with
                                 | Some c' => cmd_printable c'
                                 | None => false
                                 end) in
  match c with
  | AST_ASGN f i arg =>
      f && negb (String.eqb (ident_value i) TKN_IF)
      && negb (String.eqb (ident_value i) TKN_WHILE)
      && negb (String.eqb (ident_value i) TKN_BLOCK_CLS)
      && slot_printable expr_printable arg
  | AST_IF f cond i e =>
      f && slot_printable expr_printable cond && block i && block e
  | AST_WHILE f cond b => f && slot_printable expr_printable cond && block b
  | AST_SWITCH _ _ _ _ => false
  end.

Definition block_printable (b : list (option AST_CMD)) : bool :=
  forallb (fun o => match o with
                    | Some c' => cmd_printable c'
                    | None => false
                    end) b.

(** [name read input { body } write output] *)
Definition unparse_prog (p : AST_PROG) : list WHILE_TOKEN_EXTD :=
  match prog_name p, prog_input p, prog_output p with
  | Some n, Some i, Some o =>
      ident_token n :: word TKN_READ :: ident_token i
      :: unparse_block (prog_body p) ++ [word TKN_WRITE; ident_token o]
  | _, _, _ => []
  end.

Definition prog_printable (p : AST_PROG) : bool :=
  prog_complete p
  && match prog_name p, prog_input p, prog_output p with
     | Some n, Some i, Some _ =>
         negb (String.eqb (ident_value n) TKN_READ)
         && negb (String.eqb (ident_value n) TKN_BLOCK_OPN)
         && negb (String.eqb (ident_value i) TKN_BLOCK_OPN)
     | _, _, _ => false
     end
  && block_printable (prog_body p).

(** What is proved of the statement functions at once, by induction on
    the fuel: they read back what [unparse_cmd] and [unparse_block] spell. *)
Definition stmt_unparse_at (fuel : nat) : Prop :=
  (forall opts s b rest r s',
     block_printable b = true ->
     _tokens s = word TKN_ELSE :: unparse_block b ++ rest ->
     _readElse fuel opts s = Some (r, s') ->
     r = (OK, b) /\ _tokens s' = rest /\ errors s' = errors s) /\
  (forall opts st res s l t rest r s',
     l <> [] -> block_printable l = true -> value_is t TKN_SEP = false ->
     _tokens s = unparse_stmts l ++ t :: rest ->
     _readStatementList_loop fuel opts st res s = Some (r, s') ->
     r = (st, res ++ l) /\ _tokens s' = t :: rest /\ errors s' = errors s) /\
  (forall opts s l t rest r s',
     l <> [] -> block_printable l = true -> value_is t TKN_SEP = false ->
     _tokens s = unparse_stmts l ++ t :: rest ->
     _readStatementList fuel opts s = Some (r, s') ->
     r = (OK, l) /\ _tokens s' = t :: rest /\ errors s' = errors s) /\
  (forall opts s c rest r s',
     cmd_printable c = true ->
     _tokens s = unparse_cmd c ++ rest ->
     _readStmt fuel opts s = Some (r, s') ->
     r = (OK, Some c) /\ _tokens s' = rest /\ errors s' = errors s) /\
  (forall opts s b rest r s',
     block_printable b = true ->
     _tokens s = unparse_block b ++ rest ->
     _readBlock fuel opts s = Some (r, s') ->
     r = (OK, b) /\ _tokens s' = rest /\ errors s' = errors s).

End Printer.

(** * More token lists and programs for the examples *)
Module Programs.
Import Syntax Interp.

(** [p read X { Y := 3; switch X { } } write Y]: a number and a [switch]. *)
Definition extended_program : list WHILE_TOKEN_EXTD :=
  Fixtures.lex_from 0
    [Fixtures.id "p"; Fixtures.kw "read"; Fixtures.id "X"; Fixtures.sym "{";
     Fixtures.id "Y"; Fixtures.sym ":="; TkNumber 3; Fixtures.sym ";";
     Fixtures.kw "switch"; Fixtures.id "X"; Fixtures.sym "{"; Fixtures.sym "}";
     Fixtures.sym "}"; Fixtures.kw "write"; Fixtures.id "Y"].

(** [cons hd X] and nothing after it: the second argument is missing. *)
Definition short_expression : list WHILE_TOKEN_EXTD :=
  Fixtures.lex_from 0 [Fixtures.op "cons"; Fixtures.op "hd"; Fixtures.id "X"].

(** [Y := cons nil X ; X := Y }] *)
Definition two_statements : list WHILE_TOKEN_EXTD :=
  Fixtures.lex_from 0
    [Fixtures.id "Y"; Fixtures.sym ":="; Fixtures.op "cons"; Fixtures.id "nil";
     Fixtures.id "X"; Fixtures.sym ";";
     Fixtures.id "X"; Fixtures.sym ":="; Fixtures.id "Y"; Fixtures.sym "}"].

(** [X { case Y : Z := ; }]: what follows [switch], with a case whose
    assignment has no right-hand side. *)
Definition broken_case : list WHILE_TOKEN_EXTD :=
  Fixtures.lex_from 7
    [Fixtures.id "X"; Fixtures.sym "{"; Fixtures.kw "case"; Fixtures.id "Y";
     Fixtures.sym ":"; Fixtures.id "Z"; Fixtures.sym ":="; Fixtures.sym ";";
     Fixtures.sym "}"].

(** [while X { Y := X ;] and nothing after it. *)
Definition unfinished_loop : list WHILE_TOKEN_EXTD :=
  Fixtures.lex_from 0
    [Fixtures.kw "while"; Fixtures.id "X"; Fixtures.sym "{"; Fixtures.id "Y";
     Fixtures.sym ":="; Fixtures.id "X"; Fixtures.sym ";"].

(** [switch X x case ; } Y]: a wrong token for the opening brace, and a case
    whose expression cannot be read. *)
Definition switch_with_tokens_left : list WHILE_TOKEN_EXTD :=
  Fixtures.lex_from 0
    [Fixtures.kw "switch"; Fixtures.id "X"; Fixtures.id "x"; Fixtures.kw "case";
     Fixtures.sym ";"; Fixtures.sym "}"; Fixtures.id "Y"].

Definition assign (x : string) (e : AST_EXPR) : option AST_CMD :=
  Some (AST_ASGN true (Fixtures.name x) (Some e)).

(** [while X { Y := cons nil Y; X := tl X }] *)
Definition add_loop : AST_CMD :=
  AST_WHILE true (Some (Fixtures.var "X"))
    [assign "Y" (cons_of true Fixtures.here (Fixtures.var "nil") (Fixtures.var "Y"));
     assign "X" (tl_of true Fixtures.here (Fixtures.var "X"))].

(** [add read XY { X := hd XY; Y := tl XY;
     while X { Y := cons nil Y; X := tl X } } write Y] as an AST. *)
Definition add_ast : AST_PROG :=
  {| prog_complete := true; prog_name := Some (Fixtures.name "add");
     prog_input := Some (Fixtures.name "XY");
     prog_output := Some (Fixtures.name "Y");
     prog_body :=
       [assign "X" (hd_of true Fixtures.here (Fixtures.var "XY"));
        assign "Y" (tl_of true Fixtures.here (Fixtures.var "XY"));
        Some add_loop] |}.

(** [spin read X { while cons nil nil { } } write X] as an AST. *)
Definition spin_program : AST_PROG :=
  {| prog_complete := true; prog_name := Some (Fixtures.name "spin");
     prog_input := Some (Fixtures.name "X");
     prog_output := Some (Fixtures.name "X");
     prog_body :=
       [Some (AST_WHILE true
                (Some (AST_OP true {| op_value := "cons"; op_pos := Fixtures.here |}
                         [Some (Fixtures.var "nil"); Some (Fixtures.var "nil")]))
                [])] |}.

(** [prog read 5 { } write X]: the input variable is not an identifier. *)
Definition number_as_input : list WHILE_TOKEN_EXTD :=
  Fixtures.lex_from 0
    [Fixtures.id "prog"; Fixtures.kw "read"; TkNumber 5; Fixtures.sym "{";
     Fixtures.sym "}"; Fixtures.kw "write"; Fixtures.id "X"].

(** [5 read X { } write X]: the program name is not an identifier. *)
Definition number_as_name : list WHILE_TOKEN_EXTD :=
  Fixtures.lex_from 0
    [TkNumber 5; Fixtures.kw "read"; Fixtures.id "X"; Fixtures.sym "{";
     Fixtures.sym "}"; Fixtures.kw "write"; Fixtures.id "X"].

(** [prog read X { Y := X ;]: the input ends after a separator. *)
Definition end_after_separator : list WHILE_TOKEN_EXTD :=
  Fixtures.lex_from 0
    [Fixtures.id "prog"; Fixtures.kw "read"; Fixtures.id "X"; Fixtures.sym "{";
     Fixtures.id "Y"; Fixtures.sym ":="; Fixtures.id "X"; Fixtures.sym ";"].

(** [prog read X { while hd { { } } write X]: the condition of the loop has
    no argument. *)
Definition loop_on_half_condition : list WHILE_TOKEN_EXTD :=
  Fixtures.lex_from 0
    [Fixtures.id "prog"; Fixtures.kw "read"; Fixtures.id "X"; Fixtures.sym "{";
     Fixtures.kw "while"; Fixtures.op "hd"; Fixtures.sym "{"; Fixtures.sym "{";
     Fixtures.sym "}"; Fixtures.sym "}"; Fixtures.kw "write"; Fixtures.id "X"].

(** [Y := X ; } Z := X ; X := Y }]: a separator before a closing brace,
    with statements after the brace. *)
Definition separator_brace_and_more : list WHILE_TOKEN_EXTD :=
  Fixtures.lex_from 14
    [Fixtures.id "Y"; Fixtures.sym ":="; Fixtures.id "X"; Fixtures.sym ";";
     Fixtures.sym "}"; Fixtures.id "Z"; Fixtures.sym ":="; Fixtures.id "X";
     Fixtures.sym ";"; Fixtures.id "X"; Fixtures.sym ":="; Fixtures.id "Y";
     Fixtures.sym "}"].

End Programs.

(** * Properties of the parser *)
Module ParserFacts.
Import Syntax Parser.

Lemma next_inv s o s' :
  next s = (o, s') ->
  errors s' = errors s /\ o = peek s /\
  match o with
  | Some t => _tokens s = t :: _tokens s'
  | None => _tokens s = [] /\ _tokens s' = []
  end.
Proof.
  unfold next, _next, peek.
  destruct (_tokens s) eqn:E; intros H; inversion H; subst; simpl; auto.
Qed.

Lemma peek_inv s :
  match peek s with
  | Some t => exists rest, _tokens s = t :: rest
  | None => _tokens s = []
  end.
Proof. unfold peek. destruct (_tokens s); eauto. Qed.

Lemma tokens_set_errors e s : _tokens (set_errors e s) = _tokens s.
Proof. reflexivity. Qed.

Lemma errors_addError_at errs p m : length (addError_at errs p m) = S (length errs).
Proof. unfold addError_at. rewrite length_app. simpl. lia. Qed.

Lemma errors_em_unexpectedValue errs p t a e :
  length (em_unexpectedValue errs p t a e) = S (length errs).
Proof. unfold em_unexpectedValue. apply errors_addError_at. Qed.

Lemma tokens_unexpectedToken a e s : _tokens (unexpectedToken a e s) = _tokens s.
Proof. reflexivity. Qed.
Lemma errors_unexpectedToken a e s :
  length (errors (unexpectedToken a e s)) = S (length (errors s)).
Proof. apply errors_em_unexpectedValue. Qed.
Lemma tokens_unexpectedValue t a e s : _tokens (unexpectedValue t a e s) = _tokens s.
Proof. reflexivity. Qed.
Lemma errors_unexpectedValue t a e s :
  length (errors (unexpectedValue t a e s)) = S (length (errors s)).
Proof. apply errors_em_unexpectedValue. Qed.
Lemma tokens_unexpectedEOI e s : _tokens (unexpectedEOI e s) = _tokens s.
Proof. reflexivity. Qed.
Lemma errors_unexpectedEOI e s :
  length (errors (unexpectedEOI e s)) = S (length (errors s)).
Proof. apply errors_em_unexpectedValue. Qed.
Lemma tokens_unexpectedEOICustom m s : _tokens (unexpectedEOICustom m s) = _tokens s.
Proof. reflexivity. Qed.
Lemma errors_unexpectedEOICustom m s :
  length (errors (unexpectedEOICustom m s)) = S (length (errors s)).
Proof. apply errors_addError_at. Qed.
Lemma tokens_unexpectedTokenCustom a m s : _tokens (unexpectedTokenCustom a m s) = _tokens s.
Proof. reflexivity. Qed.
Lemma errors_unexpectedTokenCustom a m s :
  length (errors (unexpectedTokenCustom a m s)) = S (length (errors s)).
Proof. apply errors_addError_at. Qed.
Lemma errors_set_errors e s : errors (set_errors e s) = e.
Proof. reflexivity. Qed.

Lemma errors_em_unexpectedToken errs p a e :
  length (em_unexpectedToken errs p a e) = S (length errs).
Proof. apply errors_em_unexpectedValue. Qed.

Ltac norm_state :=
  repeat progress rewrite ?tokens_set_errors, ?errors_set_errors, ?errors_addError_at,
    ?errors_em_unexpectedValue, ?errors_em_unexpectedToken,
    ?tokens_unexpectedToken, ?errors_unexpectedToken, ?tokens_unexpectedValue,
    ?errors_unexpectedValue, ?tokens_unexpectedEOI, ?errors_unexpectedEOI,
    ?tokens_unexpectedEOICustom, ?errors_unexpectedEOICustom,
    ?tokens_unexpectedTokenCustom, ?errors_unexpectedTokenCustom in *.

#[local] Opaque unexpectedToken unexpectedValue unexpectedEOI unexpectedEOICustom
  unexpectedTokenCustom set_errors next peek.

Lemma expect_inv ex s st o s' :
  expect ex s = ((st, o), s') ->
  match st with
  | OK => errors s' = errors s /\ exists t, o = Some t /\ _tokens s = t :: _tokens s'
  | ERROR => length (errors s') = S (length (errors s))
             /\ exists t, _tokens s = t :: _tokens s'
  | EOI => length (errors s') = S (length (errors s))
           /\ _tokens s = [] /\ _tokens s' = []
  end.
Proof.
  unfold expect. destruct (_next s) as [o1 s1] eqn:E. apply next_inv in E.
  destruct E as (E1 & _ & E2). destruct o1.
  - destruct ex.
    + intros H; inversion H; subst. eauto.
    + destruct (existsb _ _); intros H; inversion H; subst.
      * eauto.
      * norm_state. rewrite E1. eauto.
  - intros H; inversion H; subst. norm_state. rewrite E1. tauto.
Qed.

Lemma consumeUntil_loop_inv ex toks res s :
  toks = _tokens s ->
  errors (snd (consumeUntil_loop ex toks res s)) = errors s /\
  suffix (_tokens (snd (consumeUntil_loop ex toks res s))) (_tokens s).
Proof.
  revert res s. induction toks as [|t toks IH]; intros res s E; simpl.
  - split; [done|reflexivity].
  - destruct (existsb _ _); simpl; [split; [done|reflexivity]|].
    destruct (next s) as [o s1] eqn:N. apply next_inv in N. destruct N as (N1 & _ & N2).
    rewrite <- E in N2. destruct o as [t'|]; [|destruct N2; discriminate].
    inversion N2; subst. simpl.
    destruct (IH (res ++ [t']) s1 eq_refl) as [I1 I2]. split; [congruence|].
    rewrite <- E. by apply suffix_cons_r.
Qed.

Lemma consumeUntil_inv ex s :
  errors (snd (consumeUntil ex s)) = errors s /\
  suffix (_tokens (snd (consumeUntil ex s))) (_tokens s).
Proof. by apply consumeUntil_loop_inv. Qed.

Lemma next_shrink s o s' :
  next s = (o, s') ->
  length (errors s') = length (errors s) /\
  suffix (_tokens s') (_tokens s) /\ o = peek s /\
  match o with
  | Some t => length (_tokens s) = S (length (_tokens s'))
  | None => length (_tokens s) = 0 /\ length (_tokens s') = 0
  end.
Proof.
  intros H. apply next_inv in H. destruct H as (H1 & H2 & H3).
  split; [by rewrite H1|].
  destruct o.
  - rewrite H3. split; [apply suffix_cons_r; reflexivity|]. simpl. auto.
  - destruct H3 as [-> ->]. split; [reflexivity|]. simpl; auto.
Qed.

Lemma peek_length s :
  match peek s with
  | Some t => 0 < length (_tokens s)
  | None => length (_tokens s) = 0
  end.
Proof.
  generalize (peek_inv s). destruct (peek s).
  - intros [rest ->]. simpl. lia.
  - intros ->. reflexivity.
Qed.

Lemma expect_shrink ex s st o s' :
  expect ex s = ((st, o), s') ->
  suffix (_tokens s') (_tokens s) /\
  length (_tokens s') <= length (_tokens s) /\
  length (errors s) <= length (errors s') /\
  match st with
  | OK => length (errors s') = length (errors s)
          /\ length (_tokens s) = S (length (_tokens s'))
  | ERROR => length (errors s') = S (length (errors s))
             /\ length (_tokens s) = S (length (_tokens s'))
  | EOI => length (errors s') = S (length (errors s))
           /\ length (_tokens s) = 0 /\ length (_tokens s') = 0
  end.
Proof.
  intros H. apply expect_inv in H. destruct st.
  - destruct H as (H1 & t & H2 & H3). rewrite H3, H1. simpl.
    split; [apply suffix_cons_r; reflexivity|]. repeat split; lia.
  - destruct H as (H1 & t & H3). rewrite H3, H1. simpl.
    split; [apply suffix_cons_r; reflexivity|]. repeat split; lia.
  - destruct H as (H1 & -> & ->). rewrite H1. simpl.
    split; [reflexivity|]. repeat split; lia.
Qed.

Lemma consumeUntil_shrink ex s :
  length (errors (snd (consumeUntil ex s))) = length (errors s) /\
  suffix (_tokens (snd (consumeUntil ex s))) (_tokens s) /\
  length (_tokens (snd (consumeUntil ex s))) <= length (_tokens s).
Proof.
  destruct (consumeUntil_inv ex s) as [H1 H2]. split; [by rewrite H1|].
  split; [done|]. by apply suffix_length.
Qed.

Ltac suffix_chain :=
  solve [ reflexivity | eassumption | (etrans; [eassumption | suffix_chain]) ].

(* Destruct the parser's primitive calls and case splits in hypothesis H. *)
Ltac prim_step :=
  match goal with
  | H : context [match next ?s with _ => _ end] |- _ =>
      let E := fresh "E" in
      destruct (next s) as [? ?] eqn:E; apply next_shrink in E;
      destruct E as (? & ? & ? & ?)
  | H : context [match expect ?ex ?s with _ => _ end] |- _ =>
      let E := fresh "E" in
      destruct (expect ex s) as [[? ?] ?] eqn:E; apply expect_shrink in E;
      destruct E as (? & ? & ? & ?)
  | H : context [snd (consumeUntil ?ex ?s)] |- _ =>
      let E := fresh "E" in
      let s' := fresh "s" in
      destruct (consumeUntil_shrink ex s) as (? & ? & ?);
      remember (snd (consumeUntil ex s)) as s' eqn:E; clear E
  | H : context [match peek ?s with _ => _ end] |- _ =>
      let E := fresh "E" in
      generalize (peek_length s); destruct (peek s) eqn:E; intros ?
  end.

Ltac split_hyps :=
  repeat match goal with
  | H : _ /\ _ |- _ => destruct H
  | H : shrink _ _ |- _ => unfold shrink in H
  | H : consume _ _ |- _ => unfold consume in H
  | H : Some _ = Some _ |- _ => inversion H; subst; clear H
  | H : (_, _) = (_, _) |- _ => inversion H; subst; clear H
  | H : None = Some _ |- _ => discriminate H
  end.

Ltac finish_shrink :=
  split_hyps; unfold consume, shrink; norm_state;
  repeat split; try suffix_chain; try (intros; lia).

Ltac call_step f IH :=
  match goal with
  | H : context [match f ?n ?o ?s with _ => _ end] |- _ =>
      let E := fresh "E" in
      destruct (f n o s) as [[? ?]|] eqn:E;
      [apply IH in E|discriminate H]
  end.

Ltac case_step :=
  match goal with
  | H : context [match ?x with _ => _ end] |- _ => destruct x eqn:?
  end.

Lemma _readExpr_consume fuel : forall opts s r s',
  _readExpr fuel opts s = Some (r, s') -> consume s s'.
Proof.
  induction fuel as [|fuel IH]; intros opts s r s' H; [discriminate|].
  simpl in H.
  repeat first [ prim_step | call_step _readExpr IH | case_step ]; finish_shrink.
Qed.

Ltac use_IH E :=
  first [ apply _readExpr_consume in E
        | match goal with IH : forall _, _ |- _ => apply IH in E end ].

Ltac rec_step :=
  match goal with
  | H : context [match _readExpr ?n ?o ?s with _ => _ end] |- _ =>
      let E := fresh "E" in
      destruct (_readExpr n o s) as [[? ?]|] eqn:E; [use_IH E|discriminate H]
  | H : context [match _readBlock ?n ?o ?s with _ => _ end] |- _ =>
      let E := fresh "E" in
      destruct (_readBlock n o s) as [[[? ?] ?]|] eqn:E; [use_IH E|discriminate H]
  | H : context [match _readElse ?n ?o ?s with _ => _ end] |- _ =>
      let E := fresh "E" in
      destruct (_readElse n o s) as [[[? ?] ?]|] eqn:E; [use_IH E|discriminate H]
  | H : context [match _readStatementList ?n ?o ?s with _ => _ end] |- _ =>
      let E := fresh "E" in
      destruct (_readStatementList n o s) as [[[? ?] ?]|] eqn:E; [use_IH E|discriminate H]
  | H : context [match _readStmt ?n ?o ?s with _ => _ end] |- _ =>
      let E := fresh "E" in
      destruct (_readStmt n o s) as [[[? ?] ?]|] eqn:E; [use_IH E|discriminate H]
  | H : context [match _readCase ?n ?o ?s with _ => _ end] |- _ =>
      let E := fresh "E" in
      destruct (_readCase n o s) as [[[? ?] ?]|] eqn:E; [use_IH E|discriminate H]
  | H : context [match _readSwitch_loop ?n ?o ?st ?c ?d ?s with _ => _ end] |- _ =>
      let E := fresh "E" in
      destruct (_readSwitch_loop n o st c d s) as [[[[? ?] ?] ?]|] eqn:E;
      [use_IH E|discriminate H]
  | H : _readBlock _ _ _ = Some _ |- _ => use_IH H
  | H : _readSwitch _ _ _ = Some _ |- _ => use_IH H
  | H : _readStatementList_loop _ _ _ _ _ = Some _ |- _ => use_IH H
  | H : _readSwitch_loop _ _ _ _ _ _ = Some _ |- _ => use_IH H
  end.

Lemma stmt_shrink fuel : stmt_shrink_at fuel.
Proof.
  induction fuel as [|fuel IH].
  - repeat split; intros; discriminate.
  - destruct IH as (IH1 & IH2 & IH3 & IH4 & IH5 & IH6 & IH7 & IH8).
    repeat split; intros; simpl in H.
    all: repeat first [ prim_step | rec_step | case_step ].
    all: finish_shrink.
Qed.

Lemma _readElse_shrink fuel opts s r s' :
  _readElse fuel opts s = Some (r, s') -> shrink s s'.
Proof. apply (stmt_shrink fuel). Qed.
Lemma _readStatementList_loop_shrink fuel opts st res s r s' :
  _readStatementList_loop fuel opts st res s = Some (r, s') -> shrink s s'.
Proof. apply (stmt_shrink fuel). Qed.
Lemma _readStatementList_shrink fuel opts s r s' :
  _readStatementList fuel opts s = Some (r, s') -> shrink s s'.
Proof. apply (stmt_shrink fuel). Qed.
Lemma _readCase_consume fuel opts s r s' :
  _readCase fuel opts s = Some (r, s') -> consume s s'.
Proof. apply (stmt_shrink fuel). Qed.
Lemma _readSwitch_loop_shrink fuel opts st cs d s r s' :
  _readSwitch_loop fuel opts st cs d s = Some (r, s') -> shrink s s'.
Proof. apply (stmt_shrink fuel). Qed.
Lemma _readSwitch_shrink fuel opts s r s' :
  _readSwitch fuel opts s = Some (r, s') -> shrink s s'.
Proof. apply (stmt_shrink fuel). Qed.
Lemma _readStmt_consume fuel opts s r s' :
  _readStmt fuel opts s = Some (r, s') -> consume s s'.
Proof. apply (stmt_shrink fuel). Qed.
Lemma _readBlock_shrink fuel opts s r s' :
  _readBlock fuel opts s = Some (r, s') -> shrink s s'.
Proof. apply (stmt_shrink fuel). Qed.

Ltac goal_prim_step :=
  match goal with
  | |- context [match next ?s with _ => _ end] =>
      let E := fresh "E" in
      destruct (next s) as [? ?] eqn:E; apply next_shrink in E;
      destruct E as (? & ? & ? & ?)
  | |- context [match expect ?ex ?s with _ => _ end] =>
      let E := fresh "E" in
      destruct (expect ex s) as [[? ?] ?] eqn:E; apply expect_shrink in E;
      destruct E as (? & ? & ? & ?)
  | |- context [snd (consumeUntil ?ex ?s)] =>
      let E := fresh "E" in
      let s' := fresh "s" in
      destruct (consumeUntil_shrink ex s) as (? & ? & ?);
      remember (snd (consumeUntil ex s)) as s' eqn:E; clear E
  | |- context [match peek ?s with _ => _ end] =>
      let E := fresh "E" in
      generalize (peek_length s); destruct (peek s) eqn:E; intros ?
  end.

Ltac bound :=
  split_hyps; subst; cbn iota beta in *; split_hyps;
  repeat match goal with
         | H : match ?x with _ => _ end |- _ => is_var x; destruct x; split_hyps
         end;
  norm_state; lia.

Lemma _readExpr_total fuel : forall opts s,
  length (_tokens s) < fuel -> exists r s', _readExpr fuel opts s = Some (r, s').
Proof.
  induction fuel as [|fuel IH]; intros opts s B; [lia|].
  simpl.
  repeat first
    [ goal_prim_step
    | match goal with
      | |- context [match _readExpr fuel ?o ?s with _ => _ end] =>
          let E := fresh "E" in
          destruct (IH o s) as (? & ? & E);
          [bound | rewrite E; apply _readExpr_consume in E]
      | |- exists _ _, Some _ = Some _ => eauto
      | |- context [match ?x with _ => _ end] => destruct x eqn:?
      end ].
Qed.

Ltac goal_call f IH lem :=
  match goal with
  | |- context [match f ?n ?o ?s with _ => _ end] =>
      let E := fresh "E" in
      destruct (IH o s) as (? & ? & E);
      [bound | rewrite E; apply lem in E]
  end.

Lemma stmt_total fuel : stmt_total_at fuel.
Proof.
  induction fuel as [|fuel IH].
  - repeat split; intros; lia.
  - destruct IH as (IH1 & IH2 & IH3 & IH4 & IH5 & IH6 & IH7 & IH8).
    repeat split; intros; simpl.
    all: repeat first
      [ match goal with
        | |- context [match ?x with _ => _ end] => is_var x; destruct x
        end
      | goal_prim_step
      | goal_call _readExpr (_readExpr_total fuel) _readExpr_consume
      | goal_call _readBlock IH8 _readBlock_shrink
      | goal_call _readElse IH1 _readElse_shrink
      | goal_call _readStatementList IH3 _readStatementList_shrink
      | goal_call _readStmt IH7 _readStmt_consume
      | goal_call _readCase IH4 _readCase_consume
      | match goal with
        | |- context [match _readSwitch_loop ?n ?o ?st ?c ?d ?s with _ => _ end] =>
            let E := fresh "E" in
            destruct (IH5 o st c d s) as (? & ? & E);
            [bound | rewrite E; apply _readSwitch_loop_shrink in E]
        | |- exists _ _, Some _ = Some _ => eauto
        | |- exists _ _, _readBlock _ _ _ = Some _ => apply IH8; bound
        | |- exists _ _, _readSwitch _ _ _ = Some _ => apply IH6; bound
        | |- exists _ _, _readStatementList_loop _ _ _ _ _ = Some _ => apply IH2; bound
        | |- exists _ _, _readSwitch_loop _ _ _ _ _ _ = Some _ => apply IH5; bound
        | |- context [match ?x with _ => _ end] => destruct x eqn:?
        end ].
Qed.

Lemma expr_all_complete_flag e :
  expr_all_complete true e = true -> expr_flag e = true.
Proof. destruct e; simpl; auto. intros H. apply andb_prop in H. tauto. Qed.

Lemma cmd_all_complete_ASGN s f i a :
  cmd_all_complete s (AST_ASGN f i a)
  = f && slot_all_complete (expr_all_complete s) s a.
Proof. reflexivity. Qed.
Lemma cmd_all_complete_IF s f c i e :
  cmd_all_complete s (AST_IF f c i e)
  = f && slot_all_complete (expr_all_complete s) s c
      && block_all_complete s i && block_all_complete s e.
Proof. reflexivity. Qed.
Lemma cmd_all_complete_WHILE s f c b :
  cmd_all_complete s (AST_WHILE f c b)
  = f && slot_all_complete (expr_all_complete s) s c && block_all_complete s b.
Proof. reflexivity. Qed.
Lemma cmd_all_complete_SWITCH f c cs d :
  cmd_all_complete true (AST_SWITCH f c cs d)
  = f && slot_all_complete (expr_all_complete true) true c
      && forallb switch_case_ok cs && switch_default_ok d.
Proof. destruct d. reflexivity. Qed.
Lemma block_all_complete_app s a b :
  block_all_complete s (a ++ b) = block_all_complete s a && block_all_complete s b.
Proof. apply forallb_app. Qed.

Lemma block_all_complete_cons s x l :
  block_all_complete s (x :: l)
  = slot_all_complete (cmd_all_complete s) s x && block_all_complete s l.
Proof. reflexivity. Qed.
Lemma block_all_complete_nil s : block_all_complete s [] = true.
Proof. reflexivity. Qed.

#[local] Arguments cmd_all_complete : simpl never.
#[local] Arguments block_all_complete : simpl never.

Ltac inv_call f lemA IH :=
  match goal with
  | H : context [match f ?n ?o ?s with _ => _ end] |- _ =>
      let E := fresh "E" in
      let A := fresh "A" in
      destruct (f n o s) as [[? ?]|] eqn:E;
      [pose proof (lemA _ _ _ _ _ E) as A;
       let I := fresh "I" in pose proof (IH _ _ _ _ E) as I; clear E
      |discriminate H]
  end.

Ltac var_step :=
  match goal with
  | H : ?T = Some _ |- _ =>
      match T with context [match ?x with _ => _ end] => is_var x; destruct x end
  end.

Ltac main_case_step :=
  match goal with
  | H : ?T = Some _ |- _ =>
      match T with context [match ?x with _ => _ end] => destruct x eqn:? end
  end.

(* all boolean facts as equations with [true] or [false] *)
Ltac bool_facts :=
  repeat match goal with
  | H : _ && _ = true |- _ => apply andb_prop in H; destruct H
  | H : negb _ = true |- _ => apply negb_true_iff in H
  | H : negb _ = false |- _ => apply negb_false_iff in H
  | H : _ || _ = false |- _ => apply orb_false_elim in H; destruct H
  | H : expr_all_complete true ?e = true |- _ =>
      lazymatch goal with
      | _ : expr_flag e = true |- _ => fail
      | _ => pose proof (expr_all_complete_flag e H)
      end
  end.

Ltac bool_hyps :=
  repeat match goal with
  | H : ?x = true, H' : context [?x] |- _ =>
      tryif constr_eq H H' then fail else (rewrite H in H'; simpl in H')
  | H : ?x = false, H' : context [?x] |- _ =>
      tryif constr_eq H H' then fail else (rewrite H in H'; simpl in H')
  end.

Ltac use_quiet :=
  repeat match goal with
  | H : quiet ?a ?b -> _ |- _ =>
      let Q := fresh "Q" in
      assert (Q : quiet a b) by (unfold quiet; lia);
      specialize (H Q); clear Q
  end.

Ltac bool_goal :=
  simpl;
  repeat match goal with
  | H : ?x = true |- context [?x] => rewrite H
  | H : ?x = false |- context [?x] => rewrite H
  end; simpl; try reflexivity; try congruence.

Ltac split_vars :=
  repeat match goal with
  | |- context [slot_all_complete _ _ ?o] => is_var o; destruct o
  | H : context [slot_all_complete _ _ ?o] |- _ => is_var o; destruct o
  | H : context [present ?o] |- _ => is_var o; destruct o
  | |- context [is_OK ?p] => is_var p; destruct p
  | H : context [is_OK ?p] |- _ => is_var p; destruct p
  | H : context [is_EOI ?p] |- _ => is_var p; destruct p
  | H : context [match ?p with _ => _ end] |- _ => is_var p; destruct p
  | |- context [match ?p with _ => _ end] => is_var p; destruct p
  end.

Ltac prove_bool :=
  unfold expr_ok, block_ok, stmt_ok, case_ok, switch_acc_ok in *; simpl in *;
  rewrite ?cmd_all_complete_ASGN, ?cmd_all_complete_IF, ?cmd_all_complete_WHILE,
    ?cmd_all_complete_SWITCH, ?block_all_complete_app, ?forallb_app,
    ?block_all_complete_cons, ?block_all_complete_nil in *;
  simpl in *;
  split_vars; simpl in *;
  bool_facts; bool_hyps; try congruence; bool_goal.

Ltac inv_loop :=
  first
  [ solve [exfalso; lia]
  | solve [right; lia]
  | solve [exfalso; cbn [is_OK is_EOI negb andb orb] in *; congruence]
  | match goal with
    | H : length (errors ?b) = length (errors ?a) -> _ |- _ =>
        let Q := fresh "Q" in
        assert (Q : length (errors b) = length (errors a)) by lia;
        specialize (H Q); clear Q; inv_loop
    | H : _ \/ _ |- _ => destruct H; inv_loop
    | H : ?P = true -> _ |- _ =>
        let X := fresh "X" in
        assert (X : P = true) by prove_bool;
        specialize (H X); inv_loop
    end
  | solve [left; prove_bool] ].

Ltac finish_inv :=
  split_hyps; subst; cbn iota beta in *; split_hyps;
  repeat match goal with
         | H : match ?x with _ => _ end |- _ => is_var x; destruct x; split_hyps
         end;
  unfold quiet, exhausted in *; norm_state; inv_loop.

Lemma _readExpr_inv fuel : forall opts s r s',
  _readExpr fuel opts s = Some (r, s') ->
  quiet s s' -> expr_ok r = true \/ exhausted s'.
Proof.
  induction fuel as [|fuel IH]; intros opts s r s' H Q; [discriminate|].
  simpl in H.
  repeat first [ var_step | prim_step | inv_call _readExpr _readExpr_consume IH | main_case_step ].
  all: finish_inv.
Qed.

Ltac inv_call3 f lemA IH :=
  match goal with
  | H : context [match f ?n ?o ?s with _ => _ end] |- _ =>
      let E := fresh "E" in
      let A := fresh "A" in
      destruct (f n o s) as [[[? ?] ?]|] eqn:E;
      [pose proof (lemA _ _ _ _ _ E) as A;
       let I := fresh "I" in pose proof (IH _ _ _ _ E) as I; clear E
      |discriminate H]
  end.

Ltac stmt_inv_step fuel IH1 IH2 IH3 IH4 IH5 IH6 IH7 IH8 :=
  first
      [ var_step
      | prim_step
      | inv_call _readExpr _readExpr_consume (_readExpr_inv fuel)
      | inv_call3 _readBlock _readBlock_shrink IH8
      | inv_call3 _readElse _readElse_shrink IH1
      | inv_call3 _readStatementList _readStatementList_shrink IH3
      | inv_call3 _readStmt _readStmt_consume IH7
      | inv_call3 _readCase _readCase_consume IH4
      | match goal with
        | H : context [match _readSwitch_loop ?n ?o ?st ?c ?d ?s with _ => _ end] |- _ =>
            let E := fresh "E" in
            let A := fresh "A" in
            destruct (_readSwitch_loop n o st c d s) as [[[[? ?] ?] ?]|] eqn:E;
            [pose proof (_readSwitch_loop_shrink _ _ _ _ _ _ _ _ E) as A;
             let I := fresh "I" in pose proof (IH5 _ _ _ _ _ _ _ E) as I; clear E
            |discriminate H]
        | H : _readBlock _ _ _ = Some _ |- _ =>
            pose proof (_readBlock_shrink _ _ _ _ _ H);
            let I := fresh "I" in pose proof (IH8 _ _ _ _ H) as I; clear H
        | H : _readSwitch _ _ _ = Some _ |- _ =>
            pose proof (_readSwitch_shrink _ _ _ _ _ H);
            let I := fresh "I" in pose proof (IH6 _ _ _ _ H) as I; clear H
        | H : _readStatementList_loop _ _ _ _ _ = Some _ |- _ =>
            pose proof (_readStatementList_loop_shrink _ _ _ _ _ _ _ H);
            let I := fresh "I" in pose proof (IH2 _ _ _ _ _ _ H) as I; clear H
        | H : _readSwitch_loop _ _ _ _ _ _ = Some _ |- _ =>
            pose proof (_readSwitch_loop_shrink _ _ _ _ _ _ _ _ H);
            let I := fresh "I" in pose proof (IH5 _ _ _ _ _ _ _ H) as I; clear H
        end
      | main_case_step ].

Lemma stmt_inv fuel : stmt_inv_at fuel.
Proof.
  induction fuel as [|fuel IH].
  - repeat split; intros; discriminate.
  - destruct IH as (IH1 & IH2 & IH3 & IH4 & IH5 & IH6 & IH7 & IH8).
    repeat split; intros;
    match goal with H : _ = Some _ |- _ => simpl in H end.
    all: repeat stmt_inv_step fuel IH1 IH2 IH3 IH4 IH5 IH6 IH7 IH8.
    all: clear IH1 IH2 IH3 IH4 IH5 IH6 IH7 IH8.
    all: finish_inv.
Qed.

Lemma _readInput_shrink s r s' : _readInput s = (r, s') -> shrink s s'.
Proof.
  unfold _readInput. intros H.
  repeat first [ prim_step | case_step ]; finish_shrink.
Qed.

Lemma _readRead_shrink s r s' : _readRead s = (r, s') -> shrink s s'.
Proof.
  unfold _readRead. intros H.
  repeat first
    [ prim_step
    | match goal with
      | H : _readInput _ = _ |- _ => apply _readInput_shrink in H
      end
    | case_step ]; finish_shrink.
Qed.

Lemma _readProgramIntro_shrink s r s' : _readProgramIntro s = (r, s') -> shrink s s'.
Proof.
  unfold _readProgramIntro. intros H.
  repeat first
    [ prim_step
    | match goal with
      | H : context [match _readInput ?s with _ => _ end] |- _ =>
          let E := fresh "E" in
          destruct (_readInput s) as [[? ?] ?] eqn:E; apply _readInput_shrink in E
      | H : context [match _readRead ?s with _ => _ end] |- _ =>
          let E := fresh "E" in
          destruct (_readRead s) as [[? ?] ?] eqn:E; apply _readRead_shrink in E
      end
    | case_step ]; finish_shrink.
Qed.

Lemma _readProgramOutro_inv s r s' :
  _readProgramOutro s = (r, s') ->
  shrink s s' /\ (exhausted s -> length (errors s) < length (errors s')).
Proof.
  unfold _readProgramOutro. intros H.
  repeat first [ prim_step | case_step ]; unfold exhausted; finish_shrink.
Qed.

Lemma _readProgram_total fuel opts s :
  4 * length (_tokens s) + 1 <= fuel ->
  exists r s', _readProgram fuel opts s = Some (r, s').
Proof.
  intros B. unfold _readProgram.
  destruct (_readProgramIntro s) as [[[st name] input] s0] eqn:E.
  apply _readProgramIntro_shrink in E.
  destruct (is_EOI st); simpl.
  - destruct (_ && _); eauto.
  - destruct (proj2 (proj2 (proj2 (proj2 (proj2 (proj2 (proj2 (stmt_total fuel)))))))
                opts s0) as (r & s1 & R); [bound|].
    rewrite R. destruct r as [st' body]. destruct (is_EOI st'); simpl.
    + destruct (_ && _); eauto.
    + destruct (_readProgramOutro s1) as [[ost out] s2].
      destruct (next s2) as [fin s3]. destruct (_ && _); eauto.
Qed.

Lemma _readProgram_shrink fuel opts s r s' :
  _readProgram fuel opts s = Some (r, s') -> shrink s s'.
Proof.
  unfold _readProgram. intros H.
  repeat first
    [ prim_step
    | match goal with
      | H : context [match _readProgramIntro ?s with _ => _ end] |- _ =>
          let E := fresh "E" in
          destruct (_readProgramIntro s) as [[[? ?] ?] ?] eqn:E;
          apply _readProgramIntro_shrink in E
      | H : context [match _readProgramOutro ?s with _ => _ end] |- _ =>
          let E := fresh "E" in
          destruct (_readProgramOutro s) as [[? ?] ?] eqn:E;
          apply _readProgramOutro_inv in E
      | H : context [match _readBlock ?n ?o ?s with _ => _ end] |- _ =>
          let E := fresh "E" in
          destruct (_readBlock n o s) as [[[? ?] ?]|] eqn:E;
          [apply _readBlock_shrink in E|discriminate H]
      end
    | case_step ]; finish_shrink.
Qed.

Lemma _readProgram_complete fuel opts s ast s' :
  _readProgram fuel opts s = Some (ast, s') ->
  prog_complete ast = true -> quiet s s' ->
  prog_all_complete true ast = true.
Proof.
  unfold _readProgram. intros H C Q.
  repeat first
    [ prim_step
    | match goal with
      | H : context [match _readProgramIntro ?s with _ => _ end] |- _ =>
          let E := fresh "E" in
          destruct (_readProgramIntro s) as [[[? ?] ?] ?] eqn:E;
          apply _readProgramIntro_shrink in E
      | H : context [match _readProgramOutro ?s with _ => _ end] |- _ =>
          let E := fresh "E" in
          destruct (_readProgramOutro s) as [[? ?] ?] eqn:E;
          apply _readProgramOutro_inv in E
      end
    | inv_call3 _readBlock _readBlock_shrink
        (proj2 (proj2 (proj2 (proj2 (proj2 (proj2 (proj2 (stmt_inv fuel))))))))
    | main_case_step ].
  all: split_hyps; subst; cbn iota beta in *; split_hyps;
    repeat match goal with
           | H : match ?x with _ => _ end |- _ => is_var x; destruct x; split_hyps
           end;
    unfold quiet, exhausted in *; norm_state; try discriminate.
  all: unfold prog_all_complete; simpl in *.
  all: repeat match goal with
    | H : length (errors ?b) = length (errors ?a) -> _ |- _ =>
        let Q := fresh "Q" in
        assert (Q : length (errors b) = length (errors a)) by lia;
        specialize (H Q); clear Q
    | H : _ \/ _ |- _ => destruct H
    | H : length (_tokens ?s) = 0 -> _ |- _ =>
        let Q := fresh "Q" in
        assert (Q : length (_tokens s) = 0) by lia;
        specialize (H Q); clear Q
    end; try lia.
  all: prove_bool.
Qed.

Lemma _readBlock_consume fuel opts s r s' :
  _readBlock fuel opts s = Some (r, s') -> consume s s'.
Proof.
  intros H. split; [by eapply _readBlock_shrink|].
  destruct fuel as [|fuel]; [discriminate|]. simpl in H.
  repeat first
    [ prim_step
    | match goal with
      | H : context [match _readStatementList ?n ?o ?s with _ => _ end] |- _ =>
          let E := fresh "E" in
          destruct (_readStatementList n o s) as [[[? ?] ?]|] eqn:E;
          [apply _readStatementList_shrink in E|discriminate H]
      end
    | case_step ]; finish_shrink.
Qed.

Lemma _readProgram_consume fuel opts s r s' :
  _readProgram fuel opts s = Some (r, s') -> consume s s'.
Proof.
  intros H. split; [by eapply _readProgram_shrink|].
  unfold _readProgram, _readProgramIntro in H.
  repeat first
    [ prim_step
    | match goal with
      | H : context [match _readInput ?s with _ => _ end] |- _ =>
          let E := fresh "E" in
          destruct (_readInput s) as [[? ?] ?] eqn:E; apply _readInput_shrink in E
      | H : context [match _readRead ?s with _ => _ end] |- _ =>
          let E := fresh "E" in
          destruct (_readRead s) as [[? ?] ?] eqn:E; apply _readRead_shrink in E
      | H : context [match _readProgramOutro ?s with _ => _ end] |- _ =>
          let E := fresh "E" in
          destruct (_readProgramOutro s) as [[? ?] ?] eqn:E;
          apply _readProgramOutro_inv in E
      | H : context [match _readBlock ?n ?o ?s with _ => _ end] |- _ =>
          let E := fresh "E" in
          destruct (_readBlock n o s) as [[[? ?] ?]|] eqn:E;
          [apply _readBlock_consume in E|discriminate H]
      end
    | case_step ]; finish_shrink.
  all: exfalso; cbn [is_OK is_EOI negb andb orb present] in *; congruence.
Qed.

Lemma parser_unfold tokens props :
  parser tokens props =
  match _readProgram (parser_fuel tokens)
          {| pureOnly := match props with
                         | Some p => default false (props_pureOnly p)
                         | None => false
                         end |} (new_StateManager tokens) with
  | Some (prog, st) => Some (prog, errors st, _tokens st)
  | None => None
  end.
Proof. reflexivity. Qed.

Lemma parser_total tokens props : exists r, parser tokens props = Some r.
Proof.
  rewrite parser_unfold.
  destruct (_readProgram_total (parser_fuel tokens)
              {| pureOnly := match props with
                             | Some p => default false (props_pureOnly p)
                             | None => false
                             end |} (new_StateManager tokens)) as (r & s' & E).
  - unfold parser_fuel. simpl. lia.
  - rewrite E. eauto.
Qed.

Lemma parser_remaining tokens props :
  exists ast errs rest,
    parser tokens props = Some (ast, errs, rest)
    /\ suffix rest tokens
    /\ (tokens <> [] -> length rest < length tokens).
Proof.
  rewrite parser_unfold.
  destruct (parser_total tokens props) as [r E]. rewrite parser_unfold in E.
  destruct (_readProgram _ _ _) as [[prog st]|] eqn:R; [|discriminate].
  apply _readProgram_consume in R. destruct R as [[R1 _] R2].
  exists prog, (errors st), (_tokens st). split; [done|]. split; [exact R1|].
  intros N. apply R2. simpl. destruct tokens; [done|simpl; lia].
Qed.


Lemma _readStatementList_loop_acc fuel : forall opts st res s r s',
  _readStatementList_loop fuel opts st res s = Some (r, s') ->
  (st <> OK -> fst r <> OK) /\ exists more, snd r = res ++ more.
Proof.
  induction fuel as [|fuel IH]; intros opts st res s r s' H; [discriminate|].
  simpl in H.
  destruct (_readStmt fuel opts s) as [[[sst stmt] s1]|]; [|discriminate].
  assert (T : forall st' s2,
             _readStatementList_loop fuel opts st' (res ++ [stmt]) s2 = Some (r, s') ->
             (st' <> OK -> fst r <> OK) /\ exists more, snd r = res ++ more).
  { intros st' s2 L. apply IH in L. destruct L as [L1 [more L2]].
    split; [done|]. exists ([stmt] ++ more). by rewrite L2, app_assoc. }
  destruct sst.
  - destruct (peek s1) as [nxt|].
    + destruct (value_is nxt TKN_SEP).
      * destruct (next s1). eauto.
      * inversion H; subst. simpl. eauto.
    + destruct (next s1). inversion H; subst. simpl. split; [done|eauto].
  - set (s2 := snd (consumeUntil [TKN_BLOCK_CLS; TKN_SEP] s1)) in *.
    destruct (peek s2) as [nxt|].
    + destruct (value_is nxt TKN_SEP).
      * destruct (next s2). apply T in H. destruct H as [H1 H2].
        split; [intros _; by apply H1|done].
      * inversion H; subst. simpl. split; [done|eauto].
    + destruct (next s2). inversion H; subst. simpl. split; [done|eauto].
  - inversion H; subst. simpl. split; [done|eauto].
Qed.

Lemma value_is_inj t a b : value_is t a = true -> a <> b -> value_is t b = false.
Proof.
  unfold value_is. destruct (value t); [|done].
  intros H N. apply String.eqb_eq in H. subst. by apply String.eqb_neq.
Qed.

Lemma as_ident_symbol t : type t = symbol -> as_ident t = None.
Proof. unfold type, as_ident. by destruct (data t). Qed.

Lemma next_cons s t rest :
  _tokens s = t :: rest ->
  exists s', next s = (Some t, s') /\ _tokens s' = rest /\ errors s' = errors s.
Proof.
  intros E. destruct (next s) as [o s'] eqn:N. apply next_inv in N.
  destruct N as (N1 & N2 & N3). rewrite E in N3. destruct o; [|destruct N3; discriminate].
  inversion N3; subst. eauto.
Qed.

Lemma peek_cons s t rest : _tokens s = t :: rest -> peek s = Some t.
Proof.
  intros E. generalize (peek_inv s). rewrite E.
  destruct (peek s) as [t'|]; [|done]. intros [r H]. by inversion H.
Qed.

Lemma _readStatementList_loop_unfold fuel opts status res state :
  _readStatementList_loop (S fuel) opts status res state =
  match _readStmt fuel opts state with
  | Some ((statementStatus, statement), state) =>
    let res := res ++ [statement] in
    match statementStatus with
    | EOI => Some ((EOI, res), state)
    | _ =>
      let '(status, state) :=
        match statementStatus with
        | ERROR => (ERROR, snd (consumeUntil [TKN_BLOCK_CLS; TKN_SEP] state))
        | _ => (status, state)
        end in
      match peek state with
      | None =>
          let '(_, state) := next state in
          Some ((EOI, res), unexpectedEOI [TKN_SEP; TKN_BLOCK_CLS] state)
      | Some nxt =>
          if value_is nxt TKN_SEP then
            let '(_, state) := next state in
            _readStatementList_loop fuel opts status res state
          else Some ((status, res), state)
      end
    end
  | None => None
  end.
Proof. reflexivity. Qed.

Lemma _readStmt_stray fuel opts s t s0 :
  next s = (Some t, s0) ->
  value_is t TKN_IF = false -> value_is t TKN_WHILE = false ->
  as_ident t = None -> value_is t TKN_SWITCH = false ->
  _readStmt (S fuel) opts s
  = Some ((ERROR, None),
          unexpectedTokenCustom None
            ("Expected " +:+ TKN_IF +:+ " " +:+ TKN_WHILE
             +:+ " or an assignment statement") s0).
Proof.
  intros N I W A SW. simpl. rewrite N, I, W, A, SW, andb_false_r. reflexivity.
Qed.

(** ** The claims about the parser *)

Lemma new_StateManager_quiet tokens s' :
  errors s' = [] -> quiet (new_StateManager tokens) s'.
Proof. unfold quiet. by intros ->. Qed.

(** C1, as stated, fails: for [prog read X { } write X foo] the parser
    returns an AST with [complete = true], every node of it complete, and a
    non-empty error list (the token after the output variable is diagnosed
    and the parse is not failed). *)
Lemma complete_ast_with_errors :
  exists ast errs rest,
    parser Fixtures.stray_token_program None = Some (ast, errs, rest)
    /\ prog_complete ast = true
    /\ prog_all_complete true ast = true
    /\ length errs = 1
    /\ ~ (prog_complete ast = true <-> errs = []).
Proof.
  eexists _, _, _. split; [vm_compute; reflexivity|].
  repeat split; try reflexivity. intros [H _]. by specialize (H eq_refl).
Qed.

(** C2, as stated, fails: the state manager shifts the tokens out of the
    caller's array, so after parsing [ident read X { } write X] the array is
    empty, and a second invocation on it returns another AST and other
    errors. *)
Lemma second_parse_differs :
  exists r1 r2 rest,
    parser Fixtures.identity_program None = Some (fst r1, snd r1, rest)
    /\ rest = []
    /\ rest <> Fixtures.identity_program
    /\ parser_twice Fixtures.identity_program None = Some (r1, r2)
    /\ snd r1 = [] /\ length (snd r2) = 1
    /\ r1 <> r2.
Proof.
  eexists (_, _), (_, _), _. split; [vm_compute; reflexivity|].
  split; [reflexivity|]. split; [discriminate|].
  split; [vm_compute; reflexivity|].
  split; [reflexivity|]. split; [reflexivity|].
  intros H. apply (f_equal (fun r => prog_complete (fst r))) in H.
  discriminate H.
Qed.

(** C2, amended: the result of the parser is a function of the contents of
    the token list at the time of the call and of the options; the parser
    returns for every token list; it takes the tokens it reads out of the
    caller's list, which afterwards holds a suffix of what it held, shorter
    when it was not empty; a second invocation on the same list parses that
    suffix. *)
Theorem parser_consumes_tokens (tokens : list WHILE_TOKEN_EXTD)
    (props : option ParserOpts) :
  exists ast errs rest,
    parser tokens props = Some (ast, errs, rest)
    /\ suffix rest tokens
    /\ (tokens <> [] -> length rest < length tokens)
    /\ parser_twice tokens props
       = match parser rest props with
         | Some (ast2, errs2, _) => Some ((ast, errs), (ast2, errs2))
         | None => None
         end
    /\ forall tokens', tokens' = tokens ->
         parser tokens' props = Some (ast, errs, rest).
Proof.
  destruct (parser_remaining tokens props) as (ast & errs & rest & E & S & L).
  exists ast, errs, rest. repeat split; try done.
  - unfold parser_twice. rewrite E.
    by destruct (parser rest props) as [[[ast2 errs2] rest2]|].
  - by intros tokens' ->.
Qed.

(** C5, as stated, fails: in [prog read X { Y := X; } write Y] the closing
    brace is read as the start of a statement; errors are recorded, a
    missing statement is added to the body, and the rest of the program is
    not parsed. *)
Lemma trailing_separator_rejected :
  exists ast errs rest stmt,
    parser Fixtures.trailing_separator_program None = Some (ast, errs, rest)
    /\ length errs = 2
    /\ prog_body ast = [Some stmt; None]
    /\ prog_output ast = None
    /\ prog_complete ast = false.
Proof.
  eexists _, _, _, _. split; [vm_compute; reflexivity|].
  repeat split; reflexivity.
Qed.




End ParserFacts.

(** * Properties of the interpreter *)
Module InterpFacts.
Import Syntax Interp.

Lemma expr_value_OP store c op args :
  expr_value store (AST_OP c op args)
  = match args_value store args with
    | Throw x => Throw x
    | Return vs => apply_op op (map Literal vs)
    end.
Proof.
  simpl.
  assert (E : forall l,
    (fix args_value (args : list (option AST_EXPR)) : Completion (list BinaryTree) :=
       match args with
       | [] => Return []
       | None :: _ => Throw TypeError
       | Some a :: args' =>
           match expr_value store a with
           | Throw x => Throw x
           | Return v =>
               match args_value args' with
               | Throw x => Throw x
               | Return vs => Return (v :: vs)
               end
           end
       end) l = args_value store l).
  { induction l as [|[a|] l IH]; simpl; try reflexivity. by rewrite IH. }
  by rewrite E.
Qed.

Lemma expr_rounds_OP c op args :
  expr_rounds (AST_OP c op args) = S (list_sum (map arg_cost args)).
Proof. reflexivity. Qed.

Lemma AST_EXPR_nested_ind (P : AST_EXPR -> Prop) :
  (forall i, P (AST_IDENT i)) ->
  (forall t, P (AST_TREE t)) ->
  (forall c op args,
     Forall (fun o => match o with Some a => P a | None => True end) args ->
     P (AST_OP c op args)) ->
  forall e, P e.
Proof.
  intros HI HT HO.
  fix IH 1. intros [i|t|c op args].
  - apply HI.
  - apply HT.
  - apply HO. induction args as [|[a|] args IHa]; constructor; auto.
Qed.

Lemma first_unevaluated_lits lits rest :
  first_unevaluated (map Literal lits ++ rest) = first_unevaluated rest.
Proof. induction lits as [|l lits IH]; simpl; [done|exact IH]. Qed.

Lemma replace_first_lits val lits a rest :
  replace_first val (map Literal lits ++ Expr (Some a) :: rest)
  = Return (map Literal lits ++ Literal val :: rest).
Proof. induction lits as [|l lits IH]; simpl; [done|]. by rewrite IH. Qed.

Lemma expr_loop_round fuel store curr par below :
  expr_loop (S fuel) store (curr :: par :: below)
  = match expr_round store curr (par :: below) with
    | Return exprStack' => expr_loop fuel store exprStack'
    | Throw e => Some (Throw e)
    end.
Proof. by destruct curr. Qed.

Section Machine.
Variable store : gmap string BinaryTree.

Lemma operation_frame op rest :
  Forall (fun o => match o with Some a => evaluates store a | None => True end) rest ->
  forall lits n par below,
    expr_loop (S (list_sum (map arg_cost rest)) + n) store
      (ExOperation op (map Literal lits ++ map Expr rest) :: par :: below)
    = deliver store n
        (match args_value store rest with
         | Throw x => Throw x
         | Return vs => apply_op op (map Literal (lits ++ vs))
         end) (par :: below).
Proof.
  induction 1 as [|a rest Ha Hrest IH]; intros lits n par below;
    cbn [plus]; rewrite expr_loop_round; cbn [expr_round map].
  - rewrite !app_nil_r.
    rewrite <- (app_nil_r (map Literal lits)) at 1.
    rewrite first_unevaluated_lits. cbn [first_unevaluated args_value list_sum plus].
    rewrite !app_nil_r.
    destruct (apply_op op (map Literal lits)); reflexivity.
  - rewrite first_unevaluated_lits. cbn [first_unevaluated args_value list_sum].
    destruct a as [a|]; [|reflexivity].
    cbn [arg_cost].
    change (list_sum (S (expr_rounds a) :: map arg_cost rest))
      with (S (expr_rounds a) + list_sum (map arg_cost rest)).
    replace (S (expr_rounds a) + list_sum (map arg_cost rest) + n)
      with (expr_rounds a + (S (list_sum (map arg_cost rest)) + n)) by lia.
    rewrite Ha.
    destruct (expr_value store a) as [v|x]; [|reflexivity].
    cbn [deliver _replaceArgWithLiteral].
    rewrite replace_first_lits.
    replace (map Literal lits ++ Literal v :: map Expr rest)
      with (map Literal (lits ++ [v]) ++ map Expr rest)
      by (rewrite map_app, <- app_assoc; reflexivity).
    rewrite IH.
    destruct (args_value store rest) as [vs|x]; [|reflexivity].
    by rewrite <- app_assoc.
Qed.

Lemma evaluates_all e : evaluates store e.
Proof.
  induction e as [i|t|c op args IH] using AST_EXPR_nested_ind;
    intros n par below.
  - cbn [expr_rounds plus]. rewrite expr_loop_round. simpl.
    destruct (String.eqb (ident_value i) "nil"); reflexivity.
  - reflexivity.
  - rewrite expr_rounds_OP, expr_value_OP. cbn [_copyExpr].
    exact (operation_frame op args IH [] n par below).
Qed.

Lemma _evalExpr_value expr : _evalExpr store expr = Some (slot_value store expr).
Proof.
  unfold _evalExpr. destruct expr as [e|]; [|reflexivity].
  cbn [slot_rounds slot_value].
  replace (S (expr_rounds e)) with (expr_rounds e + 1) by lia.
  rewrite evaluates_all. destruct (expr_value store e) as [v|x]; reflexivity.
Qed.

End Machine.

Lemma _evalExpr_Some store e r :
  _evalExpr store (Some e) = Some r <-> expr_value store e = r.
Proof. rewrite _evalExpr_value. simpl. split; congruence. Qed.

Lemma semantic_equations store ea eb a b c1 c2 p1 p2 :
  _evalExpr store (Some ea) = Some (Return a) ->
  _evalExpr store (Some eb) = Some (Return b) ->
  _evalExpr store (Some (hd_of c1 p1 (cons_of c2 p2 ea eb))) = Some (Return a)
  /\ _evalExpr store (Some (tl_of c1 p1 (cons_of c2 p2 ea eb))) = Some (Return b)
  /\ (a = null ->
      _evalExpr store (Some (hd_of c1 p1 ea)) = Some (Return null)
      /\ _evalExpr store (Some (tl_of c1 p1 ea)) = Some (Return null)).
Proof.
  rewrite !_evalExpr_Some. intros Ha Hb.
  unfold hd_of, tl_of, cons_of.
  rewrite !expr_value_OP. cbn [args_value]. rewrite !expr_value_OP.
  cbn [args_value]. rewrite Ha, Hb. repeat split; try reflexivity.
  all: subst a; reflexivity.
Qed.

Lemma unset_identifier store x p :
  store !! x = None ->
  _evalExpr store (Some (AST_IDENT {| ident_value := x; ident_pos := p |}))
  = Some (Return null).
Proof.
  intros H. rewrite _evalExpr_value. simpl. unfold store_get. rewrite H.
  by destruct (String.eqb x "nil").
Qed.

Lemma cmd_assigns_IF x c cond i e :
  cmd_assigns x (AST_IF c cond i e) = block_assigns x i || block_assigns x e.
Proof. reflexivity. Qed.
Lemma cmd_assigns_WHILE x c cond b :
  cmd_assigns x (AST_WHILE c cond b) = block_assigns x b.
Proof. reflexivity. Qed.

Lemma cmd_round_unassigned x store op stk store' stk' :
  cmd_round store op stk = Some (Return (store', stk')) ->
  frame_assigns x op = false ->
  existsb (frame_assigns x) stk = false ->
  store' !! x = store !! x /\ existsb (frame_assigns x) stk' = false.
Proof.
  intros R F S. destruct op as [[[c i arg|c cond i e|c cond b|c cond cs d]|]|body];
    simpl in R.
  - destruct (_evalExpr store arg) as [[v|]|]; inversion R; subst.
    split; [|done]. simpl in F. apply String.eqb_neq in F.
    by apply lookup_insert_ne.
  - cbn [frame_assigns slot_assigns] in F.
    rewrite cmd_assigns_IF in F. apply orb_false_elim in F.
    destruct F as [F1 F2].
    destruct (_evalExpr store cond) as [[v|]|]; [|done|done].
    destruct (negb (is_null v)); inversion R; subst;
      cbn [existsb frame_assigns]; rewrite ?F1, ?F2; auto.
  - cbn [frame_assigns slot_assigns] in F. rewrite cmd_assigns_WHILE in F.
    destruct (_evalExpr store cond) as [[v|]|]; [|done|done].
    destruct (negb (is_null v)); inversion R; subst; [|done].
    cbn [existsb frame_assigns slot_assigns].
    rewrite cmd_assigns_WHILE, F. auto.
  - discriminate.
  - discriminate.
  - destruct body as [|first [|second rest]]; inversion R; subst;
      (split; [done|]); [done| |].
    + change (slot_assigns x first || false = false) in F.
      rewrite orb_false_r in F.
      change (slot_assigns x first || existsb (frame_assigns x) stk = false).
      by rewrite F.
    + change (slot_assigns x first || block_assigns x (second :: rest) = false) in F.
      apply orb_false_elim in F. destruct F as [F1 F2].
      change (slot_assigns x first
              || (block_assigns x (second :: rest)
                  || existsb (frame_assigns x) stk) = false).
      by rewrite F1, F2.
Qed.

Lemma cmd_loop_unassigned x fuel : forall store stk r store',
  cmd_loop fuel store stk = Some (r, store') ->
  existsb (frame_assigns x) stk = false ->
  store' !! x = store !! x.
Proof.
  induction fuel as [|fuel IH]; intros store stk r store' L S; [discriminate|].
  simpl in L. destruct stk as [|op stk]; [by inversion L|].
  simpl in S. apply orb_false_elim in S. destruct S as [S1 S2].
  destruct (cmd_round store op stk) as [[[st1 stk1]|e]|] eqn:R; [| |done].
  - destruct (cmd_round_unassigned x _ _ _ _ _ R S1 S2) as [E1 E2].
    rewrite <- E1. by eapply IH.
  - by inversion L.
Qed.

Lemma run_inv fuel i r i' :
  run fuel i = Some (r, i') ->
  exists c store',
    cmd_loop fuel (_store i) [ExBlock (prog_body (_program i))] = Some (c, store')
    /\ i' = with_store i store'
    /\ r = match c with
           | Throw e => Throw e
           | Return _ =>
               match prog_output (_program i) with
               | Some out => Return (store_get store' (ident_value out))
               | None => Throw TypeError
               end
           end.
Proof.
  unfold run. destruct (cmd_loop _ _ _) as [[[u|e] store']|]; [| |done].
  - destruct (prog_output _); intros H; inversion H; subst; eauto.
  - intros H; inversion H; subst; eauto.
Qed.

Lemma unset_variables ast input i fuel out i' :
  new_Interpreter ast input = Return i ->
  run fuel i = Some (Return out, i') ->
  (exists inp o,
     prog_input ast = Some inp /\ prog_output ast = Some o
     /\ out = default null (_store i' !! ident_value o)
     /\ forall x p,
          x <> ident_value inp -> block_assigns x (prog_body ast) = false ->
          _store i' !! x = None
          /\ _evalExpr (_store i')
               (Some (AST_IDENT {| ident_value := x; ident_pos := p |}))
             = Some (Return null))
  /\ forall store x p,
       store !! x = None ->
       _evalExpr store (Some (AST_IDENT {| ident_value := x; ident_pos := p |}))
       = Some (Return null).
Proof.
  intros N R. split; [|intros; by apply unset_identifier].
  unfold new_Interpreter in N. destruct (prog_input ast) as [inp|] eqn:I; [|done].
  inversion N; subst; clear N.
  apply run_inv in R. destruct R as (c & store' & L & -> & E). simpl in *.
  destruct c as [u|e]; [|done].
  destruct (prog_output ast) as [o|]; [|done]. inversion E; subst.
  exists inp, o. repeat split; try done.
  - eapply cmd_loop_unassigned in L.
    + rewrite L, lookup_insert_ne by done. apply lookup_empty.
    + simpl. by rewrite H0.
  - apply unset_identifier.
    eapply cmd_loop_unassigned in L.
    + rewrite L, lookup_insert_ne by done. apply lookup_empty.
    + simpl. by rewrite H0.
Qed.

Lemma _numToTree_loop_Tree n t :
  _numToTree_loop n (Tree null t) = Tree null (_numToTree_loop n t).
Proof. revert t. induction n as [|n IH]; intros t; simpl; [done|]. by rewrite IH. Qed.

Lemma _numToTree_S n : _numToTree (S n) = Tree null (_numToTree n).
Proof. unfold _numToTree. simpl. apply _numToTree_loop_Tree. Qed.

Lemma loop_round store c cond body stk v :
  _evalExpr store cond = Some (Return v) ->
  cmd_round store (ExCmd (Some (AST_WHILE c cond body))) stk
  = if is_null v then Some (Return (store, stk))
    else Some (Return (store,
                 ExBlock body :: ExCmd (Some (AST_WHILE c cond body)) :: stk)).
Proof. intros E. simpl. rewrite E. by destruct v. Qed.

Lemma run_again fuel i r i' :
  run fuel i = Some (r, i') ->
  _program i' = _program i /\ _input i' = _input i
  /\ (exists c, cmd_loop fuel (_store i) [ExBlock (prog_body (_program i))]
                = Some (c, _store i'))
  /\ forall fuel2,
       run fuel2 i'
       = match cmd_loop fuel2 (_store i') [ExBlock (prog_body (_program i))] with
         | None => None
         | Some (Throw e, store) => Some (Throw e, with_store i store)
         | Some (Return _, store) =>
             match prog_output (_program i) with
             | Some out =>
                 Some (Return (store_get store (ident_value out)), with_store i store)
             | None => Some (Throw TypeError, with_store i store)
             end
         end.
Proof.
  intros R. apply run_inv in R. destruct R as (c & store' & L & -> & E).
  simpl. repeat split; eauto.
Qed.

(** ** The claims about the interpreter *)

(** C3: for all expressions [ea], [eb] that evaluate to the trees [a], [b]:
    [hd (cons ea eb)] evaluates to [a] and [tl (cons ea eb)] to [b]; and when
    [a] is nil, [hd ea] and [tl ea] evaluate to nil, without an error. *)
Theorem hd_tl_cons_equations (store : gmap string BinaryTree)
    (ea eb : AST_EXPR) (a b : BinaryTree) (c1 c2 : bool) (p1 p2 : Position) :
  _evalExpr store (Some ea) = Some (Return a) ->
  _evalExpr store (Some eb) = Some (Return b) ->
  _evalExpr store (Some (hd_of c1 p1 (cons_of c2 p2 ea eb))) = Some (Return a)
  /\ _evalExpr store (Some (tl_of c1 p1 (cons_of c2 p2 ea eb))) = Some (Return b)
  /\ (a = null ->
      _evalExpr store (Some (hd_of c1 p1 ea)) = Some (Return null)
      /\ _evalExpr store (Some (tl_of c1 p1 ea)) = Some (Return null)).
Proof. apply semantic_equations. Qed.

Lemma hd_tl_cons_equations_witness :
  let store : gmap string BinaryTree := <["X" := Tree null null]> ∅ in
  let nil_ := Fixtures.var "nil" in
  let x := Fixtures.var "X" in
  let p := Fixtures.here in
  _evalExpr store (Some nil_) = Some (Return null)
  /\ _evalExpr store (Some x) = Some (Return (Tree null null))
  /\ _evalExpr store (Some (hd_of true p (cons_of true p nil_ x)))
     = Some (Return null)
  /\ _evalExpr store (Some (tl_of true p (cons_of true p nil_ x)))
     = Some (Return (Tree null null))
  /\ (null = null ->
      _evalExpr store (Some (hd_of true p nil_)) = Some (Return null)
      /\ _evalExpr store (Some (tl_of true p nil_)) = Some (Return null)).
Proof.
  cbv zeta.
  split; [vm_compute; reflexivity|]. split; [vm_compute; reflexivity|].
  apply (hd_tl_cons_equations (<["X" := Tree null null]> ∅)
           (Fixtures.var "nil") (Fixtures.var "X") null (Tree null null)
           true true Fixtures.here Fixtures.here);
    vm_compute; reflexivity.
Defined.

(** C4: the parsed [add] program, run on [(encode 3, encode 2)], returns
    [encode 5], where [encode] is [_numToTree], which has the equations of
    the numeric encoding; and a loop whose condition is not nil is put back
    on the stack under the block of its body (when it is nil the loop is
    dropped). *)
Theorem add_program_runs :
  (exists ast i i',
     Parser.parser Fixtures.add_program None = Some (ast, [], [])
     /\ new_Interpreter ast (Tree (_numToTree 3) (_numToTree 2)) = Return i
     /\ run 100 i = Some (Return (_numToTree 5), i'))
  /\ (_numToTree 0 = null /\ forall n, _numToTree (S n) = Tree null (_numToTree n))
  /\ (forall store c cond body stk v,
        _evalExpr store cond = Some (Return v) ->
        cmd_round store (ExCmd (Some (AST_WHILE c cond body))) stk
        = if is_null v then Some (Return (store, stk))
          else Some (Return (store,
                       ExBlock body
                       :: ExCmd (Some (AST_WHILE c cond body)) :: stk))).
Proof.
  split; [|split].
  - eexists _, _, _. split; [vm_compute; reflexivity|].
    split; [vm_compute; reflexivity|]. vm_compute; reflexivity.
  - split; [reflexivity|]. apply _numToTree_S.
  - intros. by apply loop_round.
Qed.

(** C7: in a run that returns, the value returned is the binding of the
    output identifier in the store, nil when there is none; an identifier
    other than the input variable that no assignment of the program names is
    not bound at the end and evaluates to nil; and in any store an
    identifier that is not bound evaluates to nil. *)
Theorem unset_variables_are_nil (ast : AST_PROG) (input : BinaryTree)
    (i : Interpreter) (fuel : nat) (out : BinaryTree) (i' : Interpreter) :
  new_Interpreter ast input = Return i ->
  run fuel i = Some (Return out, i') ->
  (exists inp o,
     prog_input ast = Some inp /\ prog_output ast = Some o
     /\ out = default null (_store i' !! ident_value o)
     /\ forall x p,
          x <> ident_value inp -> block_assigns x (prog_body ast) = false ->
          _store i' !! x = None
          /\ _evalExpr (_store i')
               (Some (AST_IDENT {| ident_value := x; ident_pos := p |}))
             = Some (Return null))
  /\ forall store x p,
       store !! x = None ->
       _evalExpr store (Some (AST_IDENT {| ident_value := x; ident_pos := p |}))
       = Some (Return null).
Proof. apply unset_variables. Qed.

Lemma unset_variables_are_nil_witness :
  let i := {| _program := Fixtures.copy_unset_program; _input := Tree null null;
              _store := <["X" := Tree null null]> ∅ |} in
  let i' := with_store i (<["Y" := null]> (<["X" := Tree null null]> ∅)) in
  new_Interpreter Fixtures.copy_unset_program (Tree null null) = Return i
  /\ run 5 i = Some (Return null, i')
  /\ _store i' !! "Z" = None
  /\ _evalExpr (_store i') (Some (Fixtures.var "Z")) = Some (Return null).
Proof.
  cbv zeta.
  assert (N : new_Interpreter Fixtures.copy_unset_program (Tree null null)
              = Return {| _program := Fixtures.copy_unset_program;
                          _input := Tree null null;
                          _store := <["X" := Tree null null]> ∅ |})
    by reflexivity.
  split; [exact N|].
  match goal with |- ?R /\ _ => assert (H : R) by (vm_compute; reflexivity) end.
  split; [exact H|].
  destruct (unset_variables_are_nil _ _ _ _ _ _ N H) as [(inp & o & I & O & E & U) _].
  inversion I; subst. apply (U "Z" Fixtures.here); [discriminate|reflexivity].
Defined.

(** C10: [run] starts from the store as the interpreter holds it: the
    constructor alone binds the input, and after a run the interpreter holds
    the store that run ended with, the same program and input.  A second
    [run] executes the body from that store; when the first run changed the
    store, that is not the store with the input binding only. *)
Theorem run_keeps_the_store (ast : AST_PROG) (input : BinaryTree)
    (i : Interpreter) (fuel : nat) (r : Completion BinaryTree)
    (i' : Interpreter) :
  new_Interpreter ast input = Return i ->
  run fuel i = Some (r, i') ->
  (exists inp,
     prog_input ast = Some inp
     /\ _store i = <[ident_value inp := input]> ∅
     /\ (_store i' <> _store i ->
         _store i' <> <[ident_value inp := input]> ∅))
  /\ _program i' = ast /\ _input i' = input
  /\ (exists c, cmd_loop fuel (_store i) [ExBlock (prog_body ast)]
                = Some (c, _store i'))
  /\ forall fuel2,
       run fuel2 i'
       = match cmd_loop fuel2 (_store i') [ExBlock (prog_body ast)] with
         | None => None
         | Some (Throw e, store) => Some (Throw e, with_store i store)
         | Some (Return _, store) =>
             match prog_output ast with
             | Some o =>
                 Some (Return (store_get store (ident_value o)), with_store i store)
             | None => Some (Throw TypeError, with_store i store)
             end
         end.
Proof.
  intros N R. unfold new_Interpreter in N.
  destruct (prog_input ast) as [inp|] eqn:I; [|done].
  inversion N; subst; clear N.
  apply run_again in R. simpl in R.
  destruct R as (P & In & L & R2). split; [|done].
  exists inp. simpl. by repeat split.
Qed.

Lemma run_keeps_the_store_witness :
  let i := {| _program := Fixtures.grow_program; _input := null;
              _store := <["X" := null]> ∅ |} in
  let i' := with_store i (<["Y" := Tree null null]> (<["X" := null]> ∅)) in
  new_Interpreter Fixtures.grow_program null = Return i
  /\ run 5 i = Some (Return (Tree null null), i')
  /\ _store i' <> <["X" := null]> ∅
  /\ (exists i'', run 5 i' = Some (Return (Tree null (Tree null null)), i'')).
Proof.
  cbv zeta.
  assert (N : new_Interpreter Fixtures.grow_program null
              = Return {| _program := Fixtures.grow_program; _input := null;
                          _store := <["X" := null]> ∅ |})
    by reflexivity.
  split; [exact N|].
  match goal with |- ?R /\ _ => assert (H : R) by (vm_compute; reflexivity) end.
  split; [exact H|].
  destruct (run_keeps_the_store _ _ _ _ _ _ N H)
    as ((inp & I & S0 & D) & _ & _ & _ & R2).
  inversion I; subst. split.
  - apply D. intros E.
    apply (f_equal (fun m : gmap string BinaryTree => m !! "Y")) in E.
    vm_compute in E. discriminate E.
  - rewrite R2. eexists. vm_compute. reflexivity.
Defined.

End InterpFacts.

(** * Properties of the evaluator over shared arrays *)
Module SharedFacts.
Import Syntax Interp Shared InterpFacts.

Lemma _copyExpr_kept base h0 h expr copy h' :
  kept base h0 h -> Shared._copyExpr h expr = Return (copy, h') ->
  kept base h0 h' /\ own_array base copy.
Proof.
  intros [L K] C. destruct expr as [[v p|t|c op a|t|a|]|]; simpl in C;
    try (inversion C; subst; by repeat split).
  - destruct (h !! a) as [slots|]; inversion C; subst. split; [|exact L].
    split; [rewrite length_app; lia|].
    intros b Hb. rewrite lookup_app_l by lia. by apply K.
  - destruct (h !! a) as [slots|]; inversion C; subst. split; [|exact L].
    split; [rewrite length_app; lia|].
    intros b Hb. rewrite lookup_app_l by lia. by apply K.
Qed.

Lemma _replaceArgWithLiteral_kept base h0 h val stack h' stack' :
  kept base h0 h -> Forall (own_array base) stack ->
  Shared._replaceArgWithLiteral val h stack = Return (h', stack') ->
  kept base h0 h' /\ Forall (own_array base) stack'.
Proof.
  intros [L K] F R. destruct stack as [|par rest]; [done|].
  assert (O : own_array base par) by (by inversion F).
  destruct par as [v p|t|c op a|t|a|]; simpl in R; try done.
  - destruct (h !! a) as [slots|]; [|done].
    destruct (Shared.replace_first val slots) as [slots'|]; inversion R; subst.
    split; [|done]. split; [by rewrite length_insert|].
    intros b Hb. simpl in O. rewrite list_lookup_insert_ne by lia. by apply K.
  - destruct (h !! a) as [slots|]; [|done].
    destruct (Shared.replace_first val slots) as [slots'|]; inversion R; subst.
    split; [|done]. split; [by rewrite length_insert|].
    intros b Hb. simpl in O. rewrite list_lookup_insert_ne by lia. by apply K.
Qed.

Lemma expr_round_kept base h0 store h curr stack h' stack' :
  kept base h0 h -> own_array base curr -> Forall (own_array base) stack ->
  Shared.expr_round store h curr stack = Return (h', stack') ->
  kept base h0 h' /\ Forall (own_array base) stack'.
Proof.
  intros K O F R. destruct curr as [v p|t|c op a|t|a|];
    unfold Shared.expr_round in R; try done.
  - destruct (String.eqb v "nil");
      eapply _replaceArgWithLiteral_kept; eauto.
  - destruct (h !! a) as [slots|]; [|done].
    destruct (Shared.first_unevaluated slots) as [[arg|]|]; [|done|].
    + destruct (Shared._copyExpr h (Some arg)) as [[copy h1]|] eqn:C;
        [|discriminate R].
      inversion R; subst.
      destruct (_copyExpr_kept _ _ _ _ _ _ K C) as [K1 O1].
      split; [done|]. by repeat constructor.
    + destruct (Shared.apply_op op slots); [|discriminate R].
      eapply _replaceArgWithLiteral_kept; eauto.
Qed.

Lemma shared_expr_loop_round fuel store h curr par rest :
  Shared.expr_loop (S fuel) store h (curr :: par :: rest)
  = match Shared.expr_round store h curr (par :: rest) with
    | Return (h', exprStack') => Shared.expr_loop fuel store h' exprStack'
    | Throw e => (Some (Throw e), h)
    end.
Proof. by destruct curr. Qed.

Lemma expr_loop_kept base h0 fuel store : forall h stack,
  kept base h0 h -> Forall (own_array base) stack ->
  kept base h0 (snd (Shared.expr_loop fuel store h stack)).
Proof.
  induction fuel as [|fuel IH]; intros h stack K F; [done|].
  destruct stack as [|curr [|par rest]].
  - done.
  - by destruct curr.
  - rewrite shared_expr_loop_round. inversion F; subst.
    destruct (Shared.expr_round store h curr (par :: rest)) as [[h1 st1]|] eqn:R.
    + destruct (expr_round_kept _ _ _ _ _ _ _ _ K H1 H2 R). by apply IH.
    + done.
Qed.

Lemma arguments_unchanged fuel store h expr a :
  a < length h ->
  snd (Shared._evalExpr fuel store h expr) !! a = h !! a.
Proof.
  intros Ha. unfold Shared._evalExpr.
  assert (K0 : kept (length h) h (h ++ [[expr]])).
  { split; [rewrite length_app; lia|]. intros b Hb. by rewrite lookup_app_l. }
  destruct (Shared._copyExpr (h ++ [[expr]]) expr) as [[copy h1]|e] eqn:C.
  - destruct (_copyExpr_kept _ _ _ _ _ _ K0 C) as [K1 O1].
    refine (proj2 (expr_loop_kept (length h) h fuel store h1
                     [copy; NRoot (length h)] K1 _) a Ha).
    constructor; [exact O1|]. constructor; [simpl; lia|constructor].
  - by apply K0.
Qed.

(** ** The two evaluators agree *)

Lemma repr_OP h base c op args n :
  repr h base (AST_OP c op args) n
  <-> exists a slots,
        n = NOperation c op a /\ a < base /\ h !! a = Some slots
        /\ slots_repr h base args slots.
Proof.
  simpl.
  assert (E : forall args slots,
    (fix all2 (args : list (option AST_EXPR)) (slots : list (option NODE))
       {struct args} : Prop :=
       match args, slots with
       | [], [] => True
       | None :: args', None :: slots' => all2 args' slots'
       | Some e' :: args', Some n' :: slots' =>
           repr h base e' n' /\ all2 args' slots'
       | _, _ => False
       end) args slots <-> slots_repr h base args slots).
  { induction args0 as [|[e'|] args' IH]; intros [|[n'|] slots']; simpl;
      try tauto; rewrite ?IH; tauto. }
  split; intros (a & slots & H1 & H2 & H3 & H4); exists a, slots;
    repeat split; try done; by apply E.
Qed.

Lemma repr_agree base base' h h' e : forall n,
  (forall a, a < base -> h' !! a = h !! a) -> base <= base' ->
  repr h base e n -> repr h' base' e n.
Proof.
  induction e as [i|t|c op args IH] using AST_EXPR_nested_ind; intros n A B R;
    try exact R.
  apply repr_OP in R. apply repr_OP.
  destruct R as (a & slots & -> & L & H & S). exists a, slots.
  repeat split; try done; [lia|by rewrite A|].
  clear H. revert slots S. induction IH as [|[e'|] args' He' _ IHa];
    intros [|[n'|] slots'] S; simpl in *; try done.
  - destruct S as [S1 S2]. split; [by apply He'|by apply IHa].
  - by apply IHa.
Qed.

Lemma slots_repr_agree base base' h h' args slots :
  (forall a, a < base -> h' !! a = h !! a) -> base <= base' ->
  slots_repr h base args slots -> slots_repr h' base' args slots.
Proof.
  intros A B. revert slots. induction args as [|[e'|] args' IH];
    intros [|[n'|] slots'] S; simpl in *; try done.
  - destruct S as [S1 S2]. split; [by eapply repr_agree|by apply IH].
  - by apply IH.
Qed.

Lemma shared_first_unevaluated_lits lits rest :
  Shared.first_unevaluated (literals lits ++ rest) = Shared.first_unevaluated rest.
Proof. induction lits as [|l lits IH]; simpl; [done|exact IH]. Qed.

Lemma shared_replace_first_lits val lits n rest :
  (forall t, n <> NLiteral t) ->
  Shared.replace_first val (literals lits ++ Some n :: rest)
  = Return (literals lits ++ Some (NLiteral val) :: rest).
Proof.
  intros N. induction lits as [|l lits IH]; simpl.
  - destruct n; try done. by specialize (N tree).
  - by rewrite IH.
Qed.

Lemma repr_not_literal h base e n : repr h base e n -> forall t, n <> NLiteral t.
Proof.
  destruct e as [i|t'|c op args]; simpl.
  - by intros ->.
  - by intros ->.
  - by intros (a & slots & -> & _).
Qed.

Lemma shared_apply_op_literals op lits :
  Shared.apply_op op (literals lits) = Interp.apply_op op (map Literal lits).
Proof.
  unfold Shared.apply_op, Interp.apply_op, Shared.literal_at, Interp.literal_at,
    literals.
  rewrite !list_lookup_fmap.
  destruct (lits !! 0), (lits !! 1); reflexivity.
Qed.

Lemma shared_first_unevaluated_repr h base args slots :
  slots_repr h base args slots ->
  Shared.first_unevaluated slots
  = match args, slots with
    | _ :: _, s :: _ => Some s
    | _, _ => None
    end.
Proof.
  destruct args as [|[e'|] args'], slots as [|[n'|] slots']; simpl; try done.
  intros [R _]. pose proof (repr_not_literal _ _ _ _ R) as N.
  destruct n'; try done. by specialize (N tree).
Qed.

Lemma _copyExpr_repr h base e n :
  repr h base e n -> base <= length h ->
  exists copy h', Shared._copyExpr h (Some n) = Return (copy, h')
    /\ kept (length h) h h'.
Proof.
  intros R B.
  assert (K : kept (length h) h h) by (by split).
  destruct e as [i|t|c op args].
  - simpl in R. subst. by eexists _, _.
  - simpl in R. subst. by eexists _, _.
  - apply repr_OP in R. destruct R as (a & slots & -> & L & H & S).
    simpl. rewrite H. eexists _, _. split; [done|].
    split; [rewrite length_app; lia|].
    intros b Hb. by rewrite lookup_app_l.
Qed.

Section SharedMachine.
Variable store : gmap string BinaryTree.

Lemma shared_operation_frame c op rest :
  Forall (fun o => match o with Some a => evaluates_shared store a | None => True end) rest ->
  forall base lits slots h a0 k par below,
    slots_repr h base rest slots -> base <= a0 -> a0 < length h ->
    h !! a0 = Some (literals lits ++ slots) ->
    exists h1, kept a0 h h1
      /\ Shared.expr_loop (S (list_sum (map arg_cost rest)) + k) store h
           (NOperation c op a0 :: par :: below)
         = deliver_shared store k
             (match args_value store rest with
              | Throw x => Throw x
              | Return vs => Interp.apply_op op (map Literal (lits ++ vs))
              end) h1 (par :: below).
Proof.
  induction 1 as [|a rest Ha Hrest IH];
    intros base lits slots h a0 k par below SR B L H;
    cbn [plus]; rewrite shared_expr_loop_round; cbn [Shared.expr_round];
    rewrite H, shared_first_unevaluated_lits.
  - destruct slots; [|done]. exists h. split; [split; [lia|done]|].
    cbn [Shared.first_unevaluated args_value]. rewrite !app_nil_r.
    rewrite shared_apply_op_literals.
    destruct (Interp.apply_op op (map Literal lits)); reflexivity.
  - destruct a as [e|], slots as [|[n'|] slots']; try done.
    + destruct SR as [R SR].
      rewrite (shared_first_unevaluated_repr h base (Some e :: rest)
                 (Some n' :: slots')) by (by split).
      destruct (_copyExpr_repr _ _ _ _ R ltac:(lia)) as (copy & h' & C & K).
      rewrite C. cbn [map arg_cost args_value].
      change (list_sum (S (expr_rounds e) :: map arg_cost rest))
        with (S (expr_rounds e) + list_sum (map arg_cost rest)).
      replace (S (expr_rounds e) + list_sum (map arg_cost rest) + k)
        with (expr_rounds e + (S (list_sum (map arg_cost rest)) + k)) by lia.
      destruct (Ha base h n' copy h' (S (list_sum (map arg_cost rest)) + k)
                  (NOperation c op a0) (par :: below) R ltac:(lia) C)
        as (h1 & [L1 K1] & ->).
      destruct (expr_value store e) as [v|x].
      * cbn [deliver_shared Shared._replaceArgWithLiteral].
        rewrite (K1 a0 L), H.
        rewrite (shared_replace_first_lits v lits n' slots'
                   (repr_not_literal _ _ _ _ R)).
        destruct (IH base (lits ++ [v]) slots'
                    (<[a0 := literals lits ++ Some (NLiteral v) :: slots']> h1)
                    a0 k par below) as (h2 & [L2 K2] & ->).
        { eapply slots_repr_agree; [|reflexivity|exact SR].
          intros b Hb. rewrite list_lookup_insert_ne by lia. apply K1. lia. }
        { exact B. }
        { rewrite length_insert. lia. }
        { rewrite list_lookup_insert_eq by lia.
          unfold literals. by rewrite map_app, <- app_assoc. }
        exists h2. split.
        { split; [lia|]. intros b Hb. rewrite K2 by lia.
          rewrite list_lookup_insert_ne by lia. apply K1. lia. }
        destruct (args_value store rest) as [vs|x]; [|reflexivity].
        by rewrite <- app_assoc.
      * exists h1. split; [|reflexivity].
        split; [lia|]. intros b Hb. apply K1. lia.
    + exists h. split; [split; [lia|done]|].
      reflexivity.
Qed.

Lemma evaluates_shared_all e : evaluates_shared store e.
Proof.
  induction e as [i|t|c op args IH] using AST_EXPR_nested_ind;
    intros base h n copy h' k par below R B C.
  - simpl in R. subst n. inversion C; subst. exists h'. split; [by split|].
    cbn [expr_rounds plus]. rewrite shared_expr_loop_round. simpl.
    destruct (String.eqb (ident_value i) "nil"); reflexivity.
  - simpl in R. subst n. inversion C; subst. exists h'. split; [by split|].
    reflexivity.
  - apply repr_OP in R. destruct R as (a & slots & -> & L & H & SR).
    simpl in C. rewrite H in C. inversion C; subst.
    rewrite expr_rounds_OP, expr_value_OP.
    destruct (shared_operation_frame c op args IH base [] slots (h ++ [slots])
                (length h) k par below) as (h1 & [L1 K1] & ->).
    + eapply slots_repr_agree; [|reflexivity|exact SR].
      intros b Hb. rewrite lookup_app_l by lia. done.
    + exact B.
    + rewrite length_app. simpl. lia.
    + rewrite lookup_app_r by lia. by rewrite Nat.sub_diag.
    + exists h1. split; [|reflexivity]. split; [lia|].
      intros b Hb. rewrite K1 by lia. by rewrite lookup_app_l.
Qed.

Lemma shared_evalExpr_repr base h e n :
  repr h base e n -> base <= length h ->
  fst (Shared._evalExpr (S (expr_rounds e)) store h (Some n))
  = Interp._evalExpr store (Some e).
Proof.
  intros R B. rewrite _evalExpr_value. cbn [slot_value].
  unfold Shared._evalExpr.
  assert (R0 : repr (h ++ [[Some n]]) base e n).
  { eapply repr_agree; [|reflexivity|exact R].
    intros b Hb. by rewrite lookup_app_l by lia. }
  assert (B0 : base <= length (h ++ [[Some n]])) by (rewrite length_app; lia).
  destruct (_copyExpr_repr _ _ _ _ R0 B0) as (copy & h' & C & K).
  rewrite C.
  replace (S (expr_rounds e)) with (expr_rounds e + 1) by lia.
  destruct (evaluates_shared_all e base _ n copy h' 1 (NRoot (length h)) []
              R0 B0 C) as (h1 & [L1 K1] & ->).
  destruct (expr_value store e) as [v|x]; [|reflexivity].
  cbn [deliver_shared Shared._replaceArgWithLiteral].
  rewrite length_app in *. simpl in *.
  rewrite K1 by lia. rewrite lookup_app_r by lia. rewrite Nat.sub_diag.
  change ([[Some n]] !! 0) with (Some [Some n]). cbv beta iota.
  pose proof (shared_replace_first_lits v [] n []
                (repr_not_literal _ _ _ _ R)) as E.
  cbn [literals map app] in E. rewrite E.
  cbn [Shared.expr_loop fst].
  rewrite list_lookup_insert_eq by lia. reflexivity.
Qed.

End SharedMachine.

Lemma alloc_expr_OP c op args h :
  alloc_expr (AST_OP c op args) h
  = let '(slots, h1) := alloc_args args h in
    (NOperation c op (length h1), h1 ++ [slots]).
Proof.
  simpl.
  assert (E : forall args h,
    (fix alloc_args (args : list (option AST_EXPR)) (h : list (list (option NODE)))
       : list (option NODE) * list (list (option NODE)) :=
       match args with
       | [] => ([], h)
       | None :: args' =>
           let '(s, h') := alloc_args args' h in (None :: s, h')
       | Some e' :: args' =>
           let '(n, h1) := alloc_expr e' h in
           let '(s, h2) := alloc_args args' h1 in (Some n :: s, h2)
       end) args h = alloc_args args h).
  { induction args0 as [|[e'|] args' IH]; intros h0; simpl;
      first [reflexivity | by rewrite IH
            | destruct (alloc_expr e' h0) as [n h1]; by rewrite IH]. }
  by rewrite E.
Qed.

Lemma alloc_expr_repr e : forall h n h',
  alloc_expr e h = (n, h') ->
  kept (length h) h h' /\ repr h' (length h') e n.
Proof.
  induction e as [i|t|c op args IH] using AST_EXPR_nested_ind; intros h n h' A.
  - inversion A; subst. by repeat split.
  - inversion A; subst. by repeat split.
  - rewrite alloc_expr_OP in A.
    assert (SA : forall h slots h1, alloc_args args h = (slots, h1) ->
              kept (length h) h h1 /\ slots_repr h1 (length h1) args slots).
    { clear A. induction IH as [|[e'|] args' He' _ IHa]; intros h0 slots h1 A;
        simpl in A.
      - inversion A; subst. by repeat split.
      - destruct (alloc_expr e' h0) as [n1 h2] eqn:A1.
        destruct (alloc_args args' h2) as [s h3] eqn:A2.
        inversion A; subst.
        destruct (He' _ _ _ A1) as [[L1 K1] R1].
        destruct (IHa _ _ _ A2) as [[L2 K2] R2].
        split; [split; [lia|]|].
        + intros b Hb. rewrite K2 by lia. by apply K1.
        + split; [|exact R2].
          eapply repr_agree; [|exact L2|exact R1]. exact K2.
      - destruct (alloc_args args' h0) as [s h3] eqn:A2.
        inversion A; subst. by apply IHa. }
    destruct (alloc_args args h) as [slots h1] eqn:A1.
    inversion A; subst.
    destruct (SA _ _ _ A1) as [[L1 K1] R1].
    split; [split; [rewrite length_app; lia|]|].
    + intros b Hb. rewrite lookup_app_l by lia. by apply K1.
    + apply repr_OP. exists (length h1), slots.
      rewrite length_app. simpl.
      split; [done|]. split; [lia|]. split.
      * rewrite lookup_app_r by lia. by rewrite Nat.sub_diag.
      * eapply slots_repr_agree; [| |exact R1]; [|lia].
        intros b Hb. by rewrite lookup_app_l by lia.
Qed.

(** The evaluator over shared arrays and the evaluator over values give the
    same result on every expression. *)
Theorem shared_evalExpr_agrees (store : gmap string BinaryTree) (e : AST_EXPR)
    (h : list (list (option NODE))) :
  fst (Shared._evalExpr (S (expr_rounds e)) store (snd (alloc_expr e h))
         (Some (fst (alloc_expr e h))))
  = Interp._evalExpr store (Some e).
Proof.
  destruct (alloc_expr e h) as [n h'] eqn:A.
  destruct (alloc_expr_repr e h n h' A) as [_ R].
  by apply (shared_evalExpr_repr store (length h') h' e n R).
Qed.

(** C8: evaluating an expression changes no argument array that was there
    before the call, whatever the arrays and the expression: the frames the
    evaluator writes into hold the arrays [_copyExpr] made.  So the argument
    lists of the AST, and those of the siblings, hold after the call what
    they held before. *)
Theorem arguments_not_mutated (fuel : nat) (store : gmap string BinaryTree)
    (h : list (list (option NODE))) (expr : option NODE) (a : nat) :
  a < length h ->
  snd (Shared._evalExpr fuel store h expr) !! a = h !! a.
Proof. apply arguments_unchanged. Qed.

Lemma arguments_not_mutated_witness :
  let x := NIdentifier "X" Fixtures.here in
  let h := [[Some x; Some x]] in
  let e := NOperation true {| op_value := "cons"; op_pos := Fixtures.here |} 0 in
  0 < length h
  /\ Shared._evalExpr 10 (<["X" := Tree null null]> ∅) h (Some e)
     = (Some (Return (Tree (Tree null null) (Tree null null))),
        [[Some x; Some x];
         [Some (NLiteral (Tree (Tree null null) (Tree null null)))];
         [Some (NLiteral (Tree null null)); Some (NLiteral (Tree null null))]])
  /\ snd (Shared._evalExpr 10 (<["X" := Tree null null]> ∅) h (Some e)) !! 0
     = h !! 0.
Proof.
  cbv zeta.
  split; [simpl; lia|]. split; [vm_compute; reflexivity|].
  apply (arguments_not_mutated 10 (<["X" := Tree null null]> ∅)
           [[Some (NIdentifier "X" Fixtures.here);
             Some (NIdentifier "X" Fixtures.here)]]).
  simpl; lia.
Defined.

End SharedFacts.

(** * Properties of the display *)
Module PadFacts.
Import Syntax Pad.

(** C9: [displayPad] of [[0, [[':=', 1, ['quote','nil']]], 1]] in the HWHILE
    format is exactly the three lines below, each ended by a newline. *)
Theorem display_assignment_and_nil :
  displayPad HWHILE_DISPLAY_FORMAT (0, [PadAssign 1 PadQuoteNil], 1)
  = "[0, [" +:+ newline
    +:+ "    [@:=, 1, [@quote, nil]]" +:+ newline
    +:+ "], 1]" +:+ newline.
Proof. reflexivity. Qed.

(** The displays the other tests of [displayPad] expect. *)
Example display_assignment_lines :
  displayPad HWHILE_DISPLAY_FORMAT (0, [PadAssign 1 PadQuoteNil], 1)
  = lines ["[0, ["; "    [@:=, 1, [@quote, nil]]"; "], 1]"].
Proof. reflexivity. Qed.

Example display_operations :
  displayPad HWHILE_DISPLAY_FORMAT
    (0, [PadAssign 1 (PadHd (PadVar 0)); PadAssign 2 (PadTl (PadVar 0));
         PadAssign 3 (PadCons (PadVar 1) (PadVar 2))], 3)
  = lines ["[0, [";
           "    [@:=, 1, [@hd, [@var, 0]]],";
           "    [@:=, 2, [@tl, [@var, 0]]],";
           "    [@:=, 3, [@cons, [@var, 1], [@var, 2]]]";
           "], 3]"].
Proof. reflexivity. Qed.

Example display_while_and_if :
  displayPad HWHILE_DISPLAY_FORMAT
    (0, [PadAssign 1 PadQuoteNil;
         PadWhile (PadVar 0)
           [PadAssign 1 (PadCons PadQuoteNil (PadVar 1));
            PadIf (PadHd (PadVar 0))
              [PadAssign 0 (PadHd (PadVar 0))]
              [PadAssign 0 (PadTl (PadVar 0))]]], 1)
  = lines ["[0, [";
           "    [@:=, 1, [@quote, nil]],";
           "    [@while, [@var, 0], [";
           "        [@:=, 1, [@cons, [@quote, nil], [@var, 1]]],";
           "        [@if, [@hd, [@var, 0]], [";
           "            [@:=, 0, [@hd, [@var, 0]]]";
           "        ], [";
           "            [@:=, 0, [@tl, [@var, 0]]]";
           "        ]]";
           "    ]]";
           "], 1]"].
Proof. reflexivity. Qed.

Example display_pure_format :
  displayPad PURE_DISPLAY_FORMAT
    (0, [PadIf (PadVar 0)
           [PadWhile (PadVar 0)
              [PadAssign 1 (PadCons (PadHd (PadVar 0)) (PadTl (PadVar 0)));
               PadAssign 0 (PadTl (PadVar 0))]]
           [PadAssign 1 PadQuoteNil]], 1)
  = lines ["[0, [";
           "    [if, [var, 0], [";
           "        [while, [var, 0], [";
           "            [:=, 1, [cons, [hd, [var, 0]], [tl, [var, 0]]]],";
           "            [:=, 0, [tl, [var, 0]]]";
           "        ]]";
           "    ], [";
           "        [:=, 1, [quote, nil]]";
           "    ]]";
           "], 1]"].
Proof. reflexivity. Qed.

End PadFacts.

(** * More properties of the parser *)
Module ParserMore.
Import Syntax Parser ParserFacts Wellformed Printer Programs.

(** X1: [_numToTree] sends different numbers to different trees, and the
    tree of [n] is a chain of [n] nodes whose left children are all
    [null]. *)
Theorem _numToTree_injective (n m : nat) :
  (_numToTree n = _numToTree m <-> n = m)
  /\ (_numToTree n = null <-> n = 0)
  /\ forall l r, _numToTree n = Tree l r -> l = null /\ exists k, n = S k /\ r = _numToTree k.
Proof.
  split; [|split].
  - split; [|by intros ->].
    revert m. induction n as [|n IH]; intros [|m]; try done.
    + rewrite InterpFacts._numToTree_S. done.
    + rewrite InterpFacts._numToTree_S. done.
    + rewrite !InterpFacts._numToTree_S. intros H. inversion H. f_equal. by apply IH.
  - destruct n; [done|]. rewrite InterpFacts._numToTree_S. split; done.
  - intros l r H. destruct n; [done|]. rewrite InterpFacts._numToTree_S in H.
    inversion H; subst. split; [done|]. by exists n.
Qed.

Lemma consumeUntil_loop_split ex toks : forall res s,
  toks = _tokens s ->
  exists skipped,
    fst (consumeUntil_loop ex toks res s) = res ++ skipped
    /\ _tokens s = skipped ++ _tokens (snd (consumeUntil_loop ex toks res s))
    /\ errors (snd (consumeUntil_loop ex toks res s)) = errors s
    /\ forallb (fun t => negb (existsb (value_is t) ex)) skipped = true
    /\ match _tokens (snd (consumeUntil_loop ex toks res s)) with
       | [] => True
       | t :: _ => existsb (value_is t) ex = true
       end.
Proof.
  induction toks as [|t toks IH]; intros res s E; simpl.
  - exists []. rewrite app_nil_r, <- E. by repeat split.
  - destruct (existsb (value_is t) ex) eqn:X; simpl.
    + exists []. rewrite app_nil_r, <- E. by repeat split.
    + unfold next, _next. rewrite <- E. simpl.
      edestruct (IH (res ++ [t])) as (sk & I1 & I2 & I3 & I4 & I5);
        [|exists (t :: sk); rewrite I1, <- app_assoc; repeat split].
      * reflexivity.
      * simpl in I2. simpl. by rewrite <- I2.
      * exact I3.
      * simpl. by rewrite X, I4.
      * exact I5.
Qed.

(** X2: [consumeUntil] cuts the token queue in two: the tokens it returns,
    none of which is one of [expected], followed by what it leaves in the
    queue, which is empty or starts with one of [expected].  It records no
    error. *)
Theorem consumeUntil_splits (expected : list string) (s : StateManager) :
  _tokens s = fst (consumeUntil expected s) ++ _tokens (snd (consumeUntil expected s))
  /\ errors (snd (consumeUntil expected s)) = errors s
  /\ forallb (fun t => negb (existsb (value_is t) expected))
       (fst (consumeUntil expected s)) = true
  /\ match _tokens (snd (consumeUntil expected s)) with
     | [] => True
     | t :: _ => existsb (value_is t) expected = true
     end.
Proof.
  unfold consumeUntil.
  destruct (consumeUntil_loop_split expected (_tokens s) [] s eq_refl)
    as (sk & I1 & I2 & I3 & I4 & I5).
  rewrite I1. simpl. by repeat split.
Qed.

(** X3: [expect] always takes the first token off the queue when there is
    one, whether it is accepted or not, and returns it.  The status is [OK]
    exactly when [expected] is empty or holds the token's value; otherwise it
    is [ERROR] and one error is recorded, at the position of the token.  On an
    empty queue the status is [EOI], no token is returned and one error is
    recorded. *)
Theorem expect_takes_one (expected : list string) (s : StateManager) :
  match _tokens s with
  | [] =>
      fst (expect expected s) = (EOI, None)
      /\ _tokens (snd (expect expected s)) = []
      /\ exists msg,
           errors (snd (expect expected s))
           = errors s ++ [{| position := _pos (snd (expect expected s));
                             message := msg |}]
  | t :: rest =>
      snd (fst (expect expected s)) = Some t
      /\ _tokens (snd (expect expected s)) = rest
      /\ _pos (snd (expect expected s)) = pos t
      /\ if bool_decide (expected = []) || existsb (value_is t) expected
         then fst (fst (expect expected s)) = OK
              /\ errors (snd (expect expected s)) = errors s
         else fst (fst (expect expected s)) = ERROR
              /\ exists msg,
                   errors (snd (expect expected s))
                   = errors s ++ [{| position := pos t; message := msg |}]
  end.
Proof.
  unfold expect, _next. destruct (_tokens s) as [|t rest] eqn:T.
  - simpl. repeat split. eexists. reflexivity.
  - destruct expected as [|e ex]; [by repeat split|].
    rewrite bool_decide_eq_false_2 by done. rewrite orb_false_l.
    destruct (existsb (value_is t) (e :: ex)); repeat split.
    eexists. reflexivity.
Qed.

Ltac expr_step :=
  match goal with
  | H : ?T = Some _ |- _ =>
      match T with context [match ?x with _ => _ end] => destruct x eqn:? end
  | H : ?T = Some _ |- _ =>
      match T with context [if ?x then _ else _] => destruct x eqn:? end
  end.

Ltac inv_some :=
  repeat match goal with
  | H : Some _ = Some _ |- _ => inversion H; subst; clear H
  | H : None = Some _ |- _ => discriminate H
  | H : (_, _) = (_, _) |- _ => inversion H; subst; clear H
  end.

Lemma _readExpr_shape fuel : forall opts s e s',
  _readExpr fuel opts s = Some (Some e, s') ->
  expr_arity_ok e = true /\ expr_all_complete true e = expr_flag e.
Proof.
  induction fuel as [|fuel IH]; intros opts s e s' H; [discriminate|].
  simpl in H. repeat expr_step; inv_some;
  repeat match goal with o : option AST_EXPR |- _ => destruct o end;
  repeat match goal with
  | E : _readExpr fuel _ _ = Some (Some _, _) |- _ => apply IH in E; destruct E
  end;
  try (split; reflexivity).
  all: try match goal with
       | D : data ?t = TkOperation ?v |- _ =>
           unfold value_is, value in *; rewrite D in *
       end.
  all: simpl;
    repeat match goal with
    | H : _ || _ = true |- _ => rewrite H
    | H : _ || _ = false |- _ => rewrite H
    | H : negb _ = true |- _ => apply negb_true_iff in H
    | H : negb _ = false |- _ => apply negb_false_iff in H
    | H : expr_arity_ok _ = true |- _ => rewrite H; clear H
    | H : expr_all_complete true ?a = expr_flag ?a |- _ => rewrite H; clear H
    end; simpl.
  all: try (split; reflexivity).
  all: try (split; [reflexivity|]).
  all: repeat match goal with
       | H : expr_flag _ = _ |- _ => rewrite H
       | H : _ || _ = true |- _ => apply orb_prop in H; destruct H
       | H : _ || _ = false |- _ => apply orb_false_elim in H; destruct H
       | H : negb _ = true |- _ => apply negb_true_iff in H
       | H : negb _ = false |- _ => apply negb_false_iff in H
       end; simpl; rewrite ?andb_false_r; try reflexivity.
Qed.

Lemma _readSwitch_flag fuel opts s st c s' :
  _readSwitch fuel opts s = Some ((st, c), s') ->
  (st = OK <-> stmt_flagged c = true).
Proof.
  destruct fuel as [|fuel]; [discriminate|]. simpl. intros H.
  repeat expr_step; inv_some; simpl; try (split; congruence).
  all: match goal with
       | H : is_OK ?x = _ |- _ => destruct x; simpl in H; try discriminate H
       end; split; congruence.
Qed.

Lemma _readStmt_flag fuel opts s st c s' :
  _readStmt fuel opts s = Some ((st, c), s') ->
  (st = OK <-> stmt_flagged c = true).
Proof.
  destruct fuel as [|fuel]; [discriminate|]. simpl. intros H.
  repeat match goal with
  | H : ?T = Some _ |- _ =>
      lazymatch T with
      | _readSwitch _ _ _ => fail
      | context [match ?x with _ => _ end] => destruct x eqn:?
      | context [if ?x then _ else _] => destruct x eqn:?
      end
  end; inv_some; simpl; try (split; congruence).
  all: try (eapply _readSwitch_flag; eassumption).
  all: match goal with
       | |- (if is_EOI ?x then _ else _) = OK <-> _ =>
           destruct x; simpl; split; congruence
       end.
Qed.

Lemma _readStatementList_loop_flag fuel : forall opts st res s r s',
  _readStatementList_loop fuel opts st res s = Some (r, s') ->
  fst r = OK ->
  st = OK /\ (forallb stmt_flagged res = true -> forallb stmt_flagged (snd r) = true).
Proof.
  induction fuel as [|fuel IH]; intros opts st res s r s' H R; [discriminate|].
  rewrite _readStatementList_loop_unfold in H.
  destruct (_readStmt fuel opts s) as [[[sst stmt] s1]|] eqn:E; [|discriminate].
  pose proof (proj1 (_readStmt_flag _ _ _ _ _ _ E)) as F.
  destruct sst; cbv zeta in H.
  - destruct (peek s1).
    + destruct (value_is w TKN_SEP).
      * destruct (next s1) as [? s2]. apply IH in H; [|exact R].
        destruct H as [-> H]. split; [done|]. intros A. apply H.
        rewrite forallb_app, A. simpl. by rewrite F.
      * inversion H; subst. simpl in *. subst. split; [done|]. intros A.
        rewrite forallb_app, A. simpl. by rewrite F.
    + destruct (next s1). inversion H; subst. discriminate R.
  - destruct (peek (snd (consumeUntil [TKN_BLOCK_CLS; TKN_SEP] s1))).
    + destruct (value_is w TKN_SEP).
      * destruct (next _) as [? s2]. apply IH in H; [|exact R].
        destruct H as [? _]. discriminate.
      * inversion H; subst. discriminate R.
    + destruct (next _). inversion H; subst. discriminate R.
  - inversion H; subst. discriminate R.
Qed.

Lemma _readBlock_flag fuel opts s res s' :
  _readBlock fuel opts s = Some ((OK, res), s') ->
  forallb stmt_flagged res = true.
Proof.
  destruct fuel as [|fuel]; [discriminate|]. simpl. intros H.
  destruct (expect [TKN_BLOCK_OPN] s) as [? s0].
  destruct (peek s0); [|destruct (next s0); discriminate].
  destruct (value_is w TKN_BLOCK_CLS).
  { destruct (next s0). by inversion H. }
  destruct (_readStatementList fuel opts s0) as [[[st l] s1]|] eqn:L; [|discriminate].
  destruct fuel as [|fuel]; [discriminate|]. simpl in L.
  destruct st; simpl in H.
  - apply _readStatementList_loop_flag in L; [|reflexivity].
    destruct (expect [TKN_BLOCK_CLS] s1) as [[c ?] ?].
    destruct c; simpl in H; inversion H; subst. by apply L.
  - destruct (expect [TKN_BLOCK_CLS] s1) as [[c ?] ?].
    destruct c; simpl in H; inversion H.
  - inversion H.
Qed.

(** X5: in an expression [_readExpr] returns, an operation is marked
    complete exactly when every node below it is complete and no argument is
    missing; and every operation node has one argument slot if its operator
    is [hd] or [tl], two otherwise. *)
Theorem readExpr_flag_is_hereditary (fuel : nat) (opts : IntParserOpts)
    (s : StateManager) (e : AST_EXPR) (s' : StateManager) :
  _readExpr fuel opts s = Some (Some e, s') ->
  expr_all_complete true e = expr_flag e /\ expr_arity_ok e = true.
Proof. intros H. apply _readExpr_shape in H. tauto. Qed.

Lemma readExpr_flag_is_hereditary_witness :
  exists e s',
    _readExpr 4 {| pureOnly := false |} (new_StateManager short_expression)
    = Some (Some e, s')
    /\ expr_flag e = false
    /\ expr_all_complete true e = expr_flag e /\ expr_arity_ok e = true.
Proof.
  eexists _, _. split; [vm_compute; reflexivity|]. split; [reflexivity|].
  eapply (readExpr_flag_is_hereditary 4 {| pureOnly := false |}
            (new_StateManager short_expression)).
  vm_compute. reflexivity.
Defined.

(** X4: [_readExpr] returns on every token queue (the recursion is bounded
    by the number of tokens).  It only takes tokens off the front of the
    queue, at least one when there is one, and only adds errors.  When it
    records no error, what it returns is an expression that is complete at
    every depth, unless the queue has been emptied. *)
Theorem readExpr_returns (fuel : nat) (opts : IntParserOpts) (s : StateManager) :
  length (_tokens s) < fuel ->
  exists r s',
    _readExpr fuel opts s = Some (r, s')
    /\ suffix (_tokens s') (_tokens s)
    /\ (_tokens s <> [] -> length (_tokens s') < length (_tokens s))
    /\ length (errors s) <= length (errors s')
    /\ (length (errors s') = length (errors s) ->
        slot_all_complete (expr_all_complete true) true r = true
        \/ _tokens s' = []).
Proof.
  intros F. destruct (_readExpr_total fuel opts s F) as (r & s' & H).
  exists r, s'. split; [exact H|].
  destruct (_readExpr_consume _ _ _ _ _ H) as ((S1 & S2 & S3) & S4).
  split; [exact S1|]. split.
  { intros N. apply S4. destruct (_tokens s); [done|simpl; lia]. }
  split; [exact S3|].
  intros Q. destruct (_readExpr_inv _ _ _ _ _ H Q) as [I|I]; [by left|right].
  by apply length_zero_iff_nil.
Qed.

Lemma readExpr_returns_witness :
  let s := new_StateManager short_expression in
  length (_tokens s) < 4
  /\ exists r s',
       _readExpr 4 {| pureOnly := false |} s = Some (r, s')
       /\ suffix (_tokens s') (_tokens s)
       /\ (_tokens s <> [] -> length (_tokens s') < length (_tokens s))
       /\ length (errors s) <= length (errors s')
       /\ (length (errors s') = length (errors s) ->
           slot_all_complete (expr_all_complete true) true r = true
           \/ _tokens s' = []).
Proof.
  cbv zeta. split; [simpl; lia|].
  apply (readExpr_returns 4 {| pureOnly := false |}
           (new_StateManager short_expression)).
  simpl; lia.
Defined.

Lemma _readStmt_total fuel opts s :
  4 * length (_tokens s) + 1 <= fuel ->
  exists r s', _readStmt fuel opts s = Some (r, s').
Proof. apply (stmt_total fuel). Qed.

Lemma _readStmt_inv fuel opts s r s' :
  _readStmt fuel opts s = Some (r, s') ->
  quiet s s' -> stmt_ok r = true \/ exhausted s'.
Proof. apply (stmt_inv fuel). Qed.

(** X6: [_readStmt] returns on every token queue, whatever the nesting of
    blocks, conditionals, loops and switches in it.  It takes at least one
    token when there is one, so the loops that call it end.  When it records
    no error, its status is [OK] and the statement is complete at every
    depth, unless the queue has been emptied. *)
Theorem readStmt_returns (fuel : nat) (opts : IntParserOpts) (s : StateManager) :
  4 * length (_tokens s) + 1 <= fuel ->
  exists st c s',
    _readStmt fuel opts s = Some ((st, c), s')
    /\ suffix (_tokens s') (_tokens s)
    /\ (_tokens s <> [] -> length (_tokens s') < length (_tokens s))
    /\ length (errors s) <= length (errors s')
    /\ (length (errors s') = length (errors s) ->
        (st = OK /\ slot_all_complete (cmd_all_complete true) true c = true)
        \/ _tokens s' = []).
Proof.
  intros F. destruct (_readStmt_total fuel opts s F) as ([st c] & s' & H).
  exists st, c, s'. split; [exact H|].
  destruct (_readStmt_consume _ _ _ _ _ H) as ((S1 & S2 & S3) & S4).
  split; [exact S1|]. split.
  { intros N. apply S4. destruct (_tokens s); [done|simpl; lia]. }
  split; [exact S3|].
  intros Q. destruct (_readStmt_inv _ _ _ _ _ H Q) as [I|I].
  - left. unfold stmt_ok in I. simpl in I. apply andb_prop in I.
    destruct I as [I1 I2]. split; [by destruct st|exact I2].
  - right. by apply length_zero_iff_nil.
Qed.

Lemma readStmt_returns_witness :
  let s := new_StateManager two_statements in
  4 * length (_tokens s) + 1 <= 41
  /\ exists st c s',
       _readStmt 41 {| pureOnly := false |} s = Some ((st, c), s')
       /\ suffix (_tokens s') (_tokens s)
       /\ (_tokens s <> [] -> length (_tokens s') < length (_tokens s))
       /\ length (errors s) <= length (errors s')
       /\ (length (errors s') = length (errors s) ->
           (st = OK /\ slot_all_complete (cmd_all_complete true) true c = true)
           \/ _tokens s' = []).
Proof.
  cbv zeta. split; [simpl; lia|].
  apply (readStmt_returns 41 {| pureOnly := false |}
           (new_StateManager two_statements)).
  simpl; lia.
Defined.

Lemma _readStatementList_total fuel opts s :
  4 * length (_tokens s) + 3 <= fuel ->
  exists r s', _readStatementList fuel opts s = Some (r, s').
Proof. apply (stmt_total fuel). Qed.

Lemma _readStatementList_loop_grows fuel : forall opts st res s r s',
  _readStatementList_loop fuel opts st res s = Some (r, s') ->
  length res < length (snd r).
Proof.
  induction fuel as [|fuel IH]; intros opts st res s r s' H; [discriminate|].
  rewrite _readStatementList_loop_unfold in H.
  destruct (_readStmt fuel opts s) as [[[sst stmt] s1]|]; [|discriminate].
  assert (G : forall st0 s0 r0,
            match peek s0 with
            | None =>
                let '(_, state) := next s0 in
                Some ((EOI, res ++ [stmt]), unexpectedEOI [TKN_SEP; TKN_BLOCK_CLS] state)
            | Some nxt =>
                if value_is nxt TKN_SEP then
                  let '(_, state) := next s0 in
                  _readStatementList_loop fuel opts st0 (res ++ [stmt]) state
                else Some ((st0, res ++ [stmt]), s0)
            end = Some (r0, s') -> length res < length (snd r0)).
  { intros st0 s0 r0 G. destruct (peek s0).
    - destruct (value_is w TKN_SEP).
      + destruct (next s0). apply IH in G. rewrite length_app in G. simpl in G. lia.
      + inversion G; subst. simpl. rewrite length_app. simpl. lia.
    - destruct (next s0). inversion G; subst. simpl. rewrite length_app. simpl. lia. }
  destruct sst; cbv zeta in H.
  - by eapply G.
  - by eapply G.
  - inversion H; subst. simpl. rewrite length_app. simpl. lia.
Qed.

(** X7: the [while (true)] loop of [_readStatementList] ends on every token
    queue.  The list it returns is never empty, and its status is [OK] only
    if the status of every statement was: then every member of the list is a
    node marked complete. *)
Theorem readStatementList_returns (fuel : nat) (opts : IntParserOpts)
    (s : StateManager) :
  4 * length (_tokens s) + 3 <= fuel ->
  exists st l s',
    _readStatementList fuel opts s = Some ((st, l), s')
    /\ l <> []
    /\ suffix (_tokens s') (_tokens s)
    /\ (st = OK -> forallb stmt_flagged l = true).
Proof.
  intros F. destruct (_readStatementList_total fuel opts s F) as ([st l] & s' & H).
  exists st, l, s'. split; [exact H|].
  destruct (_readStatementList_shrink _ _ _ _ _ H) as (S1 & _).
  destruct fuel as [|fuel]; [discriminate|]. simpl in H.
  split; [|split; [exact S1|]].
  - apply _readStatementList_loop_grows in H. simpl in H.
    destruct l; [simpl in H; lia|done].
  - intros ->. by apply (_readStatementList_loop_flag _ _ _ _ _ _ _ H).
Qed.

Lemma readStatementList_returns_witness :
  let s := new_StateManager two_statements in
  4 * length (_tokens s) + 3 <= 43
  /\ exists st l s',
       _readStatementList 43 {| pureOnly := false |} s = Some ((st, l), s')
       /\ l <> []
       /\ suffix (_tokens s') (_tokens s)
       /\ (st = OK -> forallb stmt_flagged l = true).
Proof.
  cbv zeta. split; [simpl; lia|].
  apply (readStatementList_returns 43 {| pureOnly := false |}
           (new_StateManager two_statements)).
  simpl; lia.
Defined.

(** X8: the status [_readStmt] returns agrees with the node it returns: the
    status is [OK] exactly when there is a node and its [complete] flag is
    set.  This holds for assignments, conditionals, loops and switches. *)
Theorem readStmt_status_is_flag (fuel : nat) (opts : IntParserOpts)
    (s : StateManager) (st : ParseStatus) (c : option AST_CMD)
    (s' : StateManager) :
  _readStmt fuel opts s = Some ((st, c), s') ->
  (st = OK <-> stmt_flagged c = true).
Proof. apply _readStmt_flag. Qed.

Lemma readStmt_status_is_flag_witness :
  exists st c s',
    _readStmt 41 {| pureOnly := false |} (new_StateManager two_statements)
    = Some ((st, c), s')
    /\ (st = OK <-> stmt_flagged c = true).
Proof.
  eexists _, _, _. split; [vm_compute; reflexivity|].
  eapply (readStmt_status_is_flag 41 {| pureOnly := false |}
            (new_StateManager two_statements)).
  vm_compute. reflexivity.
Defined.

Lemma _readSwitch_loop_unfold fuel opts status cases dflt state :
  _readSwitch_loop (S fuel) opts status cases dflt state
  = match peek state with
    | None => Some ((status, cases, dflt), state)
    | Some nxt =>
      if negb (value_is nxt TKN_DEFAULT) && negb (value_is nxt TKN_CASE)
      then Some ((status, cases, dflt), state)
      else
        let state :=
          match dflt with
          | Some _ => unexpectedToken (actual_of nxt) [TKN_BLOCK_CLS] state
          | None => state
          end in
        let? ((caseStatus, body), state) := _readCase fuel opts state in
        let status := if negb (is_OK status) then caseStatus else status in
        match body with
        | None => Some ((status, cases, dflt), state)
        | Some body =>
          if is_EOI status then Some ((status, cases, dflt), state)
          else
            match body with
            | switch_case c =>
                _readSwitch_loop fuel opts status (cases ++ [c]) dflt state
            | switch_default d =>
                _readSwitch_loop fuel opts status cases (Some d) state
            end
        end
    end.
Proof. reflexivity. Qed.

Lemma _readSwitch_loop_keeps_OK fuel : forall opts cases dflt s r s',
  _readSwitch_loop fuel opts OK cases dflt s = Some (r, s') ->
  fst (fst r) = OK.
Proof.
  induction fuel as [|fuel IH]; intros opts cases dflt s r s' H; [discriminate|].
  rewrite _readSwitch_loop_unfold in H.
  destruct (peek s) as [nxt|]; [|by inversion H].
  destruct (negb (value_is nxt TKN_DEFAULT) && negb (value_is nxt TKN_CASE));
    [by inversion H|].
  cbv zeta in H.
  destruct (_readCase fuel opts _) as [[[cst body] s1]|]; [|discriminate].
  cbn [is_OK negb is_EOI] in H.
  destruct body as [[c|d]|]; [by eapply IH|by eapply IH|by inversion H].
Qed.

Lemma _readSwitch_unfold fuel opts state :
  _readSwitch (S fuel) opts state
  = let? (inpExpr, state) := _readExpr fuel opts state in
    let '((status, _), state) := expect [TKN_BLOCK_OPN] state in
    if is_EOI status then Some ((EOI, None), state)
    else
      let? ((status, cases, dflt), state) :=
        _readSwitch_loop fuel opts status [] None state in
      let dflt := match dflt with
                  | Some d => d
                  | None => (true, [])
                  end in
      let '((s, _), state) := expect [TKN_BLOCK_CLS] state in
      let status := if negb (is_OK s) then s else status in
      if is_OK status
      then Some ((status, Some (AST_SWITCH true inpExpr cases dflt)), state)
      else Some ((status, Some (AST_SWITCH false inpExpr cases dflt)), state).
Proof. reflexivity. Qed.

(** X19: [_readSwitch] drops the status of the cases it reads.  Once the
    opening brace has been accepted, the loop over the cases keeps the status
    [OK] whatever [_readCase] returns, so a switch whose closing brace is
    accepted too is returned with status [OK] and [complete = true]: also
    when one of its cases is incomplete, and whatever its condition is. *)
Theorem readSwitch_drops_case_status (fuel : nat) (opts : IntParserOpts)
    (s : StateManager) (inpExpr : option AST_EXPR) (s0 : StateManager)
    (o1 : option WHILE_TOKEN_EXTD) (s1 : StateManager) (st : ParseStatus)
    (cases : list AST_SWITCH_CASE) (dflt : option AST_SWITCH_DEFAULT)
    (s2 : StateManager) (o2 : option WHILE_TOKEN_EXTD) (s3 : StateManager) :
  _readExpr fuel opts s = Some (inpExpr, s0) ->
  expect [TKN_BLOCK_OPN] s0 = ((OK, o1), s1) ->
  _readSwitch_loop fuel opts OK [] None s1 = Some ((st, cases, dflt), s2) ->
  expect [TKN_BLOCK_CLS] s2 = ((OK, o2), s3) ->
  st = OK
  /\ _readSwitch (S fuel) opts s
     = Some ((OK, Some (AST_SWITCH true inpExpr cases
                          (match dflt with Some d => d | None => (true, []) end))),
             s3).
Proof.
  intros E O L C.
  assert (st = OK) by exact (_readSwitch_loop_keeps_OK _ _ _ _ _ _ _ L).
  subst st. split; [reflexivity|].
  rewrite _readSwitch_unfold, E, O. cbn [is_EOI]. rewrite L, C. reflexivity.
Qed.

Lemma readSwitch_drops_case_status_witness :
  let opts := {| pureOnly := false |} in
  let s := new_StateManager broken_case in
  exists inpExpr s0 o1 s1 cases s2 o2 s3,
    _readExpr 10 opts s = Some (inpExpr, s0)
    /\ expect [TKN_BLOCK_OPN] s0 = ((OK, o1), s1)
    /\ _readSwitch_loop 10 opts OK [] None s1 = Some ((OK, cases, None), s2)
    /\ expect [TKN_BLOCK_CLS] s2 = ((OK, o2), s3)
    /\ forallb switch_case_ok cases = false
    /\ length (errors s3) = 1
    /\ _readSwitch 11 opts s
       = Some ((OK, Some (AST_SWITCH true inpExpr cases (true, []))), s3).
Proof.
  cbv zeta.
  let r1 := eval vm_compute in
      (_readExpr 10 {| pureOnly := false |} (new_StateManager broken_case)) in
  match r1 with
  | Some (?e, ?s0) =>
      let r2 := eval vm_compute in (expect [TKN_BLOCK_OPN] s0) in
      match r2 with
      | ((OK, ?o1), ?s1) =>
          let r3 := eval vm_compute in
              (_readSwitch_loop 10 {| pureOnly := false |} OK [] None s1) in
          match r3 with
          | Some ((OK, ?cases, None), ?s2) =>
              let r4 := eval vm_compute in (expect [TKN_BLOCK_CLS] s2) in
              match r4 with
              | ((OK, ?o2), ?s3) =>
                  exists e, s0, o1, s1, cases, s2, o2, s3;
                  assert (H1 : _readExpr 10 {| pureOnly := false |}
                                 (new_StateManager broken_case) = Some (e, s0))
                    by (vm_compute; reflexivity);
                  assert (H2 : expect [TKN_BLOCK_OPN] s0 = ((OK, o1), s1))
                    by (vm_compute; reflexivity);
                  assert (H3 : _readSwitch_loop 10 {| pureOnly := false |} OK [] None s1
                               = Some ((OK, cases, None), s2))
                    by (vm_compute; reflexivity);
                  assert (H4 : expect [TKN_BLOCK_CLS] s2 = ((OK, o2), s3))
                    by (vm_compute; reflexivity);
                  split; [exact H1|]; split; [exact H2|]; split; [exact H3|];
                  split; [exact H4|]; split; [vm_compute; reflexivity|];
                  split; [vm_compute; reflexivity|];
                  exact (proj2 (readSwitch_drops_case_status 10 {| pureOnly := false |}
                                  (new_StateManager broken_case) e s0 o1 s1 OK cases
                                  None s2 o2 s3 H1 H2 H3 H4))
              end
          end
      end
  end.
Defined.

Ltac took_done :=
  unfold took; simpl;
  try match goal with
      | T : _tokens ?s = _ :: _ |- context [_tokens ?s] => rewrite T
      | T : _tokens ?s = [] |- context [_tokens ?s] => rewrite T
      end;
  repeat split; try done; try congruence; try lia.

Lemma value_is_not ta a b :
  value_is ta a = true -> a <> b -> value_is ta b = false.
Proof.
  unfold value_is. destruct (value ta); [|done].
  intros E N. apply String.eqb_eq in E. subst. by apply String.eqb_neq.
Qed.

Lemma _readInput_took s r s' :
  _readInput s = (r, s') -> exists taken, took taken s s' /\ length taken <= 1.
Proof.
  unfold _readInput, peek, next, _next. destruct (_tokens s) as [|t ts] eqn:T.
  - intros H. inversion H; subst. exists []. took_done.
  - destruct (value_is t TKN_BLOCK_OPN) eqn:B.
    + intros H; inversion H; subst. exists []. took_done.
    + destruct (as_ident t); intros H; inversion H; subst; exists [t];
        unfold took; simpl; rewrite B; took_done.
Qed.

Lemma _readRead_took s r s' :
  _readRead s = (r, s') -> exists taken, took taken s s' /\ length taken <= 2.
Proof.
  unfold _readRead. unfold peek at 1. unfold next at 1 2 3. unfold _next.
  destruct (_tokens s) as [|t ts] eqn:T.
  - intros H. inversion H; subst. exists []. took_done.
  - destruct (value_is t TKN_READ) eqn:R.
    + intros H. apply _readInput_took in H. destruct H as (tk & [H1 H2] & H3).
      simpl in H1. exists (t :: tk). unfold took. simpl.
      rewrite H2, (value_is_not _ _ TKN_BLOCK_OPN R) by done.
      took_done.
    + destruct (value_is t TKN_BLOCK_OPN) eqn:B.
      * intros H; inversion H; subst. exists []. took_done.
      * intros H; inversion H; subst. exists [t]. unfold took. simpl.
        rewrite B. took_done.
Qed.

(** X20: the intro of a program, [<name> read <input>], takes at most three
    tokens off the queue and never an opening brace: when the name, [read] or
    the input variable is missing, the brace that opens the body is left for
    [_readBlock]. *)
Theorem readProgramIntro_leaves_the_brace (s : StateManager) :
  exists taken,
    _tokens s = taken ++ _tokens (snd (_readProgramIntro s))
    /\ forallb (fun t => negb (value_is t TKN_BLOCK_OPN)) taken = true
    /\ length taken <= 3.
Proof.
  destruct (_readProgramIntro s) as [r s'] eqn:H. simpl.
  revert H. unfold _readProgramIntro. unfold peek at 1.
  unfold next at 1 2 3. unfold _next.
  destruct (_tokens s) as [|t ts] eqn:T.
  - intros H. inversion H; subst. exists []. took_done.
  - destruct (value_is t TKN_READ) eqn:R.
    + destruct (_readInput _) as [[ist inp] s1] eqn:I.
      apply _readInput_took in I. destruct I as (tk & [I1 I2] & I3).
      simpl in I1. intros H.
      assert (s' = s1) by (destruct (is_OK ist); by inversion H). subst s1.
      exists (t :: tk). simpl.
      rewrite I2, (value_is_not _ _ TKN_BLOCK_OPN R) by done.
      took_done.
    + destruct (value_is t TKN_BLOCK_OPN) eqn:B.
      * intros H; inversion H; subst. exists []. took_done.
      * destruct (_readRead _) as [[ist inp] s1] eqn:RR.
        apply _readRead_took in RR. destruct RR as (tk & [I1 I2] & I3).
        simpl in I1. intros H.
        assert (s' = s1).
        { destruct (as_ident t); [destruct (is_OK ist)|]; by inversion H. }
        subst s1. exists (t :: tk). simpl. rewrite B, I2. took_done.
Qed.

Ltac eoi_step :=
  match goal with
  | H : ?T = Some _ |- _ =>
      lazymatch T with
      | _readStatementList_loop _ _ _ _ _ => fail
      | _readBlock _ _ _ => fail
      | _readStatementList _ _ _ => fail
      | context [match ?x with _ => _ end] => destruct x eqn:?
      | context [if ?x then _ else _] => destruct x eqn:?
      end
  end.

Lemma stmt_EOI fuel : stmt_EOI_at fuel.
Proof.
  induction fuel as [|fuel IH].
  - repeat split; intros; discriminate.
  - destruct IH as (IH1 & IH2 & IH3 & IH4 & IH5).
    repeat split; intros opts; intros;
    match goal with
    | P : pureOnly opts = true, H : _ = Some _ |- _ =>
        simpl in H; rewrite ?P in H; simpl in H
    end.
    all: repeat eoi_step.
    all: repeat match goal with
         | H : Some _ = Some _ |- _ => inversion H; subst; clear H
         | H : None = Some _ |- _ => discriminate H
         | H : (_, _) = (_, _) |- _ => inversion H; subst; clear H
         end.
    all: simpl in *; try discriminate.
    all: repeat match goal with
         | H : is_EOI ?p = true |- _ => destruct p; try discriminate H; clear H
         end.
    all: try solve
         [ match goal with
           | P : pureOnly ?o = true,
             E : _readStatementList_loop _ ?o _ _ _ = Some (_, ?s') |- _tokens ?s' = [] =>
               apply (IH2 _ _ _ _ _ _ P) in E;
               [exact E|first [assumption|discriminate]|assumption]
           | P : pureOnly ?o = true,
             E : _readBlock _ ?o _ = Some (_, ?s') |- _tokens ?s' = [] =>
               apply (IH5 _ _ _ _ P) in E; [exact E|first [assumption|reflexivity]]
           | P : pureOnly ?o = true,
             E : _readStatementList _ ?o _ = Some (_, ?s') |- _tokens ?s' = [] =>
               apply (IH3 _ _ _ _ P) in E; [exact E|first [assumption|reflexivity]]
           | P : pureOnly ?o = true,
             E : _readStmt _ ?o _ = Some (_, ?s') |- _tokens ?s' = [] =>
               apply (IH4 _ _ _ _ P) in E; [exact E|first [assumption|reflexivity]]
           end ].
    all: norm_state.
    all: repeat match goal with
         | N : next ?s = (_, _) |- _ =>
             apply next_inv in N; destruct N as (? & ? & ?)
         | E : expect _ _ = _ |- _ => apply expect_inv in E
         | H : _ /\ _ |- _ => destruct H
         | K : peek ?s = None |- _ =>
             let Q := fresh in
             pose proof (peek_inv s) as Q; rewrite K in Q; clear K
         end; try congruence.
    all: repeat match goal with
         | o : option WHILE_TOKEN_EXTD |- _ => destruct o
         | H : _ /\ _ |- _ => destruct H
         | H : exists _, _ |- _ => destruct H
         end; try congruence.
Qed.

(** X21: with [pureOnly], the status [EOI] means what its name says: when
    [_readStmt] or [_readBlock] returns it, the token queue is empty.  (With
    the [switch] of the extended language this fails: [_readCase] returns
    [EOI] for a case whose expression it cannot read, see
    [switch_EOI_with_tokens_left].) *)
Theorem pure_EOI_is_end_of_input (fuel : nat) (opts : IntParserOpts)
    (s : StateManager) :
  pureOnly opts = true ->
  (forall c s', _readStmt fuel opts s = Some ((EOI, c), s') -> _tokens s' = [])
  /\ (forall b s', _readBlock fuel opts s = Some ((EOI, b), s') -> _tokens s' = []).
Proof.
  intros P. destruct (stmt_EOI fuel) as (_ & _ & _ & S & B).
  split; intros x s' H.
  - exact (S _ _ _ _ P H eq_refl).
  - exact (B _ _ _ _ P H eq_refl).
Qed.

Lemma pure_EOI_is_end_of_input_witness :
  let opts := {| pureOnly := true |} in
  let s := new_StateManager unfinished_loop in
  pureOnly opts = true
  /\ exists c s', _readStmt 30 opts s = Some ((EOI, c), s') /\ _tokens s' = [].
Proof.
  cbv zeta. split; [reflexivity|].
  eexists _, _. split; [vm_compute; reflexivity|].
  eapply (proj1 (pure_EOI_is_end_of_input 30 {| pureOnly := true |}
                   (new_StateManager unfinished_loop) eq_refl)).
  vm_compute. reflexivity.
Defined.

Example switch_EOI_with_tokens_left :
  exists c s',
    _readStmt 30 {| pureOnly := false |} (new_StateManager switch_with_tokens_left)
    = Some ((EOI, c), s')
    /\ length (_tokens s') = 1.
Proof. eexists _, _. split; vm_compute; reflexivity. Qed.

Lemma appends_refl s : appends s s.
Proof. exists []. by rewrite app_nil_r. Qed.

Lemma appends_same s s1 s2 : errors s2 = errors s1 -> appends s s1 -> appends s s2.
Proof. intros E (new & A & F). exists new. by rewrite E. Qed.

Lemma appends_one s s1 s2 p m :
  errors s2 = addError_at (errors s1) p m ->
  starts_with "Unexpected " m = true ->
  appends s s1 -> appends s s2.
Proof.
  intros E M (new & A & F). exists (new ++ [mkError p m]).
  unfold addError_at in E. rewrite E, A, <- app_assoc. split; [done|].
  rewrite forallb_app, F. cbn [forallb andb]. unfold unexpected_msg.
  cbn [message]. by rewrite M.
Qed.

Lemma em_unexpectedValue_msg errs p t a ex :
  exists m, em_unexpectedValue errs p t a ex = addError_at errs p m
            /\ starts_with "Unexpected " m = true.
Proof.
  unfold em_unexpectedValue. eexists. split; [reflexivity|].
  destruct ex as [|e [|e' ex]]; destruct (truthy a); reflexivity.
Qed.

Lemma appends_unexpectedValue t a ex s s1 :
  appends s s1 -> appends s (unexpectedValue t a ex s1).
Proof.
  destruct (em_unexpectedValue_msg (errors s1) (_pos s1) t a ex) as (m & E & M).
  eapply appends_one; [|exact M]. exact E.
Qed.

Lemma appends_unexpectedToken a ex s s1 :
  appends s s1 -> appends s (unexpectedToken a ex s1).
Proof. apply (appends_unexpectedValue "token"). Qed.

Lemma appends_unexpectedEOI ex s s1 :
  appends s s1 -> appends s (unexpectedEOI ex s1).
Proof. apply (appends_unexpectedValue "end of input" None). Qed.

Lemma appends_unexpectedEOICustom m s s1 :
  appends s s1 -> appends s (unexpectedEOICustom m s1).
Proof. eapply appends_one; reflexivity. Qed.

Lemma appends_unexpectedTokenCustom a m s s1 :
  appends s s1 -> appends s (unexpectedTokenCustom a m s1).
Proof.
  eapply appends_one; [reflexivity|]. by destruct (truthy a).
Qed.

Lemma appends_next s s1 o s2 :
  next s1 = (o, s2) -> appends s s1 -> appends s s2.
Proof. intros N. apply appends_same. by apply next_inv in N as (? & _). Qed.

Lemma appends_expect ex s s1 r s2 :
  expect ex s1 = (r, s2) -> appends s s1 -> appends s s2.
Proof.
  unfold expect. destruct (_next s1) as [o s0] eqn:N. intros H A.
  pose proof (appends_next _ _ _ _ N A) as A0.
  destruct o; [destruct ex|]; [| |].
  - by inversion H; subst.
  - destruct (existsb _ _); inversion H; subst; [done|].
    by apply appends_unexpectedToken.
  - inversion H; subst. by apply appends_unexpectedEOI.
Qed.

Lemma appends_consumeUntil ex s s1 :
  appends s s1 -> appends s (snd (consumeUntil ex s1)).
Proof. apply appends_same. apply consumeUntil_inv. Qed.

Ltac app_step :=
  match goal with
  | H : ?T = Some _ |- _ =>
      lazymatch T with
      | _readStatementList_loop _ _ _ _ _ => fail
      | _readBlock _ _ _ => fail
      | _readSwitch _ _ _ => fail
      | _readSwitch_loop _ _ _ _ _ _ => fail
      | _readStatementList _ _ _ => fail
      | context [match ?x with _ => _ end] => destruct x eqn:?
      | context [if ?x then _ else _] => destruct x eqn:?
      end
  end.

Ltac app_inv :=
  repeat match goal with
  | H : Some _ = Some _ |- _ => inversion H; subst; clear H
  | H : None = Some _ |- _ => discriminate H
  | H : (_, _) = (_, _) |- _ => inversion H; subst; clear H
  end.

Ltac app_chain :=
  eauto 30 using appends_unexpectedValue, appends_unexpectedToken,
    appends_unexpectedEOI, appends_unexpectedEOICustom,
    appends_unexpectedTokenCustom, appends_next, appends_expect,
    appends_consumeUntil.

Lemma _readExpr_appends fuel : forall opts s1 r s2,
  _readExpr fuel opts s1 = Some (r, s2) -> forall s, appends s s1 -> appends s s2.
Proof.
  induction fuel as [|fuel IH]; intros opts s1 r s2 H s A; [discriminate|].
  simpl in H. repeat app_step; app_inv; app_chain.
Qed.

Lemma stmt_appends fuel : stmt_appends_at fuel.
Proof.
  induction fuel as [|fuel IH].
  - repeat split; intros; discriminate.
  - destruct IH as (IH1 & IH2 & IH3 & IH4 & IH5 & IH6 & IH7 & IH8).
    pose proof (_readExpr_appends fuel) as IHe.
    repeat split; intros;
      match goal with H : _ = Some _ |- _ => simpl in H end.
    all: repeat app_step; app_inv.
    all: app_chain.
Qed.

Lemma appends_set_error p m s s1 :
  starts_with "Unexpected " m = true ->
  appends s s1 -> appends s (set_errors (addError_at (errors s1) p m) s1).
Proof. intros M. eapply appends_one; [reflexivity|exact M]. Qed.

Lemma appends_set_unexpected p a ex s s1 :
  appends s s1 ->
  appends s (set_errors (em_unexpectedToken (errors s1) p a ex) s1).
Proof.
  destruct (em_unexpectedValue_msg (errors s1) p "token" a ex) as (m & E & M).
  eapply appends_one; [|exact M]. exact E.
Qed.

Ltac app_all :=
  repeat match goal with
  | |- context [match ?x with _ => _ end] => destruct x eqn:?
  | |- context [if ?x then _ else _] => destruct x eqn:?
  end.

Lemma _readInput_appends s1 r s2 :
  _readInput s1 = (r, s2) -> forall s, appends s s1 -> appends s s2.
Proof.
  unfold _readInput. intros H s A. revert H. app_all; intros H; app_inv.
  all: eauto 10 using appends_unexpectedEOICustom, appends_next, appends_set_error.
Qed.

Lemma _readRead_appends s1 r s2 :
  _readRead s1 = (r, s2) -> forall s, appends s s1 -> appends s s2.
Proof.
  unfold _readRead. intros H s A. revert H. app_all; intros H; app_inv.
  all: eauto 10 using appends_unexpectedEOI, appends_unexpectedToken, appends_next,
    appends_set_unexpected, _readInput_appends.
Qed.

Lemma _readProgramIntro_appends s1 r s2 :
  _readProgramIntro s1 = (r, s2) -> forall s, appends s s1 -> appends s s2.
Proof.
  unfold _readProgramIntro. intros H s A. revert H. app_all; intros H; app_inv.
  all: eauto 10 using appends_unexpectedEOICustom, appends_next, appends_set_error,
    appends_set_unexpected, _readInput_appends, _readRead_appends.
  refine (appends_set_unexpected (pos w) None [TKN_READ] s
            (set_errors (addError_at (errors s1) (pos w)
                           "Unexpected token: Missing program name") s1) _).
  by apply appends_set_error.
Qed.

Lemma _readProgramOutro_appends s1 r s2 :
  _readProgramOutro s1 = (r, s2) -> forall s, appends s s1 -> appends s s2.
Proof.
  unfold _readProgramOutro. intros H s A. revert H. app_all; intros H; app_inv.
  all: repeat match goal with
       | H : (if ?x then _ else _) = _ |- _ => destruct x eqn:?
       | H : match ?x with _ => _ end = _ |- _ => destruct x eqn:?
       end; app_inv.
  all: eauto 10 using appends_unexpectedEOI, appends_unexpectedToken,
    appends_unexpectedValue, appends_unexpectedTokenCustom, appends_next.
Qed.

Lemma _readBlock_appends fuel opts s1 r s2 :
  _readBlock fuel opts s1 = Some (r, s2) -> forall s, appends s s1 -> appends s s2.
Proof. apply (stmt_appends fuel). Qed.

Lemma _readProgram_appends fuel opts s1 r s2 :
  _readProgram fuel opts s1 = Some (r, s2) -> appends s1 s2.
Proof.
  unfold _readProgram. intros H. pose proof (appends_refl s1) as A. revert H.
  app_all; intros H; app_inv.
  all: repeat match goal with
       | H : (if ?x then _ else _) = _ |- _ => destruct x eqn:?
       | H : match ?x with _ => _ end = _ |- _ => destruct x eqn:?
       end; app_inv.
  all: repeat match goal with
       | |- context [match ?x with _ => _ end] => destruct x
       end.
  all: eauto 10 using appends_unexpectedTokenCustom, appends_next,
    _readProgramIntro_appends, _readProgramOutro_appends, _readBlock_appends.
Qed.

(** X22: the parser only ever appends to its error list, and every message
    it records starts with [Unexpected]: so do all the messages of the list
    it returns. *)
Theorem parser_errors_are_unexpected (tokens : list WHILE_TOKEN_EXTD)
    (props : option ParserOpts) (ast : AST_PROG) (errs : list ErrorType)
    (rest : list WHILE_TOKEN_EXTD) :
  parser tokens props = Some (ast, errs, rest) ->
  forallb unexpected_msg errs = true.
Proof.
  rewrite parser_unfold.
  destruct (_readProgram _ _ _) as [[prog st]|] eqn:P; [|discriminate].
  intros H; inversion H; subst; clear H.
  apply _readProgram_appends in P. destruct P as (new & E & F).
  by rewrite E.
Qed.

Lemma parser_errors_are_unexpected_witness :
  exists ast errs rest,
    parser Fixtures.trailing_separator_program None = Some (ast, errs, rest)
    /\ length errs = 2
    /\ forallb unexpected_msg errs = true.
Proof.
  eexists _, _, _. split; [vm_compute; reflexivity|].
  split; [reflexivity|].
  eapply (parser_errors_are_unexpected Fixtures.trailing_separator_program None).
  vm_compute. reflexivity.
Defined.

Lemma _readExpr_pure fuel : forall opts s r s',
  pureOnly opts = true ->
  _readExpr fuel opts s = Some (r, s') -> slot_pure expr_pure r = true.
Proof.
  induction fuel as [|fuel IH]; intros opts s r s' P H; [discriminate|].
  simpl in H. rewrite P in H. simpl in H.
  repeat expr_step; inv_some;
  repeat match goal with
  | E : _readExpr _ _ _ = Some _ |- _ => apply (IH _ _ _ _ P) in E
  end; simpl in *;
  rewrite ?andb_true_r; try done.
  all: repeat match goal with H : ?x = true |- context [?x] => rewrite H end; done.
Qed.

Lemma block_pure_app a b : block_pure (a ++ b) = block_pure a && block_pure b.
Proof. apply forallb_app. Qed.

Lemma stmt_pure fuel : stmt_pure_at fuel.
Proof.
  induction fuel as [|fuel IH].
  - repeat split; intros; discriminate.
  - destruct IH as (IH1 & IH2 & IH3 & IH4 & IH5).
    repeat split; intros opts; intros;
    match goal with
    | P : pureOnly opts = true, H : _ = Some _ |- _ =>
        simpl in H; rewrite ?P in H; simpl in H
    end.
    all: repeat match goal with
         | H : ?T = Some _ |- _ =>
             lazymatch T with
             | _readStatementList_loop _ _ _ _ _ => fail
             | _readBlock _ _ _ => fail
             | context [match ?x with _ => _ end] => destruct x eqn:?
             | context [if ?x then _ else _] => destruct x eqn:?
             end
         end; inv_some.
    all: repeat match goal with
         | P : pureOnly ?o = true, E : _readExpr _ ?o _ = Some _ |- _ =>
             apply (_readExpr_pure _ _ _ _ _ P) in E
         | P : pureOnly ?o = true, E : _readBlock _ ?o _ = Some _ |- _ =>
             apply (IH5 _ _ _ _ P) in E
         | P : pureOnly ?o = true, E : _readElse _ ?o _ = Some _ |- _ =>
             apply (IH1 _ _ _ _ P) in E
         | P : pureOnly ?o = true, E : _readStmt _ ?o _ = Some _ |- _ =>
             apply (IH4 _ _ _ _ P) in E
         | P : pureOnly ?o = true, E : _readStatementList _ ?o _ = Some _ |- _ =>
             apply (IH3 _ _ _ _ P) in E
         end.
    all: try match goal with
         | P : pureOnly ?o = true,
           E : _readStatementList_loop _ ?o _ _ _ = Some _ |- _ =>
             apply (IH2 _ _ _ _ _ _ P) in E; [exact E|]
         end.
    all: unfold block_pure, slot_pure in *; simpl in *;
      unfold slot_pure in *; rewrite ?forallb_app; simpl;
      repeat match goal with H : ?x = true |- context [?x] => rewrite H end;
      try done.
Qed.

Lemma _readBlock_pure fuel opts s r s' :
  pureOnly opts = true ->
  _readBlock fuel opts s = Some (r, s') -> block_pure (snd r) = true.
Proof. apply (stmt_pure fuel). Qed.

(** X10: with [pureOnly], the body of the program the parser returns holds no
    [switch] node and no tree literal, at any depth, whatever the tokens
    are. *)
Theorem pure_mode_has_no_extension (tokens : list WHILE_TOKEN_EXTD)
    (ast : AST_PROG) (errs : list ErrorType) (rest : list WHILE_TOKEN_EXTD) :
  parser tokens (Some {| props_pureOnly := Some true |}) = Some (ast, errs, rest) ->
  block_pure (prog_body ast) = true.
Proof.
  rewrite parser_unfold. cbn [props_pureOnly default].
  destruct (_readProgram _ _ _) as [[prog st]|] eqn:P; [|discriminate].
  intros H; inversion H; subst; clear H.
  unfold _readProgram in P.
  destruct (_readProgramIntro _) as [[[pst name] input] s1].
  destruct (negb (is_EOI pst)).
  - destruct (_readBlock _ _ s1) as [[[bst body] s2]|] eqn:B; [|discriminate].
    apply _readBlock_pure in B; [|reflexivity]. simpl in B.
    destruct (negb (is_EOI bst)).
    + destruct (_readProgramOutro s2) as [[ost out] s3].
      destruct (next s3) as [fin s4].
      destruct (_ && _); inversion P; subst; exact B.
    + destruct (_ && _); inversion P; subst; exact B.
  - destruct (_ && _); inversion P; subst; reflexivity.
Qed.

Lemma pure_mode_has_no_extension_witness :
  exists ast errs,
    parser extended_program (Some {| props_pureOnly := Some true |})
    = Some (ast, errs, [])
    /\ block_pure (prog_body ast) = true.
Proof.
  eexists _, _. split; [vm_compute; reflexivity|].
  eapply (pure_mode_has_no_extension extended_program).
  vm_compute. reflexivity.
Defined.

Lemma _readInput_EOI s r s' :
  _readInput s = (r, s') -> fst r = EOI ->
  length (errors s) < length (errors s').
Proof.
  unfold _readInput, peek, next, _next. destruct (_tokens s) as [|t ts].
  - intros H _. inversion H; subst. norm_state. simpl. lia.
  - destruct (value_is t TKN_BLOCK_OPN); [intros H; inversion H; subst; done|].
    destruct (as_ident t); intros H; inversion H; subst; done.
Qed.

Lemma _readRead_EOI s r s' :
  _readRead s = (r, s') -> fst r = EOI ->
  length (errors s) < length (errors s').
Proof.
  unfold _readRead. unfold peek at 1. unfold next at 1 2 3. unfold _next.
  destruct (_tokens s) as [|t ts] eqn:T.
  - intros H _. inversion H; subst. norm_state. simpl. lia.
  - destruct (value_is t TKN_READ).
    + intros H R. apply _readInput_EOI in H; [|exact R]. exact H.
    + destruct (value_is t TKN_BLOCK_OPN); intros H; inversion H; subst; done.
Qed.

Lemma _readProgramIntro_EOI s r s' :
  _readProgramIntro s = (r, s') -> fst (fst r) = EOI ->
  length (errors s) < length (errors s').
Proof.
  unfold _readProgramIntro. unfold peek at 1. unfold next at 1 2 3. unfold _next.
  destruct (_tokens s) as [|t ts] eqn:T.
  - intros H _. inversion H; subst. norm_state. simpl. lia.
  - destruct (value_is t TKN_READ).
    + destruct (_readInput _) as [[ist inp] s1].
      destruct (is_OK ist); intros H; inversion H; subst; done.
    + destruct (value_is t TKN_BLOCK_OPN); [intros H; inversion H; subst; done|].
      destruct (_readRead _) as [[ist inp] s1] eqn:R.
      destruct (as_ident t); [|intros H; inversion H; subst; done].
      destruct (is_OK ist) eqn:O; intros H; inversion H; subst; [done|].
      simpl. intros ->. apply _readRead_EOI in R; [|reflexivity]. exact R.
Qed.

Lemma _readBlock_inv fuel opts s r s' :
  _readBlock fuel opts s = Some (r, s') ->
  quiet s s' -> block_ok r = true \/ exhausted s'.
Proof. apply (stmt_inv fuel). Qed.

Lemma silent_parse_ends fuel opts s prog s' :
  _readProgram fuel opts s = Some (prog, s') ->
  length (errors s') = length (errors s) -> _tokens s' = [].
Proof.
  unfold _readProgram.
  destruct (_readProgramIntro s) as [[[pst name] input] s1] eqn:I.
  pose proof (_readProgramIntro_shrink _ _ _ I) as (_ & _ & I1).
  pose proof (_readProgramIntro_EOI _ _ _ I) as I2. simpl in I2.
  destruct (is_EOI pst) eqn:PE; simpl.
  - destruct pst; try discriminate. specialize (I2 eq_refl).
    destruct (_ && _); intros H; inversion H; subst; lia.
  - destruct (_readBlock fuel opts s1) as [[[bst body] s2]|] eqn:B; [|discriminate].
    pose proof (_readBlock_shrink _ _ _ _ _ B) as (_ & _ & B1).
    pose proof (_readBlock_inv _ _ _ _ _ B) as B2.
    destruct (is_EOI bst) eqn:BE; simpl.
    + destruct bst; try discriminate.
      intros H Q. assert (s' = s2) by (destruct (_ && _); by inversion H). subst.
      assert (B3 : quiet s1 s2) by (unfold quiet; lia).
      destruct (B2 B3) as [B4|B4]; [discriminate B4|].
      unfold exhausted in B4. by apply length_zero_iff_nil.
    + destruct (_readProgramOutro s2) as [[ost out] s3] eqn:O.
      pose proof (_readProgramOutro_inv _ _ _ O) as ((_ & _ & O1) & _).
      destruct (next s3) as [fin s4] eqn:N.
      pose proof (next_inv _ _ _ N) as (N1 & _ & N2).
      intros H Q.
      assert (s' = match fin with
                   | Some final =>
                       unexpectedTokenCustom (actual_of final)
                         "Expected end of input" s4
                   | None => s4
                   end) by (destruct (_ && _); by inversion H).
      subst. destruct fin.
      * rewrite errors_unexpectedTokenCustom, N1 in Q. lia.
      * tauto.
Qed.

(** X9: a parse that records no error has read the whole input: the token
    list is left empty.  (The converse fails: a token list can be read to
    its end with errors.) *)
Theorem silent_parse_reads_all (tokens : list WHILE_TOKEN_EXTD)
    (props : option ParserOpts) (ast : AST_PROG) (rest : list WHILE_TOKEN_EXTD) :
  parser tokens props = Some (ast, [], rest) -> rest = [].
Proof.
  rewrite parser_unfold.
  destruct (_readProgram _ _ _) as [[prog st]|] eqn:P; [|discriminate].
  intros H; inversion H; subst; clear H.
  eapply silent_parse_ends; [exact P|].
  match goal with H : errors st = [] |- _ => rewrite H end. reflexivity.
Qed.

Lemma silent_parse_reads_all_witness :
  exists ast,
    parser Fixtures.add_program None = Some (ast, [], [])
    /\ @nil WHILE_TOKEN_EXTD = [].
Proof.
  eexists. split; [vm_compute; reflexivity|].
  eapply (silent_parse_reads_all Fixtures.add_program None).
  vm_compute. reflexivity.
Defined.

Lemma unparse_expr_OP c o args :
  unparse_expr (AST_OP c o args) = op_token o :: unparse_args args.
Proof. reflexivity. Qed.

Lemma as_ident_ident_token i : as_ident (ident_token i) = Some i.
Proof. by destruct i. Qed.

Lemma expect_cons ex s t rest :
  _tokens s = t :: rest -> existsb (value_is t) ex = true ->
  exists s', expect ex s = ((OK, Some t), s')
             /\ _tokens s' = rest /\ errors s' = errors s.
Proof.
  intros T X. unfold expect, _next. rewrite T. destruct ex; [done|].
  rewrite X. by eexists.
Qed.

Ltac take_next H :=
  match type of H with
  | context [next ?s] =>
      match goal with
      | T : _tokens s = ?t :: ?rest |- _ =>
          let s0 := fresh "s" in
          let N := fresh "N" in
          let T0 := fresh "T" in
          let E0 := fresh "E" in
          destruct (next_cons s t rest T) as (s0 & N & T0 & E0);
          rewrite N in H; clear N
      end
  end.

Lemma _readExpr_unparse fuel : forall opts s e rest r s',
  expr_printable e = true ->
  _tokens s = unparse_expr e ++ rest ->
  _readExpr fuel opts s = Some (r, s') ->
  r = Some e /\ _tokens s' = rest /\ errors s' = errors s.
Proof.
  induction fuel as [|fuel IH]; intros opts s e rest r s' P T H; [discriminate|].
  destruct e as [i|t|c o args].
  - simpl in T. cbn [_readExpr] in H. take_next H. cbv iota beta in H.
    simpl in P. unfold value_is, value in H. cbn [ident_token data] in H.
    apply negb_true_iff in P. rewrite P in H. inversion H; subst.
    destruct i. by repeat split.
  - discriminate P.
  - rewrite unparse_expr_OP in T. simpl in T.
    cbn [expr_printable] in P.
    apply andb_prop in P. destruct P as [P P4].
    apply andb_prop in P. destruct P as [P P3].
    apply andb_prop in P. destruct P as [P1 P2]. subst c.
    apply negb_true_iff in P2.
    cbn [_readExpr] in H. take_next H. cbv iota beta in H.
    unfold value_is, value in H. cbn [op_token data] in H.
    rewrite P2 in H.
    destruct (String.eqb (op_value o) TKN_HD || String.eqb (op_value o) TKN_TL).
    + destruct args as [|[a|] [|? ?]]; try discriminate.
      simpl in P4. rewrite andb_true_r in P4. simpl in T0.
      rewrite app_nil_r in T0.
      destruct (_readExpr fuel opts s0) as [[r1 s1]|] eqn:R; [|discriminate].
      destruct (IH _ _ _ _ _ _ P4 T0 R) as (-> & T1 & E1).
      assert (F : expr_flag a = true).
      { destruct a; try done. simpl in P4. by destruct complete. }
      rewrite F in H. inversion H; subst. destruct o. repeat split; congruence.
    + destruct args as [|[a|] [|[b|] [|? ?]]]; try discriminate.
      2: { exfalso. simpl in P4. destruct (expr_printable a); discriminate. }
      simpl in P4. rewrite andb_true_r in P4.
      apply andb_prop in P4. destruct P4 as [Pa Pb].
      simpl in T0. rewrite app_nil_r, <- app_assoc in T0.
      destruct (_readExpr fuel opts s0) as [[r1 s1]|] eqn:R1; [|discriminate].
      destruct (IH _ _ _ _ _ _ Pa T0 R1) as (-> & T1 & E1).
      destruct (_readExpr fuel opts s1) as [[r2 s2]|] eqn:R2; [|discriminate].
      destruct (IH _ _ _ _ _ _ Pb T1 R2) as (-> & T2 & E2).
      assert (Fa : expr_flag a = true).
      { destruct a; try done. simpl in Pa. by destruct complete. }
      assert (Fb : expr_flag b = true).
      { destruct b; try done. simpl in Pb. by destruct complete. }
      rewrite Fa, Fb in H. simpl in H. inversion H; subst. destruct o.
      repeat split; congruence.
Qed.

Lemma unparse_cmd_ASGN f i arg :
  unparse_cmd (AST_ASGN f i arg)
  = ident_token i :: mark TKN_ASSGN
    :: match arg with Some e => unparse_expr e | None => [] end.
Proof. reflexivity. Qed.

Lemma unparse_cmd_IF f cond i e :
  unparse_cmd (AST_IF f cond i e)
  = word TKN_IF :: match cond with Some e => unparse_expr e | None => [] end
    ++ unparse_block i ++ word TKN_ELSE :: unparse_block e.
Proof. reflexivity. Qed.

Lemma unparse_cmd_WHILE f cond b :
  unparse_cmd (AST_WHILE f cond b)
  = word TKN_WHILE :: match cond with Some e => unparse_expr e | None => [] end
    ++ unparse_block b.
Proof. reflexivity. Qed.

Lemma cmd_printable_IF f cond i e :
  cmd_printable (AST_IF f cond i e)
  = f && slot_printable expr_printable cond
    && block_printable i && block_printable e.
Proof. reflexivity. Qed.

Lemma cmd_printable_WHILE f cond b :
  cmd_printable (AST_WHILE f cond b)
  = f && slot_printable expr_printable cond && block_printable b.
Proof. reflexivity. Qed.

Lemma expr_printable_flag e : expr_printable e = true -> expr_flag e = true.
Proof. destruct e; try done. simpl. by destruct complete. Qed.

Ltac take_peek H :=
  match type of H with
  | context [peek ?s] =>
      match goal with
      | T : _tokens s = ?t :: ?rest |- _ => rewrite (peek_cons s t rest T) in H
      end
  end.

Ltac take_expect H :=
  match type of H with
  | context [expect ?ex ?s] =>
      match goal with
      | T : _tokens s = ?t :: ?rest |- _ =>
          let s0 := fresh "s" in
          let N := fresh "N" in
          let T0 := fresh "T" in
          let E0 := fresh "E" in
          destruct (expect_cons ex s t rest T eq_refl) as (s0 & N & T0 & E0);
          rewrite N in H; clear N
      end
  end.

Ltac andb_hyps H :=
  repeat match type of H with
  | _ && _ = true =>
      let H1 := fresh H in
      apply andb_prop in H; destruct H as [H H1]; try andb_hyps H1
  end.

Lemma cmd_first_token c rest t ts :
  cmd_printable c = true -> unparse_cmd c ++ rest = t :: ts ->
  value_is t TKN_BLOCK_CLS = false.
Proof.
  destruct c as [f i arg|f cond i e|f cond b|]; try discriminate.
  - rewrite unparse_cmd_ASGN. simpl. intros P T. inversion T; subst.
    cbn [cmd_printable] in P.
    apply andb_prop in P. destruct P as [P _].
    apply andb_prop in P. destruct P as [_ P].
    unfold value_is. simpl. by apply negb_true_iff.
  - rewrite unparse_cmd_IF. simpl. intros _ T. by inversion T.
  - rewrite unparse_cmd_WHILE. simpl. intros _ T. by inversion T.
Qed.

Lemma _readElse_unfold fuel opts state :
  _readElse (S fuel) opts state
  = match peek state with
    | None => Some ((EOI, []), unexpectedEOI [TKN_BLOCK_CLS] state)
    | Some pk =>
        if value_is pk TKN_ELSE then
          let '(_, state) := next state in
          _readBlock fuel opts state
        else Some ((OK, []), state)
    end.
Proof. reflexivity. Qed.

Lemma _readStmt_unfold fuel opts state :
  _readStmt (S fuel) opts state
  = let '(first, state) := next state in
    match first with
    | None => Some ((EOI, None), state)
    | Some first =>
      if value_is first TKN_IF then
        let? (cond, state) := _readExpr fuel opts state in
        let? ((ifState, ifBlock), state) := _readBlock fuel opts state in
        let? ((elseState, elseBlock), state) := _readElse fuel opts state in
        if slot_all_complete expr_flag true cond
           && is_OK ifState && is_OK elseState
        then Some ((OK, Some (AST_IF true cond ifBlock elseBlock)), state)
        else Some ((ERROR, Some (AST_IF false cond ifBlock elseBlock)), state)
      else if value_is first TKN_WHILE then
        let? (cond, state) := _readExpr fuel opts state in
        let? ((bodyState, body), state) := _readBlock fuel opts state in
        if is_OK bodyState && present cond
        then Some ((OK, Some (AST_WHILE true cond body)), state)
        else Some ((if is_EOI bodyState then EOI else ERROR,
                    Some (AST_WHILE false cond body)), state)
      else
        match as_ident first with
        | Some ident =>
            let '(_, state) := expect [TKN_ASSGN] state in
            let? (val, state) := _readExpr fuel opts state in
            if slot_all_complete expr_flag true val
            then Some ((OK, Some (AST_ASGN true ident val)), state)
            else Some ((ERROR, Some (AST_ASGN false ident val)), state)
        | None =>
            if negb (pureOnly opts) && value_is first TKN_SWITCH
            then _readSwitch fuel opts state
            else
              Some ((ERROR, None),
                    unexpectedTokenCustom None
                      ("Expected " +:+ TKN_IF +:+ " " +:+ TKN_WHILE
                       +:+ " or an assignment statement") state)
        end
    end.
Proof. reflexivity. Qed.

Lemma _readBlock_unfold fuel opts state :
  _readBlock (S fuel) opts state
  = let '(_, state) := expect [TKN_BLOCK_OPN] state in
    match peek state with
    | None =>
        let '(_, state) := next state in
        Some ((EOI, []), unexpectedEOI [TKN_BLOCK_CLS] state)
    | Some first =>
      if value_is first TKN_BLOCK_CLS then
        let '(_, state) := next state in
        Some ((OK, []), state)
      else
        let? ((status, res), state) := _readStatementList fuel opts state in
        if is_EOI status then Some ((status, res), state)
        else
          let '((clsStat, _), state) := expect [TKN_BLOCK_CLS] state in
          if is_EOI clsStat then Some ((clsStat, res), state)
          else if is_OK status && is_OK clsStat then Some ((OK, res), state)
          else Some ((ERROR, res), state)
    end.
Proof. reflexivity. Qed.

Lemma _readStatementList_unfold fuel opts state :
  _readStatementList (S fuel) opts state
  = _readStatementList_loop fuel opts OK [] state.
Proof. reflexivity. Qed.

Lemma stmts_first_token l rest :
  l <> [] -> block_printable l = true ->
  exists t ts, unparse_stmts l ++ rest = t :: ts
               /\ value_is t TKN_BLOCK_CLS = false.
Proof.
  destruct l as [|[c|] l]; [done| |discriminate]. intros _ P.
  simpl in P. apply andb_prop in P. destruct P as [Pc _].
  cbn [unparse_stmts]. rewrite <- app_assoc.
  destruct (unparse_cmd c ++ _) as [|t ts] eqn:U.
  - destruct c; discriminate.
  - exists t, ts. split; [done|]. eapply cmd_first_token; eassumption.
Qed.

#[local] Arguments unparse_block : simpl never.

Lemma stmt_unparse fuel : stmt_unparse_at fuel.
Proof.
  induction fuel as [|fuel IH].
  - repeat split; intros; discriminate.
  - destruct IH as (IH1 & IH2 & IH3 & IH4 & IH5).
    split; [|split; [|split; [|split]]].
    + (* _readElse *)
      intros opts s b rest r s' P T H. rewrite _readElse_unfold in H.
      take_peek H. try (cbv beta iota in H).
      change (value_is (word TKN_ELSE) TKN_ELSE) with true in H. try (cbv iota in H).
      take_next H. destruct (IH5 _ _ _ _ _ _ P T0 H) as (-> & T1 & E1).
      repeat split; congruence.
    + (* _readStatementList_loop *)
      intros opts st res s l t rest r s' NE P X T H.
      rewrite _readStatementList_loop_unfold in H.
      destruct l as [|[c|] l]; [done| |discriminate P].
      simpl in P. apply andb_prop in P. destruct P as [Pc Pl].
      cbn [unparse_stmts] in T. rewrite <- app_assoc in T.
      destruct (_readStmt fuel opts s) as [[[sst stmt] s1]|] eqn:E; [|discriminate].
      destruct (IH4 _ _ _ _ _ _ Pc T E) as (R & T1 & E1).
      inversion R; subst. try (cbv beta iota zeta in H).
      destruct l as [|o l].
      * simpl in T1. take_peek H. try (cbv beta iota in H). rewrite X in H.
        inversion H; subst. by repeat split.
      * simpl in T1. take_peek H. try (cbv beta iota in H).
        change (value_is (mark TKN_SEP) TKN_SEP) with true in H. try (cbv iota in H).
        take_next H.
        destruct (IH2 opts st (res ++ [Some c]) s0 (o :: l) t rest r s')
          as (-> & T2 & E2); try done.
        rewrite <- app_assoc. repeat split; [done|congruence].
    + (* _readStatementList *)
      intros opts s l t rest r s' NE P X T H. rewrite _readStatementList_unfold in H.
      by destruct (IH2 opts OK [] s l t rest r s') as (-> & T2 & E2).
    + (* _readStmt *)
      intros opts s c rest r s' P T H.
      destruct c as [f i arg|f cond i e|f cond b|]; [| | |discriminate P].
      * rewrite unparse_cmd_ASGN in T. simpl in T.
        cbn [cmd_printable] in P.
        apply andb_prop in P. destruct P as [P Pe].
        apply andb_prop in P. destruct P as [P P3].
        apply andb_prop in P. destruct P as [P P2].
        apply andb_prop in P. destruct P as [Pf P1]. subst f.
        destruct arg as [e|]; [|discriminate].
        cbn [slot_printable] in *.
        rewrite _readStmt_unfold in H. take_next H. try (cbv beta iota in H).
        unfold value_is at 1 2 in H. cbn [value ident_token data] in H.
        repeat match goal with
               | Q : negb _ = true |- _ => apply negb_true_iff in Q
               end.
        rewrite P1, P2 in H. rewrite as_ident_ident_token in H.
        take_expect H.
        destruct (_readExpr fuel opts s1) as [[r1 s2]|] eqn:R; [|discriminate].
        destruct (_readExpr_unparse _ _ _ _ _ _ _ Pe T1 R) as (-> & T2 & E2).
        cbn [slot_all_complete] in H. rewrite (expr_printable_flag _ Pe) in H.
        inversion H; subst. repeat split; congruence.
      * rewrite cmd_printable_IF in P.
        apply andb_prop in P. destruct P as [P Pe].
        apply andb_prop in P. destruct P as [P Pi].
        apply andb_prop in P. destruct P as [Pf Pc]. subst f.
        destruct cond as [c|]; [|discriminate].
        rewrite unparse_cmd_IF in T. cbn [app] in T.
        rewrite <- !app_assoc in T. cbn [app] in T.
        cbn [slot_printable] in *.
        rewrite _readStmt_unfold in H. take_next H. try (cbv beta iota in H).
        change (value_is (word TKN_IF) TKN_IF) with true in H. try (cbv iota in H).
        destruct (_readExpr fuel opts s0) as [[r1 s1]|] eqn:R; [|discriminate].
        destruct (_readExpr_unparse _ _ _ _ _ _ _ Pc T0 R) as (-> & T1 & E1).
        destruct (_readBlock fuel opts s1) as [[[st1 b1] s2]|] eqn:B; [|discriminate].
        destruct (IH5 _ _ _ _ _ _ Pi T1 B) as (RB & T2 & E2).
        inversion RB; subst.
        destruct (_readElse fuel opts s2) as [[[st2 b2] s3]|] eqn:L; [|discriminate].
        destruct (IH1 _ _ _ _ _ _ Pe T2 L) as (RL & T3 & E3).
        inversion RL; subst.
        cbn [slot_all_complete is_OK andb] in H.
        rewrite (expr_printable_flag _ Pc) in H.
        inversion H; subst. repeat split; congruence.
      * rewrite cmd_printable_WHILE in P.
        apply andb_prop in P. destruct P as [P Pb].
        apply andb_prop in P. destruct P as [Pf Pc]. subst f.
        destruct cond as [c|]; [|discriminate].
        rewrite unparse_cmd_WHILE in T. cbn [app] in T.
        rewrite <- !app_assoc in T. cbn [app] in T.
        cbn [slot_printable] in *.
        rewrite _readStmt_unfold in H. take_next H. try (cbv beta iota in H).
        change (value_is (word TKN_WHILE) TKN_IF) with false in H.
        change (value_is (word TKN_WHILE) TKN_WHILE) with true in H.
        try (cbv iota in H).
        destruct (_readExpr fuel opts s0) as [[r1 s1]|] eqn:R; [|discriminate].
        destruct (_readExpr_unparse _ _ _ _ _ _ _ Pc T0 R) as (-> & T1 & E1).
        destruct (_readBlock fuel opts s1) as [[[st1 b1] s2]|] eqn:B; [|discriminate].
        destruct (IH5 _ _ _ _ _ _ Pb T1 B) as (RB & T2 & E2).
        inversion RB; subst.
        cbn [present is_OK andb] in H.
        inversion H; subst. repeat split; congruence.
    + (* _readBlock *)
      intros opts s b rest r s' P T H. unfold unparse_block in T.
      cbn [app] in T. rewrite <- app_assoc in T. cbn [app] in T.
      rewrite _readBlock_unfold in H. take_expect H.
      destruct b as [|o b].
      * cbn [unparse_stmts app] in T0. take_peek H. try (cbv beta iota in H).
        change (value_is (mark TKN_BLOCK_CLS) TKN_BLOCK_CLS) with true in H.
        try (cbv iota in H). take_next H. inversion H; subst.
        repeat split; congruence.
      * destruct (stmts_first_token (o :: b) (mark TKN_BLOCK_CLS :: rest)
                    ltac:(done) P) as (t0 & ts & U & X).
        rewrite U in T0. take_peek H. try (cbv beta iota in H).
        rewrite X in H. rewrite <- U in T0.
        destruct (_readStatementList fuel opts s0) as [[[st1 l1] s1]|] eqn:L;
          [|discriminate].
        destruct (IH3 opts s0 (o :: b) (mark TKN_BLOCK_CLS) rest _ _
                    ltac:(done) P eq_refl T0 L) as (RL & T1 & E1).
        inversion RL; subst. cbn [is_EOI] in H. take_expect H.
        cbn [is_EOI is_OK andb] in H. inversion H; subst.
        repeat split; congruence.
Qed.

Lemma next_nil s :
  _tokens s = [] ->
  exists s', next s = (None, s') /\ _tokens s' = [] /\ errors s' = errors s.
Proof. intros T. unfold next, _next. rewrite T. by eexists. Qed.

Lemma _readBlock_unparse fuel opts s b rest r s' :
  block_printable b = true ->
  _tokens s = unparse_block b ++ rest ->
  _readBlock fuel opts s = Some (r, s') ->
  r = (OK, b) /\ _tokens s' = rest /\ errors s' = errors s.
Proof. apply (stmt_unparse fuel). Qed.

Lemma _readProgram_unparse fuel opts s p r s' :
  prog_printable p = true ->
  _tokens s = unparse_prog p ->
  _readProgram fuel opts s = Some (r, s') ->
  r = p /\ _tokens s' = [] /\ errors s' = errors s.
Proof.
  destruct p as [f [n|] [i|] [o|] body]; unfold prog_printable, unparse_prog;
    cbn [prog_complete prog_name prog_input prog_output prog_body];
    rewrite ?andb_false_r; try discriminate.
  intros P T H.
  apply andb_prop in P. destruct P as [P Pb].
  apply andb_prop in P. destruct P as [Pf P]. subst f.
  apply andb_prop in P. destruct P as [P P3].
  apply andb_prop in P. destruct P as [P1 P2].
  apply negb_true_iff in P1, P2, P3.
  unfold _readProgram in H.
  assert (I : exists s1, _readProgramIntro s = ((OK, Some n, Some i), s1)
                         /\ _tokens s1 = unparse_block body
                                         ++ [word TKN_WRITE; ident_token o]
                         /\ errors s1 = errors s).
  { unfold _readProgramIntro. rewrite (peek_cons _ _ _ T).
    unfold value_is at 1 2. cbn [value ident_token data]. rewrite P1, P2.
    destruct (next_cons _ _ _ T) as (s1 & -> & T1 & E1).
    unfold _readRead. rewrite (peek_cons _ _ _ T1).
    change (value_is (word TKN_READ) TKN_READ) with true. cbv iota.
    destruct (next_cons _ _ _ T1) as (s2 & -> & T2 & E2).
    unfold _readInput. rewrite (peek_cons _ _ _ T2).
    unfold value_is at 1. cbn [value ident_token data]. rewrite P3.
    rewrite !as_ident_ident_token.
    destruct (next_cons _ _ _ T2) as (s3 & -> & T3 & E3).
    exists s3. cbn [is_OK]. repeat split; congruence. }
  destruct I as (s1 & I & T1 & E1). rewrite I in H. cbn [is_EOI negb] in H.
  destruct (_readBlock fuel opts s1) as [[[bst b1] s2]|] eqn:B; [|discriminate].
  destruct (_readBlock_unparse _ _ _ _ _ _ _ Pb T1 B) as (RB & T2 & E2).
  inversion RB; subst. cbn [is_EOI negb] in H.
  assert (O : exists s3, _readProgramOutro s2 = ((OK, Some o), s3)
                         /\ _tokens s3 = [] /\ errors s3 = errors s2).
  { unfold _readProgramOutro.
    destruct (next_cons _ _ _ T2) as (s3 & -> & T3 & E3).
    change (value_is (word TKN_WRITE) TKN_WRITE) with true. cbv iota.
    destruct (next_cons _ _ _ T3) as (s4 & -> & T4 & E4).
    rewrite as_ident_ident_token. exists s4. repeat split; congruence. }
  destruct O as (s3 & O & T3 & E3). rewrite O in H.
  destruct (next_nil _ T3) as (s4 & N & T4 & E4). rewrite N in H.
  cbn [present is_OK andb] in H. inversion H; subst.
  repeat split; congruence.
Qed.

(** X11: the parser reads back every program spelled from a complete AST of
    assignments, conditionals and loops: it returns that AST, no error, and
    leaves no token, with or without [pureOnly]. *)
Theorem parser_reads_back (p : AST_PROG) (props : option ParserOpts) :
  prog_printable p = true ->
  parser (unparse_prog p) props = Some (p, [], []).
Proof.
  intros P. destruct (parser_total (unparse_prog p) props) as [[[ast errs] rest] R].
  rewrite R. rewrite parser_unfold in R.
  destruct (_readProgram _ _ _) as [[prog st]|] eqn:E; [|discriminate].
  inversion R; subst; clear R.
  destruct (_readProgram_unparse _ _ (new_StateManager (unparse_prog p)) _ _ _
              P eq_refl E) as (-> & T & Er).
  by rewrite T, Er.
Qed.

Lemma parser_reads_back_witness :
  prog_printable add_ast = true
  /\ parser (unparse_prog add_ast) None = Some (add_ast, [], []).
Proof.
  split; [reflexivity|]. apply (parser_reads_back add_ast None). reflexivity.
Defined.

End ParserMore.

(** * What the statuses and the [complete] flags of the parser tell *)
Module ParserStatus.
Import Syntax Parser ParserFacts Wellformed Printer Programs ParserMore.

Lemma cmd_complete_outside_IF f c i e :
  cmd_complete_outside (AST_IF f c i e)
  = f && slot_all_complete (expr_all_complete true) true c
    && block_complete_outside i && block_complete_outside e.
Proof. reflexivity. Qed.

Lemma cmd_complete_outside_WHILE f c b :
  cmd_complete_outside (AST_WHILE f c b)
  = f && present c && block_complete_outside b.
Proof. reflexivity. Qed.

Lemma block_complete_outside_app a b :
  block_complete_outside (a ++ b)
  = block_complete_outside a && block_complete_outside b.
Proof. apply forallb_app. Qed.

Lemma block_complete_outside_missing l :
  block_complete_outside l = true -> ~ In None l.
Proof.
  unfold block_complete_outside. rewrite forallb_forall.
  intros H I. apply H in I. discriminate I.
Qed.

Lemma flagged_missing l : forallb stmt_flagged l = true -> ~ In None l.
Proof. rewrite forallb_forall. intros H I. apply H in I. discriminate I. Qed.

#[local] Arguments cmd_complete_outside : simpl never.
#[local] Arguments block_complete_outside : simpl never.

Lemma slot_flag_complete fuel opts s r s' :
  _readExpr fuel opts s = Some (r, s') ->
  slot_all_complete expr_flag true r = true ->
  slot_all_complete (expr_all_complete true) true r = true.
Proof.
  intros H F. destruct r as [e|]; [|discriminate F]. simpl in *.
  apply _readExpr_shape in H. destruct H as [_ H]. by rewrite H.
Qed.

Lemma _readSwitch_node fuel opts s c s' :
  _readSwitch fuel opts s = Some ((OK, c), s') ->
  exists cond cases d, c = Some (AST_SWITCH true cond cases d).
Proof.
  destruct fuel as [|fuel]; [discriminate|]. rewrite _readSwitch_unfold.
  destruct (_readExpr fuel opts s) as [[inp s0]|]; [|discriminate].
  destruct (expect [TKN_BLOCK_OPN] s0) as [[st0 ?] s1].
  destruct (is_EOI st0); [inversion 1|].
  destruct (_readSwitch_loop fuel opts st0 [] None s1)
    as [[[[st1 cases] dflt] s2]|]; [|discriminate].
  destruct (expect [TKN_BLOCK_CLS] s2) as [[cs ?] s3]. cbv zeta.
  destruct (is_OK _) eqn:O; intros H; inversion H; subst; eauto.
  match goal with E : _ = OK |- _ => rewrite E in O end. discriminate O.
Qed.

Lemma stmt_outside fuel : stmt_outside_at fuel.
Proof.
  induction fuel as [|fuel (IH1 & IH2 & IH3 & IH4 & IH5)].
  { repeat split; intros; discriminate. }
  repeat split.
  - intros opts s l s' H. rewrite _readElse_unfold in H.
    destruct (peek s) as [pk|]; [|discriminate H].
    destruct (value_is pk TKN_ELSE).
    + destruct (next s) as [? s0]. by eapply IH5.
    + by inversion H.
  - intros opts st res s l s' H R. rewrite _readStatementList_loop_unfold in H.
    destruct (_readStmt fuel opts s) as [[[sst stmt] s1]|] eqn:E; [|discriminate].
    destruct sst; cbv zeta in H.
    + assert (A : block_complete_outside (res ++ [stmt]) = true).
      { rewrite block_complete_outside_app, R. simpl. by eapply IH4. }
      destruct (peek s1) as [nxt|].
      * destruct (value_is nxt TKN_SEP).
        -- destruct (next s1) as [? s2]. by eapply IH2.
        -- by inversion H; subst.
      * destruct (next s1). inversion H.
    + destruct (peek _) as [nxt|].
      * destruct (value_is nxt TKN_SEP).
        -- destruct (next _) as [? s2].
           apply _readStatementList_loop_flag in H; [|reflexivity].
           destruct H as [H _]. discriminate H.
        -- inversion H.
      * destruct (next _). inversion H.
    + inversion H.
  - intros opts s l s' H. rewrite _readStatementList_unfold in H.
    by eapply IH2.
  - intros opts s c s' H. rewrite _readStmt_unfold in H.
    destruct (next s) as [[first|] s0]; [|discriminate H].
    destruct (value_is first TKN_IF).
    { destruct (_readExpr fuel opts s0) as [[cond s1]|] eqn:E1; [|discriminate].
      destruct (_readBlock fuel opts s1) as [[[ist i] s2]|] eqn:E2; [|discriminate].
      destruct (_readElse fuel opts s2) as [[[est e] s3]|] eqn:E3; [|discriminate].
      destruct (slot_all_complete expr_flag true cond) eqn:F; [|discriminate H].
      destruct ist; try discriminate H. destruct est; try discriminate H.
      simpl in H. inversion H; subst.
      unfold block_complete_outside. simpl.
      rewrite cmd_complete_outside_IF, (slot_flag_complete _ _ _ _ _ E1 F).
      by rewrite (IH5 _ _ _ _ E2), (IH1 _ _ _ _ E3). }
    destruct (value_is first TKN_WHILE).
    { destruct (_readExpr fuel opts s0) as [[cond s1]|] eqn:E1; [|discriminate].
      destruct (_readBlock fuel opts s1) as [[[bst b] s2]|] eqn:E2; [|discriminate].
      destruct bst; simpl in H.
      - destruct (present cond) eqn:P; inversion H; subst.
        unfold block_complete_outside. simpl.
        by rewrite cmd_complete_outside_WHILE, P, (IH5 _ _ _ _ E2).
      - inversion H.
      - inversion H. }
    destruct (as_ident first) as [ident|].
    { destruct (expect [TKN_ASSGN] s0) as [? s1].
      destruct (_readExpr fuel opts s1) as [[val s2]|] eqn:E1; [|discriminate].
      destruct (slot_all_complete expr_flag true val) eqn:F; inversion H; subst.
      unfold block_complete_outside. simpl.
      unfold cmd_complete_outside.
      by rewrite (slot_flag_complete _ _ _ _ _ E1 F). }
    destruct (negb (pureOnly opts) && value_is first TKN_SWITCH); [|inversion H].
    apply _readSwitch_node in H. destruct H as (cond & cases & d & ->).
    reflexivity.
  - intros opts s l s' H. rewrite _readBlock_unfold in H.
    destruct (expect [TKN_BLOCK_OPN] s) as [? s0].
    destruct (peek s0) as [first|]; [|destruct (next s0); inversion H].
    destruct (value_is first TKN_BLOCK_CLS).
    { destruct (next s0). by inversion H. }
    destruct (_readStatementList fuel opts s0) as [[[st res] s1]|] eqn:L;
      [|discriminate].
    destruct st; simpl in H.
    + destruct (expect [TKN_BLOCK_CLS] s1) as [[c ?] ?].
      destruct c; simpl in H; inversion H; subst. by eapply IH3.
    + destruct (expect [TKN_BLOCK_CLS] s1) as [[c ?] ?].
      destruct c; simpl in H; inversion H.
    + inversion H.
Qed.

Lemma _readBlock_outside fuel opts s l s' :
  _readBlock fuel opts s = Some ((OK, l), s') ->
  block_complete_outside l = true.
Proof. apply (stmt_outside fuel). Qed.

Lemma cmd_outside_all (c : AST_CMD) :
  cmd_complete_outside c = true -> cmd_conditions_complete c = true ->
  cmd_all_complete true c = true.
Proof.
  revert c. fix IH 1. intros c.
  assert (B : forall l, block_complete_outside l = true ->
                        block_conditions_complete l = true ->
                        block_all_complete true l = true).
  { clear c. fix IHl 1. intros [|[c'|] l]; [reflexivity| |discriminate].
    unfold block_complete_outside, block_conditions_complete, block_all_complete.
    cbn [forallb slot_all_complete]. intros H1 H2.
    apply andb_prop in H1. destruct H1 as [H1 H1'].
    apply andb_prop in H2. destruct H2 as [H2 H2'].
    rewrite (IH c' H1 H2). apply (IHl l H1' H2'). }
  destruct c as [f i a|f cond i e|f cond b|f cond cs d].
  - intros H _. exact H.
  - rewrite cmd_complete_outside_IF, cmd_all_complete_IF.
    change (cmd_conditions_complete (AST_IF f cond i e))
      with (block_conditions_complete i && block_conditions_complete e).
    intros H1 H2.
    apply andb_prop in H1. destruct H1 as [H1 He].
    apply andb_prop in H1. destruct H1 as [H1 Hi].
    apply andb_prop in H2. destruct H2 as [Ci Ce].
    by rewrite H1, (B i Hi Ci), (B e He Ce).
  - rewrite cmd_complete_outside_WHILE, cmd_all_complete_WHILE.
    change (cmd_conditions_complete (AST_WHILE f cond b))
      with (slot_all_complete (expr_all_complete true) true cond
            && block_conditions_complete b).
    intros H1 H2.
    apply andb_prop in H1. destruct H1 as [H1 Hb].
    apply andb_prop in H1. destruct H1 as [-> _].
    apply andb_prop in H2. destruct H2 as [-> Cb].
    by rewrite (B b Hb Cb).
  - discriminate 2.
Qed.

Lemma block_outside_all l :
  block_complete_outside l = true -> block_conditions_complete l = true ->
  block_all_complete true l = true.
Proof.
  induction l as [|[c|] l IH]; [reflexivity| |discriminate].
  unfold block_complete_outside, block_conditions_complete, block_all_complete.
  cbn [forallb slot_all_complete]. intros H1 H2.
  apply andb_prop in H1. destruct H1 as [H1 H1'].
  apply andb_prop in H2. destruct H2 as [H2 H2'].
  rewrite (cmd_outside_all c H1 H2). by apply IH.
Qed.

Ltac loud := intros ?; exfalso; norm_state; simpl in *; norm_state; lia.

Lemma _readProgram_outside fuel opts s ast s' :
  _readProgram fuel opts s = Some (ast, s') ->
  prog_complete ast = true -> prog_complete_outside ast = true.
Proof.
  unfold _readProgram.
  destruct (_readProgramIntro s) as [[[pst name] input] s1].
  destruct (is_EOI pst); simpl.
  { rewrite !andb_false_r. intros H; inversion H; subst. discriminate. }
  destruct (_readBlock fuel opts s1) as [[[bst body] s2]|] eqn:B; [|discriminate].
  destruct (is_EOI bst); simpl.
  { rewrite !andb_false_r. intros H; inversion H; subst. discriminate. }
  destruct (_readProgramOutro s2) as [[ost out] s3].
  destruct (next s3) as [fin s4].
  destruct (_ && _) eqn:C; intros H; inversion H; subst; [|discriminate].
  intros _. unfold prog_complete_outside. simpl.
  repeat match goal with
         | H : _ && _ = true |- _ => apply andb_prop in H; destruct H
         end.
  destruct bst; try discriminate.
  rewrite (_readBlock_outside _ _ _ _ _ B).
  repeat match goal with H : present _ = true |- _ => rewrite H end.
  reflexivity.
Qed.

Lemma _readInput_quiet s st input s' :
  _readInput s = ((st, input), s') -> quiet s s' ->
  present input = true -> st = OK.
Proof.
  unfold _readInput, peek, next, _next, quiet. destruct (_tokens s) as [|t ts].
  - intros H. by inversion H.
  - destruct (value_is t TKN_BLOCK_OPN); [intros H; by inversion H|].
    destruct (as_ident t); intros H; by inversion H.
Qed.

Lemma _readRead_quiet s st input s' :
  _readRead s = ((st, input), s') -> quiet s s' ->
  present input = true -> st = OK.
Proof.
  unfold _readRead. unfold peek at 1. unfold next at 1 2 3. unfold _next.
  destruct (_tokens s) as [|t ts] eqn:T.
  - intros H. by inversion H.
  - destruct (value_is t TKN_READ).
    + intros H Q. eapply _readInput_quiet; [exact H|exact Q].
    + destruct (value_is t TKN_BLOCK_OPN); intros H; inversion H; subst;
        unfold quiet; loud.
Qed.

Lemma _readProgramIntro_quiet s st name input s' :
  _readProgramIntro s = ((st, name, input), s') -> quiet s s' ->
  present name = true -> present input = true -> st = OK.
Proof.
  unfold _readProgramIntro. unfold peek at 1. unfold next at 1 2 3. unfold _next.
  destruct (_tokens s) as [|t ts] eqn:T.
  - intros H. by inversion H.
  - destruct (value_is t TKN_READ).
    + destruct (_readInput _) as [[ist inp] s1].
      destruct (is_OK ist); intros H; by inversion H.
    + destruct (value_is t TKN_BLOCK_OPN); [intros H; by inversion H|].
      destruct (_readRead _) as [[ist inp] s1] eqn:R.
      destruct (as_ident t); [|intros H; by inversion H].
      destruct (is_OK ist) eqn:O; intros H; inversion H; subst; [done|].
      intros Q _ P. apply _readRead_quiet in R; [|exact Q|exact P].
      subst. discriminate O.
Qed.

Lemma _readProgramOutro_quiet s st out s' :
  _readProgramOutro s = ((st, out), s') -> quiet s s' ->
  st = OK /\ present out = true.
Proof.
  unfold _readProgramOutro, next, _next, quiet.
  destruct (_tokens s) as [|w ts]; [intros H; inversion H; subst; loud|].
  destruct (value_is w TKN_WRITE).
  - destruct ts as [|o ts]; simpl; [intros H; inversion H; subst; loud|].
    destruct (as_ident o); intros H; inversion H; subst; [done|loud].
  - destruct (as_ident w).
    + destruct ts as [|o ts]; simpl; [intros H; inversion H; subst; loud|].
      destruct (as_ident o); intros H; inversion H; subst; loud.
    + destruct ts as [|o ts]; simpl; [intros H; inversion H; subst; loud|].
      destruct (as_ident o); intros H; inversion H; subst; loud.
Qed.

Lemma _readProgram_quiet fuel opts s ast s' :
  _readProgram fuel opts s = Some (ast, s') -> quiet s s' ->
  present (prog_name ast) && present (prog_input ast)
  && present (prog_output ast) = true ->
  prog_complete ast = true.
Proof.
  unfold _readProgram.
  destruct (_readProgramIntro s) as [[[pst name] input] s1] eqn:I.
  pose proof (_readProgramIntro_shrink _ _ _ I) as (_ & _ & I1).
  pose proof (_readProgramIntro_quiet _ _ _ _ _ I) as I2.
  destruct (is_EOI pst) eqn:PE; simpl.
  { rewrite !andb_false_r. intros H; inversion H; subst. simpl.
    by rewrite !andb_false_r. }
  destruct (_readBlock fuel opts s1) as [[[bst body] s2]|] eqn:B; [|discriminate].
  pose proof (_readBlock_shrink _ _ _ _ _ B) as (_ & _ & B1).
  pose proof (_readBlock_inv _ _ _ _ _ B) as B2.
  destruct (is_EOI bst) eqn:BE; simpl.
  { rewrite !andb_false_r. intros H; inversion H; subst. simpl.
    by rewrite !andb_false_r. }
  destruct (_readProgramOutro s2) as [[ost out] s3] eqn:O.
  pose proof (_readProgramOutro_inv _ _ _ O) as ((_ & _ & O1) & O2).
  pose proof (_readProgramOutro_quiet _ _ _ _ O) as O3.
  destruct (next s3) as [fin s4] eqn:N.
  pose proof (next_inv _ _ _ N) as (N1 & _ & N2).
  intros H Q P.
  assert (E : s' = match fin with
                   | Some final =>
                       unexpectedTokenCustom (actual_of final)
                         "Expected end of input" s4
                   | None => s4
                   end) by (destruct (_ && _); by inversion H).
  assert (A : prog_name ast = name /\ prog_input ast = input
              /\ prog_output ast = out)
    by (destruct (_ && _); by inversion H).
  destruct A as (A1 & A2 & A3). rewrite A1, A2, A3 in P.
  apply andb_prop in P. destruct P as [P P3].
  apply andb_prop in P. destruct P as [P1 P2].
  unfold quiet, exhausted in *.
  assert (Q4 : length (errors s4) = length (errors s)).
  { subst s'. destruct fin; [|exact Q].
    rewrite errors_unexpectedTokenCustom, N1 in Q. lia. }
  rewrite N1 in Q4.
  assert (pst = OK) as -> by (apply I2; [lia|done|done]).
  destruct O3 as [-> _]; [lia|].
  destruct B2 as [B2|B2]; [lia| |].
  - unfold block_ok in B2. simpl in B2. apply andb_prop in B2.
    destruct B2 as [B2 _]. destruct bst; try discriminate B2.
    rewrite P1, P2, P3 in H. simpl in H. by inversion H.
  - specialize (O2 B2). lia.
Qed.

Lemma _readStmt_holds fuel opts s st c s' l :
  _readStmt fuel opts s = Some ((st, Some c), s') ->
  In l (cmd_lists c) -> In None l -> cmd_flag c = false.
Proof.
  intros H I N. destruct (cmd_flag c) eqn:F; [exfalso|reflexivity].
  assert (st = OK) as -> by (by apply (_readStmt_flag _ _ _ _ _ _ H)).
  apply (stmt_outside fuel) in H. unfold block_complete_outside in H.
  simpl in H. rewrite andb_true_r in H. revert N.
  apply block_complete_outside_missing.
  destruct c as [| f cond i e | f cond b |]; simpl in I.
  - destruct I.
  - rewrite cmd_complete_outside_IF in H.
    apply andb_prop in H. destruct H as [H He].
    apply andb_prop in H. destruct H as [_ Hi].
    destruct I as [<-|[<-|[]]]; assumption.
  - rewrite cmd_complete_outside_WHILE in H.
    apply andb_prop in H. destruct H as [_ Hb].
    destruct I as [<-|[]]; assumption.
  - destruct I.
Qed.

Lemma _readStatementList_flag fuel opts s l s' :
  _readStatementList fuel opts s = Some ((OK, l), s') ->
  forallb stmt_flagged l = true.
Proof.
  destruct fuel as [|fuel]; [discriminate|]. rewrite _readStatementList_unfold.
  intros H. by apply (_readStatementList_loop_flag _ _ _ _ _ _ _ H).
Qed.

Lemma _readCase_unfold fuel opts state :
  _readCase (S fuel) opts state
  = let '(caseTkn, state) := next state in
    match caseTkn with
    | None => Some ((EOI, None), state)
    | Some caseTkn =>
      if value_is caseTkn TKN_DEFAULT then
        let '(_, state) := expect [TKN_COLON] state in
        let? ((bodyStatus, body), state) := _readStatementList fuel opts state in
        if negb (is_OK bodyStatus)
        then Some ((bodyStatus, Some (switch_default (false, body))), state)
        else Some ((bodyStatus, Some (switch_default (true, body))), state)
      else if value_is caseTkn TKN_CASE then
        let? (expr, state) := _readExpr fuel opts state in
        match expr with
        | None => Some ((EOI, None), state)
        | Some expr =>
          let status := if negb (expr_flag expr) then ERROR else OK in
          let '(_, state) := expect [TKN_COLON] state in
          let? ((bodyStatus, body), state) := _readStatementList fuel opts state in
          if is_OK bodyStatus && is_OK status
          then Some ((bodyStatus, Some (switch_case (true, expr, body))), state)
          else Some ((bodyStatus, Some (switch_case (false, expr, body))), state)
        end
      else
        Some ((ERROR, None),
              unexpectedToken (actual_of caseTkn) [TKN_CASE; TKN_DEFAULT] state)
    end.
Proof. reflexivity. Qed.

Lemma _readCase_holds fuel opts s st n s' :
  _readCase fuel opts s = Some ((st, Some n), s') ->
  In None (case_body n) -> case_flag n = false.
Proof.
  destruct fuel as [|fuel]; [discriminate|]. rewrite _readCase_unfold.
  destruct (next s) as [[caseTkn|] s0]; [|discriminate].
  destruct (value_is caseTkn TKN_DEFAULT).
  { destruct (expect [TKN_COLON] s0) as [? s1].
    destruct (_readStatementList fuel opts s1) as [[[bst body] s2]|] eqn:L;
      [|discriminate].
    destruct bst; simpl; intros H; inversion H; subst; simpl; try done.
    intros N. exfalso. revert N. apply flagged_missing.
    by eapply _readStatementList_flag. }
  destruct (value_is caseTkn TKN_CASE); [|discriminate].
  destruct (_readExpr fuel opts s0) as [[[expr|] s1]|]; try discriminate.
  destruct (expect [TKN_COLON] s1) as [? s2].
  destruct (_readStatementList fuel opts s2) as [[[bst body] s3]|] eqn:L;
    [|discriminate].
  cbv zeta.
  destruct bst; simpl; try (intros H; inversion H; subst; simpl; done).
  destruct (is_OK _); intros H; inversion H; subst; simpl; try done.
  intros N. exfalso. revert N. apply flagged_missing.
  by eapply _readStatementList_flag.
Qed.

Lemma parser_holds tokens props ast errs rest :
  parser tokens props = Some (ast, errs, rest) ->
  In None (prog_body ast) -> prog_complete ast = false.
Proof.
  rewrite parser_unfold.
  destruct (_readProgram _ _ _) as [[prog st]|] eqn:R; [|discriminate].
  intros H; inversion H; subst. intros N.
  destruct (prog_complete ast) eqn:C; [exfalso|reflexivity].
  apply (_readProgram_outside _ _ _ _ _ R) in C.
  unfold prog_complete_outside in C. apply andb_prop in C. destruct C as [_ C].
  revert N. by apply block_complete_outside_missing.
Qed.

Lemma _readStatementList_loop_appends fuel opts st res s1 r s2 :
  _readStatementList_loop fuel opts st res s1 = Some (r, s2) ->
  exists new, errors s2 = errors s1 ++ new.
Proof.
  intros H.
  destruct (proj1 (proj2 (stmt_appends fuel)) _ _ _ _ _ _ H s1 (appends_refl s1))
    as (new & E & _).
  by exists new.
Qed.

(** ** Completeness of the AST and the error list *)

(** A parse can be incomplete without any error: the input variable of
    [prog read 5 { } write X] is not an identifier, and [_readInput] returns
    the status [ERROR] for it without recording anything. *)
Example silent_input_not_identifier :
  exists ast,
    parser number_as_input None = Some (ast, [], [])
    /\ prog_complete ast = false /\ prog_input ast = None.
Proof. eexists. split; [vm_compute; reflexivity|]. split; reflexivity. Qed.

(** So when the program name is not an identifier. *)
Example silent_name_not_identifier :
  exists ast,
    parser number_as_name None = Some (ast, [], [])
    /\ prog_complete ast = false /\ prog_name ast = None.
Proof. eexists. split; [vm_compute; reflexivity|]. split; reflexivity. Qed.

(** So when the input ends where a statement is to start: [_readStmt]
    returns the status [EOI] without recording anything, and the output is
    not read. *)
Example silent_end_after_separator :
  exists ast,
    parser end_after_separator None = Some (ast, [], [])
    /\ prog_complete ast = false /\ prog_output ast = None.
Proof. eexists. split; [vm_compute; reflexivity|]. split; reflexivity. Qed.

(** A loop is marked complete whatever its condition is: in
    [prog read X { while hd { { } } write X] the condition [hd] has no
    argument and [complete = false], and the loop and the program have
    [complete = true]. *)
Example complete_loop_incomplete_condition :
  exists ast errs o cond,
    parser loop_on_half_condition None = Some (ast, errs, [])
    /\ prog_complete ast = true
    /\ prog_body ast = [Some (AST_WHILE true (Some (AST_OP false o [None])) [])]
    /\ cond = AST_OP false o [None]
    /\ length errs = 1
    /\ prog_complete_outside ast = true
    /\ prog_all_complete false ast = false.
Proof.
  eexists _, _, _, _. split; [vm_compute; reflexivity|].
  repeat split; reflexivity.
Qed.

(** C1, amended: for every token list the parser returns an AST and an error
    list.  If every node of the AST has [complete = true], so has the program
    node.  If [ast.complete = true], then the name, the input and the output
    are there and every node of the body is complete with no slot missing,
    except below the condition of a loop and below a switch; so every node is
    complete when the conditions of the loops are and there is no switch,
    and also when the error list is empty.  If the error list is empty and
    the name, the input and the output are there, then [ast.complete = true]
    and every node is complete. *)
Theorem parser_completeness (tokens : list WHILE_TOKEN_EXTD)
    (props : option ParserOpts) :
  exists ast errs rest,
    parser tokens props = Some (ast, errs, rest)
    /\ (prog_all_complete false ast = true -> prog_complete ast = true)
    /\ (prog_complete ast = true -> prog_complete_outside ast = true)
    /\ (prog_complete ast = true ->
        block_conditions_complete (prog_body ast) = true ->
        prog_all_complete true ast = true)
    /\ (prog_complete ast = true -> errs = [] ->
        prog_all_complete true ast = true)
    /\ (errs = [] ->
        present (prog_name ast) && present (prog_input ast)
        && present (prog_output ast) = true ->
        prog_complete ast = true /\ prog_all_complete true ast = true).
Proof.
  destruct (parser_total tokens props) as [[[ast errs] rest] E].
  exists ast, errs, rest. split; [exact E|].
  rewrite parser_unfold in E.
  destruct (_readProgram _ _ _) as [[prog st]|] eqn:R; [|discriminate].
  inversion E; subst. clear E.
  assert (A : prog_complete ast = true -> errors st = [] ->
              prog_all_complete true ast = true).
  { intros C Q. eapply _readProgram_complete; [exact R|exact C|].
    by apply new_StateManager_quiet. }
  assert (B : prog_complete ast = true -> prog_complete_outside ast = true)
    by (by eapply _readProgram_outside).
  split; [|split; [exact B|split; [|split; [exact A|]]]].
  - unfold prog_all_complete. intros H.
    apply andb_prop in H. destruct H as [H _].
    apply andb_prop in H. tauto.
  - intros C L. specialize (B C). unfold prog_complete_outside in B.
    apply andb_prop in B. destruct B as [B B3].
    apply andb_prop in B. destruct B as [_ B2].
    unfold prog_all_complete. rewrite C, B2. simpl.
    by apply block_outside_all.
  - intros Q P.
    assert (C : prog_complete ast = true).
    { eapply _readProgram_quiet; [exact R| |exact P].
      by apply new_StateManager_quiet. }
    split; [exact C|by apply A].
Qed.

(** ** A separator before a closing brace *)

(** C5, amended: a separator is always followed by the reading of a
    statement.  When a statement has been read with status OK and the next
    tokens are [;] and the symbol [}], the statement list takes both: the
    brace is read as the start of a statement and the error
    [Unexpected token: Expected if while or an assignment statement] is
    recorded at its position.  The tokens after the brace are then skipped up
    to the next [;] or [}] (or the end of the input) and the list goes on
    from there with the status [ERROR], the statement and a missing statement
    being its next members.  So the status of the list is not [OK], the
    error stays in the error list, and the conditional, the loop, the
    [case] or [default] node or the program that holds the list has
    [complete = false]. *)
Theorem separator_then_brace (fuel : nat) (opts : IntParserOpts)
    (status : ParseStatus) (res : list (option AST_CMD)) (s : StateManager)
    (stmt : option AST_CMD) (s1 : StateManager) (sep cls : WHILE_TOKEN_EXTD)
    (rest : list WHILE_TOKEN_EXTD) (r : status_list) (s' : StateManager) :
  _readStmt fuel opts s = Some ((OK, stmt), s1) ->
  _tokens s1 = sep :: cls :: rest ->
  value_is sep TKN_SEP = true ->
  value_is cls TKN_BLOCK_CLS = true ->
  type cls = symbol ->
  _readStatementList_loop (S fuel) opts status res s = Some (r, s') ->
  let err :=
    {| position := pos cls;
       message := "Unexpected token: Expected if while or an assignment statement" |} in
  let s4 :=
    {| errors := errors s1 ++ [err]; _tokens := rest;
       _pos := pos cls; _lastToken := Some cls |} in
  let skipped := fst (consumeUntil [TKN_BLOCK_CLS; TKN_SEP] s4) in
  let s5 := snd (consumeUntil [TKN_BLOCK_CLS; TKN_SEP] s4) in
  let res' := res ++ [stmt; None] in
  rest = skipped ++ _tokens s5
  /\ forallb (fun t => negb (existsb (value_is t) [TKN_BLOCK_CLS; TKN_SEP]))
       skipped = true
  /\ match _tokens s5 with
     | [] => True
     | t :: _ => existsb (value_is t) [TKN_BLOCK_CLS; TKN_SEP] = true
     end
  /\ errors s5 = errors s1 ++ [err]
  /\ Some (r, s')
     = match peek s5 with
       | None =>
           Some ((EOI, res'), unexpectedEOI [TKN_SEP; TKN_BLOCK_CLS] (snd (next s5)))
       | Some nxt =>
           if value_is nxt TKN_SEP
           then _readStatementList_loop (fuel - 1) opts ERROR res' (snd (next s5))
           else Some ((ERROR, res'), s5)
       end
  /\ fst r <> OK
  /\ (exists more, snd r = res' ++ more)
  /\ (exists more, errors s' = errors s1 ++ err :: more)
  /\ (forall fuel0 opts0 s0 st c s2,
        _readStmt fuel0 opts0 s0 = Some ((st, Some c), s2) ->
        In (snd r) (cmd_lists c) -> cmd_flag c = false)
  /\ (forall fuel0 opts0 s0 st n s2,
        _readCase fuel0 opts0 s0 = Some ((st, Some n), s2) ->
        case_body n = snd r -> case_flag n = false)
  /\ (forall tokens props ast errs rest0,
        parser tokens props = Some (ast, errs, rest0) ->
        prog_body ast = snd r -> prog_complete ast = false).
Proof.
  intros S1 T VS VC TY L. cbv zeta.
  set (err := {| position := pos cls; message := _ |}).
  set (s4 := {| errors := errors s1 ++ [err]; _tokens := rest;
                _pos := pos cls; _lastToken := Some cls |}).
  destruct (consumeUntil_loop_split [TKN_BLOCK_CLS; TKN_SEP] (_tokens s4) [] s4
              eq_refl) as (sk & I1 & I2 & I3 & I4 & I5).
  change (consumeUntil_loop [TKN_BLOCK_CLS; TKN_SEP] (_tokens s4) [] s4)
    with (consumeUntil [TKN_BLOCK_CLS; TKN_SEP] s4) in *.
  set (s5 := snd (consumeUntil [TKN_BLOCK_CLS; TKN_SEP] s4)) in *.
  simpl in I1, I2, I3. rewrite I1.
  set (res' := res ++ [stmt; None]).
  assert (EQ : Some (r, s')
     = match peek s5 with
       | None =>
           Some ((EOI, res'), unexpectedEOI [TKN_SEP; TKN_BLOCK_CLS] (snd (next s5)))
       | Some nxt =>
           if value_is nxt TKN_SEP
           then _readStatementList_loop (fuel - 1) opts ERROR res' (snd (next s5))
           else Some ((ERROR, res'), s5)
       end).
  { rewrite <- L. rewrite _readStatementList_loop_unfold, S1. cbn iota beta.
    rewrite (peek_cons _ _ _ T), VS.
    rewrite _readStatementList_loop_unfold, S1 in L. cbn iota beta in L.
    rewrite (peek_cons _ _ _ T), VS in L.
    unfold next at 1, _next at 1 in L. unfold next at 1, _next at 1.
    rewrite T in *.
    destruct fuel as [|fuel]; [discriminate L|].
    rewrite _readStatementList_loop_unfold in L.
    destruct fuel as [|fuel]; [discriminate L|]. clear L.
    rewrite _readStatementList_loop_unfold.
    rewrite (_readStmt_stray fuel opts _ cls
               {| errors := errors s1; _tokens := rest;
                  _pos := pos cls; _lastToken := Some cls |});
      [|by unfold next, _next
       |by apply (value_is_inj cls TKN_BLOCK_CLS)
       |by apply (value_is_inj cls TKN_BLOCK_CLS)
       |by apply as_ident_symbol|by apply (value_is_inj cls TKN_BLOCK_CLS)].
    cbn iota beta.
    change (unexpectedTokenCustom None _ _) with s4.
    fold s5. unfold res'. rewrite <- app_assoc. simpl app.
    replace (S (S fuel) - 1) with (S fuel) by lia.
    destruct (peek s5) as [nxt|]; [|by destruct (next s5)].
    destruct (value_is nxt TKN_SEP); [|reflexivity].
    by destruct (next s5). }
  assert (R : fst r <> OK /\ (exists more, snd r = res' ++ more)
              /\ exists more, errors s' = errors s1 ++ err :: more).
  { destruct (peek s5) as [nxt|].
    - destruct (value_is nxt TKN_SEP).
      + symmetry in EQ.
        pose proof (_readStatementList_loop_appends _ _ _ _ _ _ _ EQ) as [new E].
        apply _readStatementList_loop_acc in EQ. destruct EQ as [A B].
        split; [by apply A|]. split; [exact B|].
        exists new. rewrite E.
        destruct (next s5) as [o s6] eqn:N. apply next_inv in N as (N & _).
        simpl. rewrite N, I3, <- app_assoc. reflexivity.
      + injection EQ as -> ->. split; [done|]. split.
        * exists []. by rewrite app_nil_r.
        * exists []. exact I3.
    - injection EQ as -> ->. split; [done|]. split.
      + exists []. by rewrite app_nil_r.
      + destruct (next s5) as [o s6] eqn:N. apply next_inv in N as (N & _).
        cbn [snd]. unfold unexpectedEOI. rewrite errors_set_errors, N, I3.
        unfold em_unexpectedEOI, em_unexpectedValue, addError_at.
        rewrite <- app_assoc. eexists. reflexivity. }
  destruct R as (R1 & [more R2] & R3).
  assert (M : In None (snd r)).
  { rewrite R2. unfold res'. rewrite !in_app_iff. left. right. simpl. tauto. }
  split; [exact I2|]. split; [exact I4|]. split; [exact I5|].
  split; [exact I3|]. split; [exact EQ|]. split; [exact R1|].
  split; [by exists more|]. split; [exact R3|]. split; [|split].
  - intros fuel0 opts0 s0 st c s2 H I. by eapply _readStmt_holds.
  - intros fuel0 opts0 s0 st n s2 H E. eapply _readCase_holds; [exact H|].
    by rewrite E.
  - intros tokens props ast errs rest0 H E. eapply parser_holds; [exact H|].
    by rewrite E.
Qed.

Lemma separator_then_brace_witness :
  let s := new_StateManager separator_brace_and_more in
  let opts := {| pureOnly := false |} in
  exists stmt s1 sep cls rest r s',
    _readStmt 60 opts s = Some ((OK, stmt), s1)
    /\ _tokens s1 = sep :: cls :: rest
    /\ _readStatementList_loop 61 opts OK [] s = Some (r, s')
    /\ length rest = 8
    /\ length (fst (consumeUntil [TKN_BLOCK_CLS; TKN_SEP]
                      {| errors :=
                           errors s1
                           ++ [{| position := pos cls;
                                  message := "Unexpected token: Expected if while or an assignment statement" |}];
                         _tokens := rest; _pos := pos cls;
                         _lastToken := Some cls |})) = 3
    /\ length (snd r) = 3
    /\ fst r <> OK
    /\ (exists more, snd r = ([] ++ [stmt; None]) ++ more)
    /\ (exists more,
          errors s'
          = errors s1
            ++ {| position := pos cls;
                  message := "Unexpected token: Expected if while or an assignment statement" |}
               :: more).
Proof.
  cbv zeta.
  let r1 := eval vm_compute in
    (_readStmt 60 {| pureOnly := false |}
       (new_StateManager separator_brace_and_more)) in
  lazymatch r1 with
  | Some ((OK, ?stmt), ?s1) =>
    let r2 := eval vm_compute in
      (_readStatementList_loop 61 {| pureOnly := false |} OK []
         (new_StateManager separator_brace_and_more)) in
    lazymatch r2 with
    | Some (?r, ?s') =>
      let toks := eval vm_compute in (_tokens s1) in
      lazymatch toks with
      | ?sep :: ?cls :: ?rest =>
        exists stmt, s1, sep, cls, rest, r, s';
        assert (H1 : _readStmt 60 {| pureOnly := false |}
                       (new_StateManager separator_brace_and_more)
                     = Some ((OK, stmt), s1)) by (vm_compute; reflexivity);
        assert (H2 : _tokens s1 = sep :: cls :: rest) by reflexivity;
        assert (H3 : value_is sep TKN_SEP = true) by reflexivity;
        assert (H4 : value_is cls TKN_BLOCK_CLS = true) by reflexivity;
        assert (H5 : type cls = symbol) by reflexivity;
        assert (H6 : _readStatementList_loop 61 {| pureOnly := false |} OK []
                       (new_StateManager separator_brace_and_more)
                     = Some (r, s')) by (vm_compute; reflexivity);
        pose proof (separator_then_brace 60 {| pureOnly := false |} OK []
                      (new_StateManager separator_brace_and_more)
                      stmt s1 sep cls rest r s' H1 H2 H3 H4 H5 H6) as W;
        cbv zeta in W;
        destruct W as (_ & _ & _ & _ & _ & W6 & W7 & W8 & _);
        split; [exact H1|]; split; [exact H2|]; split; [exact H6|];
        split; [reflexivity|]; split; [reflexivity|]; split; [reflexivity|];
        split; [exact W6|]; split; [exact W7|exact W8]
      end
    end
  end.
Defined.

End ParserStatus.

(** * More properties of the interpreter *)
Module InterpMore.
Import Syntax Interp InterpFacts Wellformed Programs.

(** X12: the evaluator, which works on an explicit stack, returns on every
    expression, and returns what the direct recursive evaluation gives: an
    identifier is looked up in the store ([nil] is hard-coded, an unset
    variable is nil), the arguments of an operation are evaluated from left
    to right before the operation is applied, the first throw ends the
    evaluation. *)
Theorem evalExpr_is_recursive_value (store : gmap string BinaryTree)
    (expr : option AST_EXPR) :
  _evalExpr store expr = Some (slot_value store expr)
  /\ (forall i, expr_value store (AST_IDENT i)
                = Return (if String.eqb (ident_value i) "nil" then null
                          else default null (store !! ident_value i)))
  /\ (forall t, expr_value store (AST_TREE t) = Throw UnknownExpressionToken)
  /\ (forall c op args,
        expr_value store (AST_OP c op args)
        = match args_value store args with
          | Throw x => Throw x
          | Return vs => apply_op op (map Literal vs)
          end).
Proof.
  split; [apply _evalExpr_value|]. split; [|split].
  - intros i. simpl. by destruct (String.eqb _ _).
  - reflexivity.
  - apply expr_value_OP.
Qed.

Lemma args_value_Return store args vs :
  args_value store args = Return vs -> length vs = length args.
Proof.
  revert vs. induction args as [|[a|] args IH]; intros vs; simpl.
  - by intros [= <-].
  - destruct (expr_value store a); [|done].
    destruct (args_value store args) as [vs'|]; [|done].
    intros [= <-]. simpl. f_equal. by apply IH.
  - done.
Qed.

Lemma apply_op_Return op vs :
  (exists v, apply_op op (map Literal vs) = Return v)
  <-> (if String.eqb (op_value op) "cons" then Nat.leb 2 (length vs)
       else if String.eqb (op_value op) "hd" || String.eqb (op_value op) "tl"
            then Nat.leb 1 (length vs)
            else false) = true.
Proof.
  unfold apply_op, literal_at.
  destruct (String.eqb (op_value op) "cons").
  - destruct vs as [|a [|b vs]]; simpl; split; try done; try (by intros [? ?]).
    intros _. by eexists.
  - destruct (String.eqb (op_value op) "hd"); simpl.
    + destruct vs as [|a vs]; simpl; split; try done; try (by intros [? ?]).
      intros _. destruct a; by eexists.
    + destruct (String.eqb (op_value op) "tl"); simpl.
      * destruct vs as [|a vs]; simpl; split; try done; try (by intros [? ?]).
        intros _. destruct a; by eexists.
      * split; [by intros [? ?]|done].
Qed.

Lemma expr_value_evaluable store e :
  (exists v, expr_value store e = Return v) <-> expr_evaluable e = true.
Proof.
  induction e as [i|t|c op args IH] using AST_EXPR_nested_ind.
  - simpl. split; [done|]. intros _. destruct (String.eqb _ _); by eexists.
  - simpl. split; [by intros [? ?]|done].
  - rewrite expr_value_OP. cbn [expr_evaluable].
    assert (A : (exists vs, args_value store args = Return vs)
                <-> forallb (fun a => match a with
                                      | Some a' => expr_evaluable a'
                                      | None => false
                                      end) args = true).
    { clear c op. induction IH as [|[a|] args Ha _ IHa]; simpl.
      - split; [done|]. intros _. by eexists.
      - rewrite andb_true_iff, <- Ha, <- IHa. split.
        + intros [vs E]. destruct (expr_value store a) as [v|]; [|done].
          destruct (args_value store args) as [vs'|]; [|done].
          split; by eexists.
        + intros [[v ->] [vs ->]]. by eexists.
      - split; [by intros [? ?]|done]. }
    rewrite andb_true_iff, <- A. split.
    + intros [v E]. destruct (args_value store args) as [vs|] eqn:V; [|done].
      split; [by eexists|]. rewrite <- (args_value_Return _ _ _ V).
      apply apply_op_Return. by eexists.
    + intros [[vs V] L]. rewrite V. apply apply_op_Return.
      by rewrite (args_value_Return _ _ _ V).
Qed.

(** X13: whether the evaluation of an expression returns a tree or throws
    does not depend on the store.  It returns exactly for the expressions
    made of identifiers, [hd] and [tl] with an argument and [cons] with two;
    a tree literal (the node the parser builds for a number), a missing
    argument or another operator anywhere in the expression makes the
    evaluation throw. *)
Theorem evalExpr_returns_iff (store : gmap string BinaryTree) (e : AST_EXPR) :
  (exists v, _evalExpr store (Some e) = Some (Return v))
  <-> expr_evaluable e = true.
Proof.
  rewrite <- (expr_value_evaluable store). rewrite _evalExpr_value. simpl.
  split; intros [v E]; exists v; congruence.
Qed.

Lemma cmd_round_bound store op stk store' stk' x :
  cmd_round store op stk = Some (Return (store', stk')) ->
  is_Some (store !! x) -> is_Some (store' !! x).
Proof.
  intros R S. destruct op as [[[c i arg|c cond i e|c cond b|c cond cs d]|]|body];
    simpl in R.
  - destruct (_evalExpr store arg) as [[v|]|]; inversion R; subst.
    destruct (decide (ident_value i = x)) as [->|N].
    + rewrite lookup_insert_eq. by eexists.
    + by rewrite lookup_insert_ne.
  - destruct (_evalExpr store cond) as [[v|]|]; [|done|done].
    destruct (negb (is_null v)); by inversion R; subst.
  - destruct (_evalExpr store cond) as [[v|]|]; [|done|done].
    destruct (negb (is_null v)); by inversion R; subst.
  - done.
  - done.
  - destruct body as [|first [|second rest]]; by inversion R; subst.
Qed.

Lemma cmd_loop_bound x fuel : forall store stk r store',
  cmd_loop fuel store stk = Some (r, store') ->
  is_Some (store !! x) -> is_Some (store' !! x).
Proof.
  induction fuel as [|fuel IH]; intros store stk r store' L S; [discriminate|].
  simpl in L. destruct stk as [|op stk]; [by inversion L; subst|].
  destruct (cmd_round store op stk) as [[[st1 stk1]|e]|] eqn:R; [| |done].
  - eapply IH; [exact L|]. eapply cmd_round_bound; eassumption.
  - by inversion L; subst.
Qed.

(** X14: when [run] ends, by returning or by throwing, the store holds every
    variable the program does not assign as it was before the run, and every
    variable that was set is still set: [run] deletes nothing and writes only
    the variables on the left of an assignment of the body. *)
Theorem run_writes_assigned_only (fuel : nat) (i : Interpreter)
    (r : Completion BinaryTree) (i' : Interpreter) :
  run fuel i = Some (r, i') ->
  (forall x, block_assigns x (prog_body (_program i)) = false ->
             _store i' !! x = _store i !! x)
  /\ (forall x, is_Some (_store i !! x) -> is_Some (_store i' !! x)).
Proof.
  intros R. apply run_inv in R. destruct R as (c & store' & L & -> & _).
  split; intros x X; simpl.
  - eapply cmd_loop_unassigned; [exact L|]. simpl. by rewrite X.
  - eapply cmd_loop_bound; eassumption.
Qed.

Lemma run_writes_assigned_only_witness :
  let i := {| _program := Fixtures.grow_program; _input := null;
              _store := <["X" := null]> ∅ |} in
  let i' := with_store i (<["Y" := Tree null null]> (<["X" := null]> ∅)) in
  run 5 i = Some (Return (Tree null null), i')
  /\ _store i' !! "X" = _store i !! "X"
  /\ is_Some (_store i' !! "X").
Proof.
  cbv zeta.
  assert (R : run 5 {| _program := Fixtures.grow_program; _input := null;
                       _store := <["X" := null]> ∅ |}
              = Some (Return (Tree null null),
                      with_store {| _program := Fixtures.grow_program;
                                    _input := null;
                                    _store := <["X" := null]> ∅ |}
                        (<["Y" := Tree null null]> (<["X" := null]> ∅))))
    by (vm_compute; reflexivity).
  split; [exact R|].
  destruct (run_writes_assigned_only _ _ _ _ R) as [F B].
  split; [apply F; reflexivity|apply B; vm_compute; by eexists].
Defined.

Lemma cmd_loop_step fuel store op stk :
  cmd_loop (S fuel) store (op :: stk)
  = match cmd_round store op stk with
    | None => None
    | Some (Throw e) => Some (Throw e, store)
    | Some (Return (store', commandStack')) => cmd_loop fuel store' commandStack'
    end.
Proof. reflexivity. Qed.

Lemma evaluable_returns store o :
  match o with Some e => expr_evaluable e | None => false end = true ->
  exists v, _evalExpr store o = Some (Return v).
Proof.
  destruct o as [e|]; [|done]. intros E.
  apply (expr_value_evaluable store) in E. destruct E as [v E].
  exists v. by rewrite _evalExpr_value; simpl; rewrite E.
Qed.

Lemma cmd_round_runnable store op stk :
  frame_runnable op = true -> forallb frame_runnable stk = true ->
  exists store' stk',
    cmd_round store op stk = Some (Return (store', stk'))
    /\ forallb frame_runnable stk' = true.
Proof.
  intros F S. destruct op as [[[c i arg|c cond i e|c cond b|c cond cs d]|]|body];
    try discriminate F.
  - destruct (evaluable_returns store arg F) as [v E].
    simpl. rewrite E. by eexists _, _.
  - change (match cond with Some e => expr_evaluable e | None => false end
            && block_runnable i && block_runnable e = true) in F.
    apply andb_prop in F. destruct F as [F Fe].
    apply andb_prop in F. destruct F as [Fc Fi].
    destruct (evaluable_returns store cond Fc) as [v E].
    simpl. rewrite E. destruct (negb (is_null v)); eexists _, _; (split; [done|]);
      simpl; rewrite S, ?andb_true_r; done.
  - change (match cond with Some e => expr_evaluable e | None => false end
            && block_runnable b = true) in F.
    assert (F' := F). apply andb_prop in F. destruct F as [Fc Fb].
    destruct (evaluable_returns store cond Fc) as [v E].
    simpl. rewrite E. destruct (negb (is_null v)); eexists _, _; (split; [done|]);
      [|done].
    cbn [forallb frame_runnable]. rewrite Fb, S, andb_true_r.
    exact F'.
  - destruct body as [|first [|second rest]]; simpl; eexists _, _;
      (split; [done|]); [done| |].
    + simpl in F. rewrite andb_true_r in F. simpl. by rewrite S, andb_true_r.
    + cbn [frame_runnable block_runnable forallb] in F.
      apply andb_prop in F. destruct F as [F1 F2].
      cbn [forallb frame_runnable]. rewrite S, andb_true_r.
      apply andb_true_intro. split; [by destruct first|exact F2].
Qed.

Lemma cmd_loop_runnable fuel : forall store stk r store',
  forallb frame_runnable stk = true ->
  cmd_loop fuel store stk = Some (r, store') -> r = Return ().
Proof.
  induction fuel as [|fuel IH]; intros store stk r store' S L; [discriminate|].
  destruct stk as [|op stk]; [by inversion L|].
  rewrite cmd_loop_step in L. simpl in S. apply andb_prop in S.
  destruct S as [S1 S2].
  destruct (cmd_round_runnable store op stk S1 S2) as (st1 & stk1 & R & S').
  rewrite R in L. by eapply IH.
Qed.

(** X15: [run] never throws on a program whose commands are assignments,
    conditionals and loops over evaluable expressions (identifiers, [hd],
    [tl] and [cons] with their arguments): whatever the input tree and the
    store, when [run] ends it returns a tree.  The throws of the interpreter
    are for the nodes left out here: a [switch], a tree literal, another
    operator, a missing node. *)
Theorem run_does_not_throw (i : Interpreter) (fuel : nat)
    (r : Completion BinaryTree) (i' : Interpreter) :
  prog_runnable (_program i) = true ->
  run fuel i = Some (r, i') ->
  exists out, r = Return out.
Proof.
  intros P R. unfold prog_runnable in P.
  apply andb_prop in P. destruct P as [P Pb].
  apply andb_prop in P. destruct P as [_ Po].
  unfold run in R.
  destruct (cmd_loop fuel (_store i) [ExBlock (prog_body (_program i))])
    as [[c store']|] eqn:L; [|discriminate].
  apply cmd_loop_runnable in L; [|simpl; by rewrite Pb]. subst c.
  destruct (prog_output (_program i)); [|discriminate Po].
  inversion R; subst. by eexists.
Qed.

Lemma run_does_not_throw_witness :
  let i := {| _program := add_ast; _input := Tree null null;
              _store := <["XY" := Tree null null]> ∅ |} in
  prog_runnable (_program i) = true
  /\ exists r i', run 20 i = Some (r, i') /\ exists out, r = Return out.
Proof.
  cbv zeta. split; [reflexivity|].
  eexists _, _. split; [vm_compute; reflexivity|].
  eapply (run_does_not_throw
            {| _program := add_ast; _input := Tree null null;
               _store := <["XY" := Tree null null]> ∅ |} 20).
  - reflexivity.
  - vm_compute. reflexivity.
Defined.

Lemma empty_loop_spins store c cond v stk :
  _evalExpr store cond = Some (Return v) -> is_null v = false ->
  forall fuel,
    cmd_loop fuel store (ExCmd (Some (AST_WHILE c cond [])) :: stk) = None.
Proof.
  intros E V fuel. induction fuel as [fuel IH] using lt_wf_ind.
  destruct fuel as [|[|fuel]]; [reflexivity| |].
  - rewrite cmd_loop_step, (loop_round _ _ _ _ _ _ E), V. reflexivity.
  - rewrite cmd_loop_step, (loop_round _ _ _ _ _ _ E), V.
    rewrite cmd_loop_step. cbn [cmd_round]. apply IH. lia.
Qed.

(** X16: the interpreter has no step limit.  When the body of the program
    starts with a loop whose body is empty and whose condition is not nil in
    the initial store, [run] does not return, however many rounds of its main
    loop are allowed. *)
Theorem run_spins_on_empty_loop (i : Interpreter) (c : bool)
    (cond : option AST_EXPR) (rest : list (option AST_CMD)) (v : BinaryTree) :
  prog_body (_program i) = Some (AST_WHILE c cond []) :: rest ->
  _evalExpr (_store i) cond = Some (Return v) ->
  is_null v = false ->
  forall fuel, run fuel i = None.
Proof.
  intros B E V fuel. unfold run. rewrite B.
  destruct fuel as [|fuel]; [reflexivity|].
  rewrite cmd_loop_step.
  assert (R : exists stk,
             cmd_round (_store i) (ExBlock (Some (AST_WHILE c cond []) :: rest)) []
             = Some (Return (_store i, ExCmd (Some (AST_WHILE c cond [])) :: stk))).
  { destruct rest; by eexists. }
  destruct R as [stk ->]. by rewrite (empty_loop_spins _ _ _ _ _ E V).
Qed.

Lemma run_spins_on_empty_loop_witness :
  let i := {| _program := spin_program; _input := null;
              _store := <["X" := null]> ∅ |} in
  new_Interpreter spin_program null = Return i
  /\ forall fuel, run fuel i = None.
Proof.
  cbv zeta. split; [reflexivity|].
  eapply (run_spins_on_empty_loop _ true _ [] (Tree null null)).
  - reflexivity.
  - vm_compute. reflexivity.
  - reflexivity.
Defined.

Lemma assign_round store x e v stk :
  expr_value store e = Return v ->
  cmd_round store (ExCmd (assign x e)) stk = Some (Return (<[x := v]> store, stk)).
Proof.
  intros E. unfold assign. cbn [cmd_round]. rewrite _evalExpr_value.
  cbn [slot_value]. by rewrite E.
Qed.

Lemma var_value store x :
  String.eqb x "nil" = false ->
  expr_value store (Fixtures.var x) = Return (default null (store !! x)).
Proof. intros N. unfold Fixtures.var. simpl. by rewrite N. Qed.

Lemma add_loop_runs k : forall j store stk,
  store !! "X" = Some (_numToTree k) -> store !! "Y" = Some (_numToTree j) ->
  exists store',
    (forall fuel, cmd_loop (5 * k + 1 + fuel) store (ExCmd (Some add_loop) :: stk)
                  = cmd_loop fuel store' stk)
    /\ store' !! "Y" = Some (_numToTree (k + j)).
Proof.
  induction k as [|k IH]; intros j store stk HX HY.
  - exists store. split; [|done]. intros fuel.
    change (5 * 0 + 1 + fuel) with (S fuel). rewrite cmd_loop_step.
    unfold add_loop. rewrite (loop_round store _ _ _ stk null); [reflexivity|].
    rewrite _evalExpr_value. cbn [slot_value].
    rewrite var_value by done. by rewrite HX.
  - rewrite _numToTree_S in HX.
    set (store1 := <["Y" := _numToTree (S j)]> store).
    set (store2 := <["X" := _numToTree k]> store1).
    destruct (IH (S j) store2 stk) as (store' & L & Y').
    { unfold store2. by rewrite lookup_insert_eq. }
    { unfold store2, store1. rewrite lookup_insert_ne by done.
      by rewrite lookup_insert_eq. }
    exists store'. split; [|by rewrite Y', Nat.add_succ_r].
    intros fuel.
    replace (5 * S k + 1 + fuel) with (S (S (S (S (S (5 * k + 1 + fuel)))))) by lia.
    rewrite <- L.
    rewrite cmd_loop_step. unfold add_loop at 1.
    rewrite (loop_round store _ _ _ stk (Tree null (_numToTree k)));
      [|rewrite _evalExpr_value; cbn [slot_value];
        rewrite var_value by done; by rewrite HX].
    cbn [is_null]. fold add_loop.
    rewrite cmd_loop_step. cbn [cmd_round].
    rewrite cmd_loop_step.
    rewrite (assign_round _ _ _ (_numToTree (S j))).
    2: { unfold cons_of. rewrite expr_value_OP. cbn [args_value].
         rewrite (var_value _ "Y") by done. rewrite HY.
         by rewrite _numToTree_S. }
    rewrite cmd_loop_step. cbn [cmd_round].
    rewrite cmd_loop_step.
    rewrite (assign_round _ _ _ (_numToTree k)).
    2: { unfold tl_of. rewrite expr_value_OP. cbn [args_value].
         rewrite !var_value by done. rewrite lookup_insert_ne by done.
         by rewrite HX. }
    reflexivity.
Qed.

(** X17: the interpreter runs the [add] program to the sum on every pair of
    numbers: the parser reads the program from its tokens, and on the input
    [(m.n)], with the numbers as [_numToTree] builds them, [run] returns the
    tree of [m + n] (after [5 * m + 7] rounds of its loop). *)
Theorem add_adds (m n : nat) :
  Parser.parser (Printer.unparse_prog add_ast) None = Some (add_ast, [], [])
  /\ exists i i',
       new_Interpreter add_ast (Tree (_numToTree m) (_numToTree n)) = Return i
       /\ run (5 * m + 7) i = Some (Return (_numToTree (m + n)), i').
Proof.
  split; [vm_compute; reflexivity|].
  set (input := Tree (_numToTree m) (_numToTree n)).
  set (store0 := <["XY" := input]> ∅ : gmap string BinaryTree).
  set (i := {| _program := add_ast; _input := input; _store := store0 |}).
  assert (XY : store0 !! "XY" = Some input) by apply lookup_insert_eq.
  set (store1 := <["X" := _numToTree m]> store0).
  set (store2 := <["Y" := _numToTree n]> store1).
  destruct (add_loop_runs m n store2 []) as (store' & L & Y').
  { unfold store2, store1. rewrite lookup_insert_ne by done.
    by rewrite lookup_insert_eq. }
  { unfold store2. by rewrite lookup_insert_eq. }
  exists i, (with_store i store'). split; [reflexivity|].
  unfold run. cbn [i _store _program add_ast prog_body prog_output].
  replace (5 * m + 7) with (S (S (S (S (S (5 * m + 1 + 1)))))) by lia.
  rewrite cmd_loop_step. cbn [cmd_round].
  rewrite cmd_loop_step.
  rewrite (assign_round _ _ _ (_numToTree m)).
  2: { unfold hd_of. rewrite expr_value_OP. cbn [args_value].
       rewrite !var_value by done. by rewrite XY. }
  rewrite cmd_loop_step. cbn [cmd_round].
  rewrite cmd_loop_step.
  rewrite (assign_round _ _ _ (_numToTree n)).
  2: { unfold tl_of. rewrite expr_value_OP. cbn [args_value].
       rewrite !var_value by done. rewrite lookup_insert_ne by done.
       by rewrite XY. }
  rewrite cmd_loop_step. cbn [cmd_round].
  fold store1 store2. rewrite L. cbn [cmd_loop].
  unfold store_get. cbn [ident_value Fixtures.name]. rewrite Y'. reflexivity.
Qed.

End InterpMore.

(** * The evaluator over shared arrays computes the value *)
Module SharedMore.
Import Syntax Interp Shared InterpFacts SharedFacts.

(** X18: with the argument arrays shared by reference, as JavaScript has
    them, the evaluator still returns the value of the expression: the
    literals it writes go into the arrays [_copyExpr] made, never into an
    array of the AST, so no argument is read after it has been overwritten.
    Here the AST [e] is laid out in the arrays by [alloc_expr], on top of any
    arrays [h]. *)
Theorem shared_arrays_same_value (store : gmap string BinaryTree) (e : AST_EXPR)
    (h : list (list (option NODE))) :
  let n := fst (alloc_expr e h) in
  let h' := snd (alloc_expr e h) in
  fst (Shared._evalExpr (S (expr_rounds e)) store h' (Some n))
  = Some (expr_value store e)
  /\ forall a, a < length h' ->
       snd (Shared._evalExpr (S (expr_rounds e)) store h' (Some n)) !! a = h' !! a.
Proof.
  cbv zeta. destruct (alloc_expr e h) as [n h'] eqn:A. simpl.
  destruct (alloc_expr_repr e h n h' A) as [_ R]. split.
  - rewrite (shared_evalExpr_repr store (length h') h' e n R) by done.
    by rewrite _evalExpr_value.
  - intros a Ha. by apply arguments_unchanged.
Qed.

End SharedMore.
